(** * Panel Hopper: connection lifecycle and fan-out send orchestration

    A shallow embedding of [src/panel_hopper/core.py]: the persistent
    session pool ([PersistentSession], [PERSISTENT_SESSIONS],
    [get_persistent_session], [close_all_sessions]) and the sender
    ([PanelController.send_to_panel], [send_to_multiple],
    [send_same_to_all]).

    The Bluetooth stack, the vendor class [BleDisplaySession] and the
    optional progress callback are outside the program.  Every call that
    crosses that border is recorded in a trace and its result (returns, or
    raises an exception) is read from a [world]: a function of the whole
    history of border crossings so far.  The embedded code is therefore
    executable once a world is chosen, and the theorems quantify over all
    worlds.

    A world may answer any call with any exception.  That is more than a
    real transport does (it lets [asyncio.sleep] under a deadline raise
    something else than the deadline), so what is proved for all worlds
    holds for the real ones, and every world used to refute a statement is
    one a real transport can produce.

    The model is sequential: one coroutine runs at a time and no other task
    touches the pool between two awaits; the [asyncio.Lock] of a session is
    then never contended and is left out.  Cancellation and the other
    signals that derive from [BaseException] only are outside the model;
    logging has no effect on the modelled state.  Seconds are rationals and
    are only passed along, never computed with. *)

(** Beside the sender the development embeds what stands around it:
    [scan_for_panels] of the same module; the configuration of
    [src/panel_hopper/config.py] ([Panel], [GridConfig], [PanelConfig] with
    its methods, and [load_config] and [save_config] at the level of the
    parsed file); the loops of the command line tools and of the web server
    that merge a scan into the configuration and that send to the grid or
    to all enabled panels; and the dot-matrix text and the grid split of
    [src/panel_hopper/graphics.py], over images that are a size and a
    colour for each position.  Python's [int] is [Z], a [dict] is an
    association list in insertion order, and a library call that can fail
    returns an [option].  A colour is three channels of 0 to 255.  Where
    the code upper-cases a text or lower-cases a name, the model covers
    the ASCII ones, on which [str.upper] and [str.lower] touch the letters
    only, and says [Outside] for any other. *)

From Stdlib Require Import Strings.String Strings.Ascii Strings.Byte.
From Stdlib Require Import List ZArith QArith Bool Lia.
From Stdlib Require Import Sorting.Sorted Sorting.Permutation.
Import ListNotations.

Close Scope Q_scope.
Open Scope string_scope.
Open Scope list_scope.

(** ** Strings *)

(** [str.upper] on the ASCII range, which is where hardware addresses live:
    [a]..[z] go to [A]..[Z], every other code is left as it is. *)
Definition upper_ascii (c : ascii) : ascii :=
  let n := nat_of_ascii c in
  if (97 <=? n)%nat && (n <=? 122)%nat then ascii_of_nat (n - 32) else c.

Fixpoint upper (s : string) : string :=
  match s with
  | EmptyString => EmptyString
  | String c rest => String (upper_ascii c) (upper rest)
  end.

(** Python's [x or y] on strings: the empty string is falsy. *)
Definition str_or (x y : string) : string :=
  match x with EmptyString => y | _ => x end.

(** [name or mac] where [name] is [Optional[str]]. *)
Definition opt_str_or (x : option string) (y : string) : string :=
  match x with None => y | Some x' => str_or x' y end.

Definition bytes := list byte.

(** ** The border: sessions, events, exceptions *)

(** The constructor arguments of the vendor class [BleDisplaySession]; an
    instance is identified by them. *)
Record BleDisplaySession := mkBleDisplaySession {
  address : string;
  auto_reconnect : bool;
  max_retries : Z;
  scan_timeout : Z;
  ble_log_notifications : bool
}.

Inductive event :=
| EvNewSession (s : BleDisplaySession)              (* BleDisplaySession(...) *)
| EvConnect (s : BleDisplaySession)                 (* s._connect() *)
| EvSendPng (s : BleDisplaySession) (png : bytes) (write_delay : Q)
                                                    (* s.send_png(png, delay) *)
| EvSafeDisconnect (s : BleDisplaySession)          (* s._safe_disconnect() *)
| EvSleep (seconds : Q)                             (* asyncio.sleep(...) *)
| EvProgress (mac status : string) (final : bool).  (* progress_callback(...) *)

(** The exceptions the code tells apart: [asyncio.TimeoutError] (raised by
    [asyncio.wait_for] at the await where the deadline fires, or by
    anything below it) and every other [Exception], of which only [str(e)]
    is ever used. *)
Inductive exn :=
| AsyncioTimeoutError
| OtherException (text : string).

Inductive response := Ok | Raise (e : exn).

(** The history is kept newest first; the head is the call being answered. *)
Definition world := list event -> response.

(** ** Program state *)

(** The fields of [class PersistentSession] (lines 89-148) but for the
    lock. *)
Module PersistentSession.

Record t := mk {
  mac : string;
  name : string;
  log_notifications : bool;
  session : option BleDisplaySession;
  connected : bool
}.

(** [__init__(self, mac, name = "", log_notifications = False)] *)
Definition init (mac name : string) : t :=
  {| mac := mac; name := str_or name mac; log_notifications := false;
     session := None; connected := false |}.

(** [self.session = s] *)
Definition set_session (self : t) (s : option BleDisplaySession) : t :=
  {| mac := mac self; name := name self;
     log_notifications := log_notifications self;
     session := s; connected := connected self |}.

(** [self.connected = b] *)
Definition set_connected (self : t) (b : bool) : t :=
  {| mac := mac self; name := name self;
     log_notifications := log_notifications self;
     session := session self; connected := b |}.

End PersistentSession.

(** A Python [dict] with string keys, in insertion order (the order in
    which [values()] iterates). *)
Definition dict (V : Type) := list (string * V).

Fixpoint dict_get {V} (k : string) (d : dict V) : option V :=
  match d with
  | [] => None
  | (k', v) :: rest => if String.eqb k k' then Some v else dict_get k rest
  end.

(** [d[k] = v]: replaces in place when the key is there, appends otherwise. *)
Fixpoint dict_set {V} (k : string) (v : V) (d : dict V) : dict V :=
  match d with
  | [] => [(k, v)]
  | (k', v') :: rest =>
      if String.eqb k k' then (k', v) :: rest else (k', v') :: dict_set k v rest
  end.

(** The module-level dictionary [PERSISTENT_SESSIONS] (line 152) and the
    calls across the border so far, newest first. *)
Record state := mkState {
  PERSISTENT_SESSIONS : dict PersistentSession.t;
  trace : list event
}.

(** The process has just started: [PERSISTENT_SESSIONS = {}]. *)
Definition initial_state : state :=
  {| PERSISTENT_SESSIONS := []; trace := [] |}.

(** The events in the order in which they happened. *)
Definition history (st : state) : list event := rev (trace st).

(** ** A monad for state, the world and exceptions *)

Inductive result (A : Type) :=
| Val (a : A)
| Exc (e : exn).
Arguments Val {A} a.
Arguments Exc {A} e.

Definition M (A : Type) := world -> state -> result A * state.

Definition ret {A} (a : A) : M A := fun _ st => (Val a, st).

Definition bind {A B} (m : M A) (k : A -> M B) : M B :=
  fun W st =>
    match m W st with
    | (Val a, st') => k a W st'
    | (Exc e, st') => (Exc e, st')
    end.

Declare Scope py_scope.
Delimit Scope py_scope with py.
Notation "x <- m ;; k" := (bind m (fun x => k))
  (at level 61, m at next level, right associativity) : py_scope.
Notation "m ;; k" := (bind m (fun _ => k))
  (at level 61, right associativity) : py_scope.
Open Scope py_scope.

(** [try: m except Exception as e: h e] (both kinds of [exn] are
    [Exception]s). *)
Definition try_except {A} (m : M A) (h : exn -> M A) : M A :=
  fun W st =>
    match m W st with
    | (Val a, st') => (Val a, st')
    | (Exc e, st') => h e W st'
    end.

(** [try: m finally: c]: [c] runs on every way out of [m]; an exception of
    [c] replaces the result of [m]. *)
Definition try_finally {A} (m : M A) (c : M unit) : M A :=
  fun W st =>
    let '(r, st') := m W st in
    match c W st' with
    | (Val _, st'') => (r, st'')
    | (Exc e, st'') => (Exc e, st'')
    end.

Definition log_event (ev : event) (st : state) : state :=
  {| PERSISTENT_SESSIONS := PERSISTENT_SESSIONS st; trace := ev :: trace st |}.

(** A call across the border that may raise. *)
Definition call (ev : event) : M unit :=
  fun W st =>
    let st' := log_event ev st in
    match W (trace st') with
    | Ok => (Val tt, st')
    | Raise e => (Exc e, st')
    end.

(** A call across the border that only takes time: [asyncio.sleep] outside
    any deadline. *)
Definition emit (ev : event) : M unit :=
  fun _ st => (Val tt, log_event ev st).

Definition get_pool : M (dict PersistentSession.t) :=
  fun _ st => (Val (PERSISTENT_SESSIONS st), st).

Definition set_pool (d : dict PersistentSession.t) : M unit :=
  fun _ st => (Val tt, {| PERSISTENT_SESSIONS := d; trace := trace st |}).

(** A session object reached through the pool is the pool's own object:
    what a method did to it is written back under its key. *)
Definition store_session (key : string) (s : PersistentSession.t) : M unit :=
  fun _ st =>
    (Val tt, {| PERSISTENT_SESSIONS := dict_set key s (PERSISTENT_SESSIONS st);
                trace := trace st |}).

(** Truthiness of [Optional[BleDisplaySession]]: the class defines neither
    [__bool__] nor [__len__], so every instance is truthy. *)
Definition truthy {A} (o : option A) : bool :=
  match o with Some _ => true | None => false end.

(** ** class PersistentSession *)

(** The session a [PersistentSession] opens in [connect]. *)
Definition held_session (self : PersistentSession.t) : BleDisplaySession :=
  {| address := PersistentSession.mac self;
     auto_reconnect := true;
     max_retries := 3;
     scan_timeout := 15;
     ble_log_notifications := PersistentSession.log_notifications self |}.

(** [async def connect(self, timeout = 30.0) -> bool] (lines 102-123).
    Returns the flag and the object as the call left it.  The one [try] of
    the source is written as two nested ones because [self.session] is
    assigned between the two calls that may raise. *)
Definition PersistentSession_connect (self : PersistentSession.t)
  : M (bool * PersistentSession.t) :=
  if PersistentSession.connected self && truthy (PersistentSession.session self)
  then ret (true, self)
  else
    let s := held_session self in
    try_except
      (call (EvNewSession s) ;;
       let self1 := PersistentSession.set_session self (Some s) in
       try_except
         (call (EvConnect s) ;;
          ret (true, PersistentSession.set_connected self1 true))
         (fun _ => ret (false, PersistentSession.set_connected self1 false)))
      (fun _ => ret (false, PersistentSession.set_connected self false)).

(** [async def send_frame(self, png_bytes, delay = 0.1) -> bool] (lines
    125-136).  The first two branches are [if not self.connected or not
    self.session: return False]. *)
Definition PersistentSession_send_frame (self : PersistentSession.t)
    (png_bytes : bytes) (delay : Q) : M (bool * PersistentSession.t) :=
  match PersistentSession.session self with
  | Some s =>
      if negb (PersistentSession.connected self) then ret (false, self)
      else
        try_except
          (call (EvSendPng s png_bytes delay) ;; ret (true, self))
          (fun _ => ret (false, PersistentSession.set_connected self false))
  | None => ret (false, self)
  end.

(** [async def disconnect(self)] (lines 138-148) *)
Definition PersistentSession_disconnect (self : PersistentSession.t)
  : M PersistentSession.t :=
  self1 <- match PersistentSession.session self with
           | Some s =>
               try_except (call (EvSafeDisconnect s)) (fun _ => ret tt) ;;
               ret (PersistentSession.set_session self None)
           | None => ret self
           end ;;
  ret (PersistentSession.set_connected self1 false).

(** ** The pool *)

(** The literal [3] of [get_persistent_session]. *)
Definition capacity : nat := 3.

(** The tail of [get_persistent_session], from [session =
    PERSISTENT_SESSIONS[mac]] on. *)
Definition connect_if_needed (mac : string) (session : PersistentSession.t)
  : M (option PersistentSession.t) :=
  session' <- (if negb (PersistentSession.connected session)
               then r <- PersistentSession_connect session ;;
                    store_session mac (snd r) ;;
                    ret (snd r)
               else ret session) ;;
  ret (if PersistentSession.connected session' then Some session' else None).

(** [async def get_persistent_session(mac, name = "")] (lines 155-168).
    [mac not in PERSISTENT_SESSIONS] is the [None] branch of the lookup; in
    it the object read back by [PERSISTENT_SESSIONS[mac]] is the one just
    stored. *)
Definition get_persistent_session (mac name : string)
  : M (option PersistentSession.t) :=
  let mac := upper mac in
  pool <- get_pool ;;
  match dict_get mac pool with
  | None =>
      if (capacity <=? length pool)%nat then ret None
      else
        let fresh := PersistentSession.init mac name in
        store_session mac fresh ;;
        connect_if_needed mac fresh
  | Some session => connect_if_needed mac session
  end.

(** [for session in PERSISTENT_SESSIONS.values(): await
    session.disconnect()]; the key comes along to write the object back. *)
Fixpoint disconnect_each (todo : dict PersistentSession.t) : M unit :=
  match todo with
  | [] => ret tt
  | (key, session) :: rest =>
      session' <- PersistentSession_disconnect session ;;
      store_session key session' ;;
      disconnect_each rest
  end.

(** [async def close_all_sessions()] (lines 171-175) *)
Definition close_all_sessions : M unit :=
  pool <- get_pool ;;
  disconnect_each pool ;;
  set_pool [].

(** ** class PanelController *)

(** The fields of [class PanelController] (lines 186-211). *)
Module PanelController.

Record t := mk {
  timeout : Q;
  delay : Q;
  retries : Z;
  panel_delay : Q;
  log_notifications : bool;
  use_persistent : bool
}.

(** The defaults of [__init__]. *)
Definition default : t :=
  {| timeout := 30; delay := 15 # 100; retries := 3; panel_delay := 15 # 10;
     log_notifications := false; use_persistent := true |}.

End PanelController.

(** The progress callback is a value of the caller; what it does when it is
    called is the world's business. *)
Inductive callback := Callback.

(** [if progress_callback: progress_callback(mac, status, final)] *)
Definition notify (progress_callback : option callback)
    (mac status : string) (final : bool) : M unit :=
  match progress_callback with
  | Some _ => call (EvProgress mac status final)
  | None => ret tt
  end.

(** [range(lo, hi)] *)
Definition py_range (lo hi : Z) : list Z :=
  map (fun i => (lo + Z.of_nat i)%Z) (seq 0 (Z.to_nat (hi - lo))).

(** The result of a computation as a value: what [try] sees. *)
Definition catch_result {A} (m : M A) : M (result A) :=
  fun W st => let '(r, st') := m W st in (Val r, st').

(** The first part of [send_to_panel] (lines 234-249): the persistent
    connection.  [Some out] is [return out]; [None] is falling out of the
    [if] into the retry loop.  [persistent] is the pool's object under the
    upper-cased address, so what [send_frame] did to it is written back
    there. *)
Definition send_over_persistent (self : PanelController.t) (mac : string)
    (png_bytes : bytes) (display_name : string)
    (progress_callback : option callback) : M (option (bool * string)) :=
  if PanelController.use_persistent self then
    persistent <- get_persistent_session mac display_name ;;
    match persistent with
    | Some p =>
        if PersistentSession.connected p then
          notify progress_callback mac "sending" false ;;
          r <- PersistentSession_send_frame p png_bytes
                 (PanelController.delay self) ;;
          store_session (upper mac) (snd r) ;;
          if fst r then
            notify progress_callback mac "success" true ;;
            ret (Some (true, "OK"))
          else ret None
        else ret None
    | None => ret None
    end
  else ret None.

(** The session a retry attempt opens. *)
Definition fresh_session (self : PanelController.t) (mac : string)
  : BleDisplaySession :=
  {| address := mac; auto_reconnect := false; max_retries := 1;
     scan_timeout := 15;
     ble_log_notifications := PanelController.log_notifications self |}.

(** The settle pause after [send_png]: [asyncio.sleep(0.5)] (line 281). *)
Definition settle_delay : Q := 5 # 10.

(** The nested coroutine [send_with_session] (lines 263-284) from its second
    statement on; its first statement, the constructor, is run by
    [attempt_once].  It runs under [asyncio.wait_for]: the deadline shows as
    [AsyncioTimeoutError] raised by the call that was waited for. *)
Definition send_with_session (self : PanelController.t) (mac : string)
    (png_bytes : bytes) (progress_callback : option callback) : M bool :=
  let session := fresh_session self mac in
  call (EvConnect session) ;;
  notify progress_callback mac "sending" false ;;
  call (EvSendPng session png_bytes (PanelController.delay self)) ;;
  call (EvSleep settle_delay) ;;
  ret true.

(** The body of the [try] (lines 262-294) once the constructor has
    returned: [send_with_session] under the deadline, then the lines after
    it. *)
Definition guarded_send (self : PanelController.t) (mac : string)
    (png_bytes : bytes) (progress_callback : option callback)
  : M (option (bool * string)) :=
  send_with_session self mac png_bytes progress_callback ;;
  notify progress_callback mac "success" true ;;
  ret (Some (true, "OK")).

(** The two [except] clauses (lines 296-309); [error_msg] is [str(e)].
    [None] is leaving the handler without [return]: the loop goes on. *)
Definition on_exception (self : PanelController.t) (mac : string)
    (progress_callback : option callback) (attempt : Z) (e : exn)
  : M (option (bool * string)) :=
  match e with
  | AsyncioTimeoutError =>
      if (attempt =? PanelController.retries self)%Z then
        notify progress_callback mac "timeout" false ;;
        ret (Some (false, "Connection timeout"))
      else ret None
  | OtherException error_msg =>
      if (attempt =? PanelController.retries self)%Z then
        notify progress_callback mac ("error: " ++ error_msg) false ;;
        ret (Some (false, error_msg))
      else ret None
  end.

(** The [finally] clause (lines 311-320); [session] is the local variable
    of that name. *)
Definition cleanup (self : PanelController.t)
    (session : option BleDisplaySession) : M unit :=
  match session with
  | Some s =>
      if negb (PanelController.use_persistent self)
      then try_except (call (EvSafeDisconnect s)) (fun _ => ret tt)
      else ret tt
  | None => ret tt
  end ;;
  emit (EvSleep (PanelController.panel_delay self)).

(** One turn of the [for] loop (lines 253-320).  The local [session] is
    [None] until the constructor, the first statement of
    [send_with_session], has returned; the [try] is split there so that
    [finally] sees the right value.  The "connecting" notification comes
    before the [try]. *)
Definition attempt_once (self : PanelController.t) (mac : string)
    (png_bytes : bytes) (progress_callback : option callback) (attempt : Z)
  : M (option (bool * string)) :=
  notify progress_callback mac "connecting" false ;;
  constructed <- catch_result (call (EvNewSession (fresh_session self mac))) ;;
  match constructed with
  | Exc e =>
      try_finally (on_exception self mac progress_callback attempt e)
                  (cleanup self None)
  | Val _ =>
      try_finally
        (try_except (guarded_send self mac png_bytes progress_callback)
                    (on_exception self mac progress_callback attempt))
        (cleanup self (Some (fresh_session self mac)))
  end.

(** [for attempt in attempts: ...]; [None] is the loop running out. *)
Fixpoint retry_loop (self : PanelController.t) (mac : string)
    (png_bytes : bytes) (progress_callback : option callback)
    (attempts : list Z) : M (option (bool * string)) :=
  match attempts with
  | [] => ret None
  | attempt :: rest =>
      r <- attempt_once self mac png_bytes progress_callback attempt ;;
      match r with
      | Some out => ret (Some out)
      | None => retry_loop self mac png_bytes progress_callback rest
      end
  end.

(** The second part of [send_to_panel] (lines 251-322): the loop over
    fresh connections and the [return] after it. *)
Definition send_over_fresh (self : PanelController.t) (mac : string)
    (png_bytes : bytes) (progress_callback : option callback)
  : M (bool * string) :=
  r <- retry_loop self mac png_bytes progress_callback
         (py_range 1 (PanelController.retries self + 1)) ;;
  match r with
  | Some out => ret out
  | None => ret (false, "Max retries exceeded")
  end.

(** [async def send_to_panel(self, mac, png_bytes, name = None,
    progress_callback = None) -> tuple[bool, str]] (lines 213-322) *)
Definition send_to_panel (self : PanelController.t) (mac : string)
    (png_bytes : bytes) (name : option string)
    (progress_callback : option callback) : M (bool * string) :=
  let display_name := opt_str_or name mac in
  r <- send_over_persistent self mac png_bytes display_name
         progress_callback ;;
  match r with
  | Some out => ret out
  | None => send_over_fresh self mac png_bytes progress_callback
  end.

(** The [for] loop of [send_to_multiple]; [results] is the list being
    appended to. *)
Fixpoint send_each (self : PanelController.t)
    (panels : list (string * string * bytes))
    (progress_callback : option callback)
    (results : list (string * bool * string))
  : M (list (string * bool * string)) :=
  match panels with
  | [] => ret results
  | (mac, name, png_bytes) :: rest =>
      r <- send_to_panel self mac png_bytes (Some name) progress_callback ;;
      send_each self rest progress_callback
        (results ++ [(mac, fst r, snd r)])
  end.

(** [async def send_to_multiple(self, panels, progress_callback = None)]
    (lines 324-347) *)
Definition send_to_multiple (self : PanelController.t)
    (panels : list (string * string * bytes))
    (progress_callback : option callback)
  : M (list (string * bool * string)) :=
  send_each self panels progress_callback [].

(** [async def send_same_to_all(self, macs, png_bytes, progress_callback =
    None)] (lines 349-367) *)
Definition send_same_to_all (self : PanelController.t)
    (macs : list (string * string)) (png_bytes : bytes)
    (progress_callback : option callback)
  : M (list (string * bool * string)) :=
  let panels := map (fun m => (fst m, snd m, png_bytes)) macs in
  send_to_multiple self panels progress_callback.

(** * The vocabulary of the statements *)

(** [evs], newest first, happened after [st]. *)
Definition add_events (evs : list event) (st : state) : state :=
  {| PERSISTENT_SESSIONS := PERSISTENT_SESSIONS st; trace := evs ++ trace st |}.

(** The sessions that are there to be disconnected, in dictionary order. *)
Definition open_sessions (d : dict PersistentSession.t)
  : list BleDisplaySession :=
  flat_map (fun kv => match PersistentSession.session (snd kv) with
                      | Some s => [s]
                      | None => []
                      end) d.

Definition within_capacity (st : state) : Prop :=
  (length (PERSISTENT_SESSIONS st) <= capacity)%nat.

(** The keys of the pool, in dictionary order. *)
Definition pool_keys (st : state) : list string :=
  map fst (PERSISTENT_SESSIONS st).

(** Every key of the pool is an upper-cased address. *)
Definition keys_normalised (st : state) : Prop :=
  Forall (fun key => upper key = key) (pool_keys st).

(** The three things that happen to the keys of the pool: nothing, one
    upper-cased address is admitted while there is room, all are dropped. *)
Inductive pool_step : state -> state -> Prop :=
| step_same st st' :
    pool_keys st' = pool_keys st -> pool_step st st'
| step_admit st st' mac :
    (length (PERSISTENT_SESSIONS st) < capacity)%nat ->
    pool_keys st' = pool_keys st ++ [upper mac] ->
    pool_step st st'
| step_drain st st' :
    PERSISTENT_SESSIONS st' = [] -> pool_step st st'.

Inductive pool_evolves : state -> state -> Prop :=
| evolves_refl st : pool_evolves st st
| evolves_step st st1 st2 :
    pool_step st st1 -> pool_evolves st1 st2 -> pool_evolves st st2.

(** The callback is one that never raises. *)
Definition observer_never_raises (W : world) : Prop :=
  forall mac status final past, W (EvProgress mac status final :: past) = Ok.

(** The callback is absent, or it is one that never raises. *)
Definition well_behaved (progress_callback : option callback) (W : world)
  : Prop :=
  progress_callback = None \/ observer_never_raises W.

(** The whole [try] body of one attempt: the coroutine under
    [asyncio.wait_for] and the lines after it.  Its result is what the
    [except] clauses see. *)
Definition attempt_body (self : PanelController.t) (mac : string)
    (png_bytes : bytes) (progress_callback : option callback)
  : M (option (bool * string)) :=
  call (EvNewSession (fresh_session self mac)) ;;
  guarded_send self mac png_bytes progress_callback.

Definition target_address (t : string * string * bytes) : string :=
  fst (fst t).

Definition outcome_address (o : string * bool * string) : string :=
  fst (fst o).

(** Tests on events, to read a trace with. *)
Definition is_close (ev : event) : bool :=
  match ev with EvSafeDisconnect _ => true | _ => false end.

Definition is_sleep (ev : event) : bool :=
  match ev with EvSleep _ => true | _ => false end.

Definition is_connect_of (s : BleDisplaySession) (ev : event) : bool :=
  match ev with
  | EvConnect s' =>
      String.eqb (address s) (address s')
      && Bool.eqb (auto_reconnect s) (auto_reconnect s')
  | _ => false
  end.


(** The new events hold the settle pause right after [send_png]. *)
Definition settled (self : PanelController.t) (mac : string) (png : bytes)
    (evs : list event) : Prop :=
  exists later earlier,
    evs = later ++ EvSleep settle_delay
            :: EvSendPng (fresh_session self mac) png
                 (PanelController.delay self)
            :: earlier.

(** What a caller can ask of the module. *)
Inductive request :=
| Acquire (mac name : string)
| SendOne (self : PanelController.t) (mac : string) (png : bytes)
    (name : option string) (cb : option callback)
| SendMany (self : PanelController.t) (panels : list (string * string * bytes))
    (cb : option callback)
| SendSame (self : PanelController.t) (macs : list (string * string))
    (png : bytes) (cb : option callback)
| Drain.

(** The state a request leaves, whether it returned or raised. *)
Definition serve (W : world) (st : state) (rq : request) : state :=
  match rq with
  | Acquire mac name => snd (get_persistent_session mac name W st)
  | SendOne self mac png name cb =>
      snd (send_to_panel self mac png name cb W st)
  | SendMany self panels cb => snd (send_to_multiple self panels cb W st)
  | SendSame self macs png cb => snd (send_same_to_all self macs png cb W st)
  | Drain => snd (close_all_sessions W st)
  end.

Definition serve_all (W : world) (rqs : list request) (st : state) : state :=
  fold_left (serve W) rqs st.

(** * Worlds and data to run the code on *)

Definition demo_png : bytes := [x89; x50; x4e; x47].
Definition demo_mac : string := "aa:bb:cc:dd:ee:01".
Definition demo_mac_upper : string := "AA:BB:CC:DD:EE:01".
Definition demo_mac2 : string := "aa:bb:cc:dd:ee:02".
Definition demo_mac3 : string := "aa:bb:cc:dd:ee:03".
Definition demo_mac4 : string := "aa:bb:cc:dd:ee:04".

(** Two attempts, no pool. *)
Definition two_tries : PanelController.t :=
  {| PanelController.timeout := 30;
     PanelController.delay := 15 # 100;
     PanelController.retries := 2;
     PanelController.panel_delay := 15 # 10;
     PanelController.log_notifications := false;
     PanelController.use_persistent := false |}.

(** Two attempts, with the pool. *)
Definition two_tries_pooled : PanelController.t :=
  {| PanelController.timeout := 30;
     PanelController.delay := 15 # 100;
     PanelController.retries := 2;
     PanelController.panel_delay := 15 # 10;
     PanelController.log_notifications := false;
     PanelController.use_persistent := true |}.

(** No attempt at all, no pool. *)
Definition no_tries : PanelController.t :=
  {| PanelController.timeout := 30;
     PanelController.delay := 15 # 100;
     PanelController.retries := 0;
     PanelController.panel_delay := 15 # 10;
     PanelController.log_notifications := false;
     PanelController.use_persistent := false |}.

(** Everything goes through. *)
Definition calm_world : world := fun _ => Ok.

(** Every [_connect] runs into the deadline. *)
Definition stalled_world : world :=
  fun h => match h with
           | EvConnect _ :: _ => Raise AsyncioTimeoutError
           | _ => Ok
           end.

(** Every [_connect] raises an exception whose text is empty. *)
Definition mute_failure_world : world :=
  fun h => match h with
           | EvConnect _ :: _ => Raise (OtherException "")
           | _ => Ok
           end.

(** The very first [_connect] runs into the deadline, the later ones are
    answered. *)
Definition flaky_world : world :=
  fun h => match h with
           | [EvConnect _; EvNewSession _] => Raise AsyncioTimeoutError
           | _ => Ok
           end.

(** The panel at one address is out of reach: [_connect] on a session to it
    raises. *)
Definition dead_panel_world (dead : string) : world :=
  fun h => match h with
           | EvConnect s :: _ =>
               if String.eqb (upper (address s)) (upper dead)
               then Raise (OtherException "Device not found") else Ok
           | _ => Ok
           end.



(** Every [_safe_disconnect] raises. *)
Definition stubborn_world : world :=
  fun h => match h with
           | EvSafeDisconnect _ :: _ => Raise (OtherException "not connected")
           | _ => Ok
           end.

(** A pool of three, filled by three acquisitions. *)
Definition full_house : state :=
  serve_all calm_world
    [Acquire demo_mac "left"; Acquire demo_mac2 "middle";
     Acquire demo_mac3 "right"] initial_state.

(** * More vocabulary: the pool in use *)

(** The notification the callback gets, if there is a callback. *)
Definition progress_events (progress_callback : option callback)
    (mac status : string) (final : bool) : list event :=
  match progress_callback with
  | Some _ => [EvProgress mac status final]
  | None => []
  end.

(** The constructor call of a retry attempt: a session that does not
    reconnect by itself. *)
Definition is_fresh_open (ev : event) : bool :=
  match ev with
  | EvNewSession s => negb (auto_reconnect s)
  | _ => false
  end.

(** Any constructor call or [_connect]. *)
Definition is_open_or_connect (ev : event) : bool :=
  match ev with
  | EvNewSession _ | EvConnect _ => true
  | _ => false
  end.

(** The entry that a first, answered acquisition of [demo_mac] leaves in
    the pool, and its session. *)
Definition demo_session : BleDisplaySession :=
  held_session (PersistentSession.init demo_mac_upper "left").

Definition demo_link : PersistentSession.t :=
  {| PersistentSession.mac := demo_mac_upper;
     PersistentSession.name := "left";
     PersistentSession.log_notifications := false;
     PersistentSession.session := Some demo_session;
     PersistentSession.connected := true |}.

(** [send_png] raises on a held session (one that reconnects by itself)
    and is answered on a fresh one. *)
Definition held_link_dropped_world : world :=
  fun h => match h with
           | EvSendPng s _ _ :: _ =>
               if auto_reconnect s
               then Raise (OtherException "Not connected") else Ok
           | _ => Ok
           end.

(** The pool of [full_house] after a send to [demo_mac] on which the held
    session raised. *)
Definition house_with_dropped_link : state :=
  serve held_link_dropped_world full_house
    (SendOne PanelController.default demo_mac demo_png (Some "left") None).

(** The constructor call of [PersistentSession.connect]: a session that
    reconnects by itself. *)
Definition is_held_open (ev : event) : bool :=
  match ev with
  | EvNewSession s => auto_reconnect s
  | _ => false
  end.

(** How many of the events pass the test. *)
Definition count_events (test : event -> bool) (evs : list event) : nat :=
  length (filter test evs).

(** What an acquisition of [mac] makes of the keys of the pool: a known
    address and a full pool change nothing, otherwise the upper-cased
    address is added at the end. *)
Definition offer (keys : list string) (mac : string) : list string :=
  if existsb (String.eqb (upper mac)) keys then keys
  else if (capacity <=? length keys)%nat then keys
       else keys ++ [upper mac].

(** * More vocabulary: what stands behind an outcome *)









(** * Scanning *)

(** A device as [BleakScanner.discover] reports it, as far as the scan
    reads it: [device.address] and [device.name], which may be [None]. *)
Module BLEDevice.

Record t := mk {
  address : string;
  name : option string
}.

End BLEDevice.

(** [PANEL_NAME_PREFIX] (line 42) *)
Definition PANEL_NAME_PREFIX : string := "LED_BLE_".

(** What is outside a scan: [BleakScanner.discover(timeout)], which returns
    the devices or raises, and the progress callback, whose answer may
    depend on the calls made to it so far (newest first, the call being
    answered at the head). *)
Record scanner := mkScanner {
  discover : Q -> result (list BLEDevice.t);
  found_callback : list (string * string) -> response
}.

(** The [for device in devices] loop of [scan_for_panels] (lines 69-75).
    [discovered] is the list being appended to, [calls] the calls made to
    the callback so far, newest first. *)
Fixpoint scan_devices (name_prefix : string)
    (progress_callback : option callback) (radio : scanner)
    (devices : list BLEDevice.t) (discovered calls : list (string * string))
  : result (list (string * string)) * list (string * string) :=
  match devices with
  | [] => (Val discovered, calls)
  | device :: rest =>
      let name := opt_str_or (BLEDevice.name device) "" in
      if String.prefix name_prefix name then
        let found := (BLEDevice.address device, name) in
        match progress_callback with
        | Some _ =>
            match found_callback radio (found :: calls) with
            | Ok =>
                scan_devices name_prefix progress_callback radio rest
                  (discovered ++ [found]) (found :: calls)
            | Raise e => (Exc e, found :: calls)
            end
        | None =>
            scan_devices name_prefix progress_callback radio rest
              (discovered ++ [found]) calls
        end
      else
        scan_devices name_prefix progress_callback radio rest discovered calls
  end.

(** [async def scan_for_panels(timeout = 10.0, name_prefix =
    PANEL_NAME_PREFIX, progress_callback = None)] (lines 45-86): the result
    and the calls made to the callback.  The [except] clause logs and
    raises the exception again. *)
Definition scan_for_panels (timeout : Q) (name_prefix : string)
    (progress_callback : option callback) (radio : scanner)
  : result (list (string * string)) * list (string * string) :=
  match discover radio timeout with
  | Val devices =>
      scan_devices name_prefix progress_callback radio devices [] []
  | Exc e => (Exc e, [])
  end.

(** * Configuration: [config.py] *)

(** The result of a function that is modelled on a part of its inputs
    only: [Within a] when the code returns [a], [Outside] for an input about
    which the model says nothing. *)
Inductive modelled (A : Type) : Type :=
| Within (a : A)
| Outside.

Arguments Within {A} a.
Arguments Outside {A}.

(** [str.isascii]: every character is below 128.  On such a string
    [str.upper] and [str.lower] change the letters a-z and A-Z and nothing
    else, and keep the length; on other strings they do more (one
    character can become two), which is not modelled. *)
Definition isascii (s : string) : bool :=
  forallb (fun c => (nat_of_ascii c <? 128)%nat) (list_ascii_of_string s).

(** [str.lower] of one character of an ASCII string. *)
Definition lower_ascii (c : ascii) : ascii :=
  let n := nat_of_ascii c in
  if (65 <=? n)%nat && (n <=? 90)%nat then ascii_of_nat (n + 32) else c.

(** [s.lower()] for an ASCII string [s]. *)
Fixpoint lower (s : string) : string :=
  match s with
  | EmptyString => EmptyString
  | String c rest => String (lower_ascii c) (lower rest)
  end.

(** [s[-n:]] *)
Definition last_chars (n : nat) (s : string) : string :=
  substring (String.length s - n) n s.

(** [del d[k]] for a key that is there; a dictionary holds a key at most
    once. *)
Fixpoint dict_del {V} (k : string) (d : dict V) : dict V :=
  match d with
  | [] => []
  | (k', v) :: rest =>
      if String.eqb k k' then dict_del k rest else (k', v) :: dict_del k rest
  end.

(** [@dataclass class Panel] (lines 21-33) *)
Module Panel.

Record t := mk {
  mac : string;
  name : string;
  enabled : bool;
  order : Z;
  grid_position : option string;
  notes : string
}.

(** The generated [__init__] followed by [__post_init__], which upper-cases
    the address. *)
Definition init (mac name : string) (enabled : bool) (order : Z)
    (grid_position : option string) (notes : string) : t :=
  {| mac := upper mac; name := name; enabled := enabled; order := order;
     grid_position := grid_position; notes := notes |}.

(** [self.name = n] *)
Definition set_name (self : t) (n : string) : t :=
  {| mac := mac self; name := n; enabled := enabled self;
     order := order self; grid_position := grid_position self;
     notes := notes self |}.

(** [self.order = i] *)
Definition set_order (self : t) (i : Z) : t :=
  {| mac := mac self; name := name self; enabled := enabled self;
     order := i; grid_position := grid_position self;
     notes := notes self |}.

End Panel.

(** [@dataclass class GridConfig] (lines 36-42): an address per corner. *)
Module GridConfig.

Record t := mk {
  linksboven : option string;
  rechtsboven : option string;
  linksonder : option string;
  rechtsonder : option string
}.

Definition default : t :=
  {| linksboven := None; rechtsboven := None; linksonder := None;
     rechtsonder := None |}.

End GridConfig.

(** [@dataclass class PanelConfig] (lines 45-60) *)
Module PanelConfig.

Record t := mk {
  panels : dict Panel.t;
  grid : GridConfig.t;
  scan_timeout : Q;
  send_timeout : Q;
  send_delay : Q;
  retry_count : Z;
  panel_delay : Q;
  server_host : string;
  server_port : Z
}.

(** [PanelConfig()] *)
Definition default : t :=
  {| panels := []; grid := GridConfig.default; scan_timeout := 10;
     send_timeout := 30; send_delay := 15 # 100; retry_count := 3;
     panel_delay := 15 # 10; server_host := "0.0.0.0";
     server_port := 8000 |}.

(** [self.panels = d] *)
Definition set_panels (self : t) (d : dict Panel.t) : t :=
  {| panels := d; grid := grid self; scan_timeout := scan_timeout self;
     send_timeout := send_timeout self; send_delay := send_delay self;
     retry_count := retry_count self; panel_delay := panel_delay self;
     server_host := server_host self; server_port := server_port self |}.

(** [self.panels = d; self.grid = g] *)
Definition set_panels_grid (self : t) (d : dict Panel.t) (g : GridConfig.t)
  : t :=
  {| panels := d; grid := g; scan_timeout := scan_timeout self;
     send_timeout := send_timeout self; send_delay := send_delay self;
     retry_count := retry_count self; panel_delay := panel_delay self;
     server_host := server_host self; server_port := server_port self |}.

End PanelConfig.

(** The loop of [get_panel_by_name] over [self.panels.values()].  Both
    sides of the comparison are lower-cased in every turn; a turn in which
    one of them is not ASCII is outside the model. *)
Fixpoint find_by_name (name : string) (values : list Panel.t)
  : modelled (option Panel.t) :=
  match values with
  | [] => Within None
  | panel :: rest =>
      if isascii (Panel.name panel) && isascii name then
        if String.eqb (lower (Panel.name panel)) (lower name)
        then Within (Some panel)
        else find_by_name name rest
      else Outside
  end.

(** [def get_panel_by_name(self, name)] (lines 62-67) *)
Definition get_panel_by_name (self : PanelConfig.t) (name : string)
  : modelled (option Panel.t) :=
  find_by_name name (map snd (PanelConfig.panels self)).

(** [def get_panel_by_mac(self, mac)] (lines 69-71) *)
Definition get_panel_by_mac (self : PanelConfig.t) (mac : string)
  : option Panel.t :=
  dict_get (upper mac) (PanelConfig.panels self).

(** [sorted(..., key=lambda p: p.order)]: the built-in sort is stable, so
    it is the insertion sort that puts a panel in front of the first one
    whose key is not smaller. *)
Fixpoint insert_by_order (p : Panel.t) (sorted : list Panel.t)
  : list Panel.t :=
  match sorted with
  | [] => [p]
  | q :: rest =>
      if (Panel.order p <=? Panel.order q)%Z then p :: q :: rest
      else q :: insert_by_order p rest
  end.

Definition sorted_by_order (l : list Panel.t) : list Panel.t :=
  fold_right insert_by_order [] l.

(** [def get_enabled_panels(self)] (lines 73-76) *)
Definition get_enabled_panels (self : PanelConfig.t) : list Panel.t :=
  let enabled := filter Panel.enabled (map snd (PanelConfig.panels self)) in
  sorted_by_order enabled.

(** The dictionary [grid_macs] of [get_grid_panels] (lines 81-86). *)
Definition grid_macs (self : PanelConfig.t) : dict (option string) :=
  let g := PanelConfig.grid self in
  [("linksboven", GridConfig.linksboven g);
   ("rechtsboven", GridConfig.rechtsboven g);
   ("linksonder", GridConfig.linksonder g);
   ("rechtsonder", GridConfig.rechtsonder g)].

(** The loop of [get_grid_panels] (lines 87-89); [if mac and mac in
    self.panels]: [None] and the empty string are falsy. *)
Fixpoint collect_grid (panels : dict Panel.t) (todo : dict (option string))
    (result : dict Panel.t) : dict Panel.t :=
  match todo with
  | [] => result
  | (position, slot) :: rest =>
      match slot with
      | Some mac =>
          if String.eqb mac "" then collect_grid panels rest result
          else
            match dict_get mac panels with
            | Some panel =>
                collect_grid panels rest (dict_set position panel result)
            | None => collect_grid panels rest result
            end
      | None => collect_grid panels rest result
      end
  end.

(** [def get_grid_panels(self)] (lines 78-90) *)
Definition get_grid_panels (self : PanelConfig.t) : dict Panel.t :=
  collect_grid (PanelConfig.panels self) (grid_macs self) [].

(** [def add_panel(self, mac, name, enabled = True)] (lines 92-97): the
    configuration as the call leaves it and the panel returned. *)
Definition add_panel (self : PanelConfig.t) (mac name : string)
    (enabled : bool) : PanelConfig.t * Panel.t :=
  let mac := upper mac in
  let panel := Panel.init mac name enabled 99 None "" in
  (PanelConfig.set_panels self (dict_set mac panel (PanelConfig.panels self)),
   panel).

(** [if self.grid.<corner> == mac: self.grid.<corner> = None] *)
Definition clear_slot (mac : string) (slot : option string) : option string :=
  match slot with
  | Some m => if String.eqb m mac then None else slot
  | None => None
  end.

(** [def remove_panel(self, mac)] (lines 99-114) *)
Definition remove_panel (self : PanelConfig.t) (mac : string)
  : PanelConfig.t * bool :=
  let mac := upper mac in
  match dict_get mac (PanelConfig.panels self) with
  | Some _ =>
      let g := PanelConfig.grid self in
      (PanelConfig.set_panels_grid self
         (dict_del mac (PanelConfig.panels self))
         {| GridConfig.linksboven := clear_slot mac (GridConfig.linksboven g);
            GridConfig.rechtsboven :=
              clear_slot mac (GridConfig.rechtsboven g);
            GridConfig.linksonder := clear_slot mac (GridConfig.linksonder g);
            GridConfig.rechtsonder :=
              clear_slot mac (GridConfig.rechtsonder g) |},
       true)
  | None => (self, false)
  end.

(** ** The configuration file as data *)

(** What [json.load] returns and [json.dump] takes, as far as the
    configuration uses it. *)
#[warnings="-register-all"] Inductive json :=
| JNull
| JBool (b : bool)
| JInt (z : Z)
| JFloat (q : Q)
| JStr (s : string)
| JObj (members : list (string * json)).

Definition json_of_optional (o : option string) : json :=
  match o with
  | Some s => JStr s
  | None => JNull
  end.

(** The inner dictionary that [save_config] writes for one panel (lines
    188-195). *)
Definition data_of_panel (panel : Panel.t) : json :=
  JObj [("mac", JStr (Panel.mac panel));
        ("name", JStr (Panel.name panel));
        ("enabled", JBool (Panel.enabled panel));
        ("order", JInt (Panel.order panel));
        ("grid_position", json_of_optional (Panel.grid_position panel));
        ("notes", JStr (Panel.notes panel))].

(** The dictionary [data] of [save_config] (lines 186-213). *)
Definition data_of_config (config : PanelConfig.t) : json :=
  let g := PanelConfig.grid config in
  JObj
    [("panels",
      JObj (map (fun kv => (fst kv, data_of_panel (snd kv)))
              (PanelConfig.panels config)));
     ("grid",
      JObj [("linksboven", json_of_optional (GridConfig.linksboven g));
            ("rechtsboven", json_of_optional (GridConfig.rechtsboven g));
            ("linksonder", json_of_optional (GridConfig.linksonder g));
            ("rechtsonder", json_of_optional (GridConfig.rechtsonder g))]);
     ("settings",
      JObj [("scan_timeout", JFloat (PanelConfig.scan_timeout config));
            ("send_timeout", JFloat (PanelConfig.send_timeout config));
            ("send_delay", JFloat (PanelConfig.send_delay config));
            ("retry_count", JInt (PanelConfig.retry_count config));
            ("panel_delay", JFloat (PanelConfig.panel_delay config));
            ("server_host", JStr (PanelConfig.server_host config));
            ("server_port", JInt (PanelConfig.server_port config))])].

(** Reading a member with a default, [o.get(key, default)].  The result is
    [None] when the file holds a value of another type than the dataclass
    declares for the field: what Python does with such a value is outside
    this model. *)
Definition get_object (o : dict json) (key : string) : option (dict json) :=
  match dict_get key o with
  | None => Some []
  | Some (JObj members) => Some members
  | Some _ => None
  end.

Definition get_string (o : dict json) (key default : string)
  : option string :=
  match dict_get key o with
  | None => Some default
  | Some (JStr s) => Some s
  | Some _ => None
  end.

Definition get_optional_string (o : dict json) (key : string)
  : option (option string) :=
  match dict_get key o with
  | None | Some JNull => Some None
  | Some (JStr s) => Some (Some s)
  | Some _ => None
  end.

Definition get_bool (o : dict json) (key : string) (default : bool)
  : option bool :=
  match dict_get key o with
  | None => Some default
  | Some (JBool b) => Some b
  | Some _ => None
  end.

Definition get_int (o : dict json) (key : string) (default : Z) : option Z :=
  match dict_get key o with
  | None => Some default
  | Some (JInt z) => Some z
  | Some _ => None
  end.

Definition get_number (o : dict json) (key : string) (default : Q)
  : option Q :=
  match dict_get key o with
  | None => Some default
  | Some (JFloat q) => Some q
  | Some (JInt z) => Some (inject_Z z)
  | Some _ => None
  end.

Definition and_then {A B} (o : option A) (k : A -> option B) : option B :=
  match o with
  | Some a => k a
  | None => None
  end.

(** [Panel(mac=info.get("mac", mac), ...)] of [load_config] (lines
    139-146); [mac] is the key as the file spells it. *)
Definition panel_of_data (mac : string) (info : json) : option Panel.t :=
  match info with
  | JObj o =>
      and_then (get_string o "mac" mac) (fun m =>
      and_then (get_string o "name" ("Panel " ++ last_chars 5 mac)) (fun n =>
      and_then (get_bool o "enabled" true) (fun e =>
      and_then (get_int o "order" 99) (fun i =>
      and_then (get_optional_string o "grid_position") (fun g =>
      and_then (get_string o "notes" "") (fun t =>
      Some (Panel.init m n e i g t)))))))
  | _ => None
  end.

(** The loop of [load_config] over the members of ["panels"] (lines
    138-146). *)
Fixpoint load_panels (members : dict json) (panels : dict Panel.t)
  : option (dict Panel.t) :=
  match members with
  | [] => Some panels
  | (mac, info) :: rest =>
      and_then (panel_of_data mac info) (fun panel =>
      load_panels rest (dict_set (upper mac) panel panels))
  end.

(** The body of the [try] of [load_config] from the parsed file on (lines
    137-165), started from [PanelConfig()]. *)
Definition config_of_data (data : json) : option PanelConfig.t :=
  let config := PanelConfig.default in
  match data with
  | JObj o =>
      and_then (get_object o "panels") (fun members =>
      and_then (load_panels members (PanelConfig.panels config)) (fun ps =>
      and_then (get_object o "grid") (fun grid_data =>
      and_then (get_optional_string grid_data "linksboven") (fun lb =>
      and_then (get_optional_string grid_data "rechtsboven") (fun rb =>
      and_then (get_optional_string grid_data "linksonder") (fun lo =>
      and_then (get_optional_string grid_data "rechtsonder") (fun ro =>
      and_then (get_object o "settings") (fun settings =>
      and_then (get_number settings "scan_timeout"
                  (PanelConfig.scan_timeout config)) (fun t1 =>
      and_then (get_number settings "send_timeout"
                  (PanelConfig.send_timeout config)) (fun t2 =>
      and_then (get_number settings "send_delay"
                  (PanelConfig.send_delay config)) (fun d1 =>
      and_then (get_int settings "retry_count"
                  (PanelConfig.retry_count config)) (fun rc =>
      and_then (get_number settings "panel_delay"
                  (PanelConfig.panel_delay config)) (fun d2 =>
      and_then (get_string settings "server_host"
                  (PanelConfig.server_host config)) (fun host =>
      and_then (get_int settings "server_port"
                  (PanelConfig.server_port config)) (fun port =>
      Some {| PanelConfig.panels := ps;
              PanelConfig.grid :=
                {| GridConfig.linksboven := lb;
                   GridConfig.rechtsboven := rb;
                   GridConfig.linksonder := lo;
                   GridConfig.rechtsonder := ro |};
              PanelConfig.scan_timeout := t1;
              PanelConfig.send_timeout := t2;
              PanelConfig.send_delay := d1;
              PanelConfig.retry_count := rc;
              PanelConfig.panel_delay := d2;
              PanelConfig.server_host := host;
              PanelConfig.server_port := port |})))))))))))))))
  | _ => None
  end.

(** ** The callers that merge a scan into the configuration *)

(** [for mac, name in discovered: if mac not in config.panels:
    config.add_panel(mac, name); added += 1] (cli/scan.py lines 70-74,
    web/server.py lines 375-379). *)
Fixpoint merge_discovered (config : PanelConfig.t)
    (discovered : list (string * string)) (added : Z) : PanelConfig.t * Z :=
  match discovered with
  | [] => (config, added)
  | (mac, name) :: rest =>
      match dict_get mac (PanelConfig.panels config) with
      | None =>
          merge_discovered (fst (add_panel config mac name true)) rest
            (added + 1)
      | Some _ => merge_discovered config rest added
      end
  end.

(** The "save panel" step of the interactive setup (cli/setup.py lines
    105-110).  [None] is the [KeyError] of [config.panels[mac]]. *)
Definition setup_save_panel (config : PanelConfig.t) (mac name : string)
    (i : Z) : option PanelConfig.t :=
  let config1 :=
    match dict_get mac (PanelConfig.panels config) with
    | Some p =>
        PanelConfig.set_panels config
          (dict_set mac (Panel.set_name p name) (PanelConfig.panels config))
    | None => fst (add_panel config mac name true)
    end in
  match dict_get mac (PanelConfig.panels config1) with
  | Some p =>
      Some (PanelConfig.set_panels config1
              (dict_set mac (Panel.set_order p i)
                 (PanelConfig.panels config1)))
  | None => None
  end.

(** ** Vocabulary and data for the scan and the configuration *)

(** The entries a scan is to report: the devices whose name, the empty
    string when the device has none, starts with the prefix. *)
Definition matching_devices (name_prefix : string)
    (devices : list BLEDevice.t) : list (string * string) :=
  map (fun d => (BLEDevice.address d, opt_str_or (BLEDevice.name d) ""))
    (filter (fun d => String.prefix name_prefix
                        (opt_str_or (BLEDevice.name d) "")) devices).

Definition demo_devices : list BLEDevice.t :=
  [ {| BLEDevice.address := "aa:bb:cc:dd:ee:01";
       BLEDevice.name := Some "LED_BLE_1A2B" |};
    {| BLEDevice.address := "10:20:30:40:50:60"; BLEDevice.name := None |};
    {| BLEDevice.address := "AA:BB:CC:DD:EE:02";
       BLEDevice.name := Some "LED_BLE_3C4D" |};
    {| BLEDevice.address := "0A:0B:0C:0D:0E:0F";
       BLEDevice.name := Some "Headphones" |} ].

(** The scan finds [demo_devices]; the callback never raises. *)
Definition demo_scanner : scanner :=
  {| discover := fun _ => Val demo_devices; found_callback := fun _ => Ok |}.

(** The scan finds [demo_devices]; the callback raises when it is called
    the second time. *)
Definition fussy_scanner : scanner :=
  {| discover := fun _ => Val demo_devices;
     found_callback := fun calls =>
       match calls with
       | [_; _] => Raise (OtherException "enough")
       | _ => Ok
       end |}.

(** The adapter is switched off. *)
Definition blind_scanner : scanner :=
  {| discover := fun _ => Exc (OtherException "Bluetooth is off");
     found_callback := fun _ => Ok |}.

(** The panel a corner of the grid stands for: the one configured under
    the address in the slot, spelled as it is there; none when the slot is
    empty or holds the empty string. *)
Definition slot_panel (panels : dict Panel.t) (slot : option string)
  : option Panel.t :=
  match slot with
  | Some mac => if String.eqb mac "" then None else dict_get mac panels
  | None => None
  end.

(** The panels are in ascending [order]. *)
Definition ascending (l : list Panel.t) : Prop :=
  StronglySorted (fun p q => (Panel.order p <= Panel.order q)%Z) l.

(** The panels of [l] whose [order] is [k], in the order of [l]. *)
Definition with_order (k : Z) (l : list Panel.t) : list Panel.t :=
  filter (fun p => (Panel.order p =? k)%Z) l.

(** Two panels and a grid that names one of them. *)
Definition demo_panel (mac name : string) (order : Z) (enabled : bool)
  : Panel.t :=
  Panel.init mac name enabled order None "".

Definition demo_config : PanelConfig.t :=
  PanelConfig.set_panels_grid PanelConfig.default
    [("AA:BB:CC:DD:EE:01", demo_panel "AA:BB:CC:DD:EE:01" "left" 2 true);
     ("AA:BB:CC:DD:EE:02", demo_panel "AA:BB:CC:DD:EE:02" "middle" 1 false);
     ("AA:BB:CC:DD:EE:03", demo_panel "AA:BB:CC:DD:EE:03" "right" 1 true)]
    {| GridConfig.linksboven := Some "AA:BB:CC:DD:EE:01";
       GridConfig.rechtsboven := Some "aa:bb:cc:dd:ee:03";
       GridConfig.linksonder := None;
       GridConfig.rechtsonder := Some "AA:BB:CC:DD:EE:02" |}.

(** Every key of the configuration is an upper-cased address. *)
Definition config_keys_upper (config : PanelConfig.t) : Prop :=
  Forall (fun key => upper key = key) (map fst (PanelConfig.panels config)).

(** The keys are upper-cased and pairwise distinct, and every panel's
    address is upper-cased. *)
Definition config_normalised (config : PanelConfig.t) : Prop :=
  config_keys_upper config
  /\ NoDup (map fst (PanelConfig.panels config))
  /\ Forall (fun kv => upper (Panel.mac (snd kv)) = Panel.mac (snd kv))
       (PanelConfig.panels config).

(** * The callers that send *)

(** [send_order] (web/server.py line 681; the same list in cli/send_grid.py
    line 159, cli/send_text.py line 115 and cli/send_image.py line 107). *)
Definition send_order : list string :=
  ["rechtsonder"; "linksonder"; "rechtsboven"; "linksboven"].

(** The loop over [send_order] of [send_to_grid] (web/server.py lines
    686-701).  [parts position] stands for [to_png_bytes(parts[position])],
    the encoded quarter of the prepared image; [results] holds (position,
    success, message). *)
Fixpoint send_positions (controller : PanelController.t)
    (grid_panels : dict Panel.t) (parts : string -> bytes)
    (todo : list string) (results : list (string * bool * string))
    (success_count : Z) : M (list (string * bool * string) * Z) :=
  match todo with
  | [] => ret (results, success_count)
  | position :: rest =>
      match dict_get position grid_panels with
      | None =>
          send_positions controller grid_panels parts rest
            (results ++ [(position, false, "not configured")]) success_count
      | Some panel =>
          r <- send_to_panel controller (Panel.mac panel) (parts position)
                 (Some position) None ;;
          send_positions controller grid_panels parts rest
            (results ++ [(position, fst r, snd r)])
            (if fst r then success_count + 1 else success_count)%Z
      end
  end.

(** [async def send_to_grid(...)] (web/server.py lines 636-705) for a
    request whose image has been prepared and split: the guard on the grid
    and the sends.  [None] is the [HTTPException] with status 400 of line
    652; otherwise the fields [success_count] and [results] of the
    answer. *)
Definition send_to_grid (config : PanelConfig.t) (parts : string -> bytes)
  : M (option (Z * list (string * bool * string))) :=
  let grid_panels := get_grid_panels config in
  if (length grid_panels <? 4)%nat then ret None
  else
    r <- send_positions PanelController.default grid_panels parts send_order
           [] 0 ;;
    ret (Some (snd r, fst r)).

(** [async def send_to_all(...)] (web/server.py lines 569-633) for a
    request whose image has been prepared: the guard on the enabled panels,
    the fan-out and the count.  [None] is the [HTTPException] with status
    400 of line 584; otherwise the fields [success_count], [total] and
    [results] of the answer. *)
Definition send_to_all (config : PanelConfig.t) (png_bytes : bytes)
  : M (option (Z * Z * list (string * bool * string))) :=
  let enabled := get_enabled_panels config in
  match enabled with
  | [] => ret None
  | _ :: _ =>
      let macs := map (fun p => (Panel.mac p, Panel.name p)) enabled in
      results <- send_same_to_all PanelController.default macs png_bytes
                   None ;;
      let success_count :=
        fold_left (fun n (r : string * bool * string) =>
                     if snd (fst r) then n + 1 else n)%Z results
          0%Z in
      ret (Some (success_count, Z.of_nat (length enabled), results))
  end.

(** ** Vocabulary for the callers *)

(** The targets of a grid send: for each position of [todo] that the grid
    resolves, the panel's address, the position as its name, and its
    quarter of the image. *)
Definition grid_targets (grid_panels : dict Panel.t)
    (parts : string -> bytes) (todo : list string)
  : list (string * string * bytes) :=
  flat_map (fun position =>
              match dict_get position grid_panels with
              | Some panel => [(Panel.mac panel, position, parts position)]
              | None => []
              end) todo.

(** How many of the outcomes are positive. *)
Definition count_successes (outcomes : list (string * bool * string)) : Z :=
  fold_right (fun (o : string * bool * string) n =>
                if snd (fst o) then n + 1 else n)%Z 0%Z outcomes.

(** The outcomes with the position in the place of the address. *)
Definition by_position (positions : list string)
    (outcomes : list (string * bool * string))
  : list (string * bool * string) :=
  map (fun po => (fst po, snd (fst (snd po)), snd (snd po)))
    (combine positions outcomes).

(** A grid of four configured panels. *)
Definition demo_grid_config : PanelConfig.t :=
  PanelConfig.set_panels_grid PanelConfig.default
    [("AA:BB:CC:DD:EE:01", demo_panel "AA:BB:CC:DD:EE:01" "one" 1 true);
     ("AA:BB:CC:DD:EE:02", demo_panel "AA:BB:CC:DD:EE:02" "two" 2 true);
     ("AA:BB:CC:DD:EE:03", demo_panel "AA:BB:CC:DD:EE:03" "three" 3 false);
     ("AA:BB:CC:DD:EE:04", demo_panel "AA:BB:CC:DD:EE:04" "four" 4 true)]
    {| GridConfig.linksboven := Some "AA:BB:CC:DD:EE:01";
       GridConfig.rechtsboven := Some "AA:BB:CC:DD:EE:02";
       GridConfig.linksonder := Some "AA:BB:CC:DD:EE:03";
       GridConfig.rechtsonder := Some "AA:BB:CC:DD:EE:04" |}.

(** Every quarter is the same picture. *)
Definition demo_parts : string -> bytes := fun _ => demo_png.

(** * Graphics: [graphics.py] *)

(** ** Constants (lines 20-21 and 105-107) and the font table (lines
    51-103) *)

Definition PANEL_SIZE : Z := 32.
Definition GRID_SIZE : Z := 64.
Definition CHAR_WIDTH : Z := 5.
Definition CHAR_HEIGHT : Z := 7.
Definition CHAR_SPACING : Z := 1.

Definition DOT_MATRIX_FONT : dict (list string) :=
  [
   ("A", [" ### "; "#   #"; "#   #"; "#####"; "#   #"; "#   #"; "#   #"]);
   ("B", ["#### "; "#   #"; "#   #"; "#### "; "#   #"; "#   #"; "#### "]);
   ("C", [" ### "; "#   #"; "#    "; "#    "; "#    "; "#   #"; " ### "]);
   ("D", ["#### "; "#   #"; "#   #"; "#   #"; "#   #"; "#   #"; "#### "]);
   ("E", ["#####"; "#    "; "#    "; "#### "; "#    "; "#    "; "#####"]);
   ("F", ["#####"; "#    "; "#    "; "#### "; "#    "; "#    "; "#    "]);
   ("G", [" ### "; "#   #"; "#    "; "# ###"; "#   #"; "#   #"; " ### "]);
   ("H", ["#   #"; "#   #"; "#   #"; "#####"; "#   #"; "#   #"; "#   #"]);
   ("I", ["#####"; "  #  "; "  #  "; "  #  "; "  #  "; "  #  "; "#####"]);
   ("J", ["#####"; "    #"; "    #"; "    #"; "    #"; "#   #"; " ### "]);
   ("K", ["#   #"; "#  # "; "# #  "; "##   "; "# #  "; "#  # "; "#   #"]);
   ("L", ["#    "; "#    "; "#    "; "#    "; "#    "; "#    "; "#####"]);
   ("M", ["#   #"; "## ##"; "# # #"; "#   #"; "#   #"; "#   #"; "#   #"]);
   ("N", ["#   #"; "##  #"; "# # #"; "#  ##"; "#   #"; "#   #"; "#   #"]);
   ("O", [" ### "; "#   #"; "#   #"; "#   #"; "#   #"; "#   #"; " ### "]);
   ("P", ["#### "; "#   #"; "#   #"; "#### "; "#    "; "#    "; "#    "]);
   ("Q", [" ### "; "#   #"; "#   #"; "#   #"; "# # #"; "#  # "; " ## #"]);
   ("R", ["#### "; "#   #"; "#   #"; "#### "; "# #  "; "#  # "; "#   #"]);
   ("S", [" ####"; "#    "; "#    "; " ### "; "    #"; "    #"; "#### "]);
   ("T", ["#####"; "  #  "; "  #  "; "  #  "; "  #  "; "  #  "; "  #  "]);
   ("U", ["#   #"; "#   #"; "#   #"; "#   #"; "#   #"; "#   #"; " ### "]);
   ("V", ["#   #"; "#   #"; "#   #"; "#   #"; "#   #"; " # # "; "  #  "]);
   ("W", ["#   #"; "#   #"; "#   #"; "#   #"; "# # #"; "## ##"; "#   #"]);
   ("X", ["#   #"; "#   #"; " # # "; "  #  "; " # # "; "#   #"; "#   #"]);
   ("Y", ["#   #"; "#   #"; " # # "; "  #  "; "  #  "; "  #  "; "  #  "]);
   ("Z", ["#####"; "    #"; "   # "; "  #  "; " #   "; "#    "; "#####"]);
   ("0", [" ### "; "#   #"; "#  ##"; "# # #"; "##  #"; "#   #"; " ### "]);
   ("1", ["  #  "; " ##  "; "  #  "; "  #  "; "  #  "; "  #  "; "#####"]);
   ("2", [" ### "; "#   #"; "    #"; "  ## "; " #   "; "#    "; "#####"]);
   ("3", [" ### "; "#   #"; "    #"; "  ## "; "    #"; "#   #"; " ### "]);
   ("4", ["#   #"; "#   #"; "#   #"; "#####"; "    #"; "    #"; "    #"]);
   ("5", ["#####"; "#    "; "#### "; "    #"; "    #"; "#   #"; " ### "]);
   ("6", [" ### "; "#    "; "#    "; "#### "; "#   #"; "#   #"; " ### "]);
   ("7", ["#####"; "    #"; "   # "; "  #  "; "  #  "; "  #  "; "  #  "]);
   ("8", [" ### "; "#   #"; "#   #"; " ### "; "#   #"; "#   #"; " ### "]);
   ("9", [" ### "; "#   #"; "#   #"; " ####"; "    #"; "    #"; " ### "]);
   (" ", ["     "; "     "; "     "; "     "; "     "; "     "; "     "]);
   (".", ["     "; "     "; "     "; "     "; "     "; " ##  "; " ##  "]);
   (",", ["     "; "     "; "     "; "     "; "  #  "; "  #  "; " #   "]);
   ("!", ["  #  "; "  #  "; "  #  "; "  #  "; "  #  "; "     "; "  #  "]);
   ("?", [" ### "; "#   #"; "    #"; "  ## "; "  #  "; "     "; "  #  "]);
   (":", ["     "; "  #  "; "  #  "; "     "; "  #  "; "  #  "; "     "]);
   ("-", ["     "; "     "; "     "; "#####"; "     "; "     "; "     "]);
   ("+", ["     "; "  #  "; "  #  "; "#####"; "  #  "; "  #  "; "     "]);
   ("/", ["    #"; "   # "; "  #  "; "  #  "; " #   "; "#    "; "#    "]);
   (">", ["#    "; " #   "; "  #  "; "   # "; "  #  "; " #   "; "#    "]);
   ("<", ["    #"; "   # "; "  #  "; " #   "; "  #  "; "   # "; "    #"]);
   ("=", ["     "; "     "; "#####"; "     "; "#####"; "     "; "     "]);
   ("_", ["     "; "     "; "     "; "     "; "     "; "     "; "#####"]);
   ("(", ["  #  "; " #   "; "#    "; "#    "; "#    "; " #   "; "  #  "]);
   (")", ["  #  "; "   # "; "    #"; "    #"; "    #"; "   # "; "  #  "])
  ].

(** [char in DOT_MATRIX_FONT] and [DOT_MATRIX_FONT[char]] for a string of
    one character. *)
Definition glyph (char : ascii) : option (list string) :=
  dict_get (String char EmptyString) DOT_MATRIX_FONT.

(** ** Images *)

(** A colour as an image in mode RGB holds it: three channels of 0 to
    255 each.  [get_color] returns a tuple as it is given; a tuple with
    other numbers in it, which the library would clip or refuse, is not a
    colour here. *)
Definition rgb : Type := byte * byte * byte.

(** A [PIL.Image] in mode RGB: its size and the colour at each position.
    Only positions inside the size belong to the image. *)
Module Image.

Record t := mk {
  width : Z;
  height : Z;
  getpixel : Z -> Z -> rgb
}.

(** An image of one colour. *)
Definition blank (width height : Z) (color : rgb) : t :=
  {| width := width; height := height; getpixel := fun _ _ => color |}.

(** [Image.new('RGB', (width, height), color)]; [None] is the
    [ValueError] for a negative width or height.  That an image has to fit
    in memory is not modelled. *)
Definition new (width height : Z) (color : rgb) : option t :=
  if (0 <=? width)%Z && (0 <=? height)%Z
  then Some (blank width height color) else None.

Definition inside (img : t) (x y : Z) : bool :=
  (0 <=? x)%Z && (x <? width img)%Z && (0 <=? y)%Z && (y <? height img)%Z.

(** [img.putpixel((x, y), color)]; [None] for a position that is not
    inside the image, which the library does not accept as it is. *)
Definition putpixel (img : t) (x y : Z) (color : rgb) : option t :=
  if inside img x y then
    Some {| width := width img; height := height img;
            getpixel := fun u v =>
              if (u =? x)%Z && (v =? y)%Z then color else getpixel img u v |}
  else None.

(** [img.crop((left, top, right, bottom))] for a box inside the image. *)
Definition crop (img : t) (left top right bottom : Z) : t :=
  {| width := right - left; height := bottom - top;
     getpixel := fun u v => getpixel img (u + left) (v + top) |}.

End Image.

(** ** Dot-matrix text *)

(** [def get_text_width(text)] (lines 251-257).  The loop runs over
    [text.upper()], which is [upper text] for an ASCII text; any other
    text is outside the model. *)
Definition get_text_width (text : string) : modelled Z :=
  if isascii text then
    let width :=
      fold_left (fun width char =>
                   match glyph char with
                   | Some _ => width + (CHAR_WIDTH + CHAR_SPACING)
                   | None => width
                   end)%Z
        (list_ascii_of_string (upper text)) 0%Z in
    Within (Z.max 0 (width - CHAR_SPACING))
  else Outside.

(** [enumerate(l)] *)
Definition enumerate {A} (l : list A) : list (Z * A) :=
  combine (map Z.of_nat (seq 0 (length l))) l.

(** [for a in l: s = body(s, a)] where the body may fail. *)
Definition for_each {A S} (l : list A) (body : S -> A -> option S) (s : S)
  : option S :=
  fold_left (fun acc a => and_then acc (fun s' => body s' a)) l (Some s).

(** [def draw_dot_matrix_char(img, char, x, y, color, scale = 1)] (lines
    260-286): the image as the call leaves it and the width used; [None]
    when [putpixel] fails.  [char] is one character below 256: upper-cased,
    one above 127 is never a key of the font, as [upper_ascii] leaves
    it. *)
Definition draw_dot_matrix_char (img : Image.t) (char : ascii) (x y : Z)
    (color : rgb) (scale : Z) : option (Image.t * Z) :=
  let char := upper_ascii char in
  match glyph char with
  | None => Some (img, CHAR_WIDTH * scale + CHAR_SPACING * scale)%Z
  | Some pattern =>
      and_then
        (for_each (enumerate pattern)
           (fun img '(row_idx, row) =>
              for_each (enumerate (list_ascii_of_string row))
                (fun img '(col_idx, pixel) =>
                   if Ascii.eqb pixel "#" then
                     let px := (x + col_idx * scale)%Z in
                     let py := (y + row_idx * scale)%Z in
                     for_each (py_range 0 scale)
                       (fun img dx =>
                          for_each (py_range 0 scale)
                            (fun img dy =>
                               if ((0 <=? px + dx)
                                   && (px + dx <? Image.width img)
                                   && (0 <=? py + dy)
                                   && (py + dy <? Image.height img))%Z
                               then Image.putpixel img (px + dx) (py + dy)
                                      color
                               else Some img)
                            img)
                       img
                   else Some img)
                img)
           img)
        (fun img' =>
           Some (img', CHAR_WIDTH * scale + CHAR_SPACING * scale)%Z)
  end.

(** [def draw_dot_matrix_text(img, text, x = 0, y = 0, color, scale = 1,
    center = False)] (lines 289-310) for a colour given as a tuple, which
    [get_color] returns as it is.  [Within None] when [putpixel] fails;
    [Outside] with [get_text_width]. *)
Definition draw_dot_matrix_text (img : Image.t) (text : string) (x y : Z)
    (color : rgb) (scale : Z) (center : bool) : modelled (option Image.t) :=
  match get_text_width text with
  | Outside => Outside
  | Within columns =>
      let text_width := (columns * scale)%Z in
      let text_height := (CHAR_HEIGHT * scale)%Z in
      let x := if center then (x - text_width / 2)%Z else x in
      let y := if center then (y - text_height / 2)%Z else y in
      Within
        (and_then
           (for_each (list_ascii_of_string text)
              (fun '(img, cursor_x) char =>
                 and_then
                   (draw_dot_matrix_char img char cursor_x y color scale)
                   (fun '(img', used) => Some (img', cursor_x + used)%Z))
              (img, x))
           (fun '(img', _) => Some img'))
  end.

(** [range(start, stop, -1)] *)
Definition py_range_down (start stop : Z) : list Z :=
  map (fun i => (start - Z.of_nat i)%Z) (seq 0 (Z.to_nat (start - stop))).

(** The loop that looks for the scale (lines 330-335): the first candidate
    that fits, [scale] when the loop runs out. *)
Fixpoint first_fit (text : string) (width height : Z) (candidates : list Z)
    (scale : Z) : modelled Z :=
  match candidates with
  | [] => Within scale
  | s :: rest =>
      match get_text_width text with
      | Outside => Outside
      | Within columns =>
          let text_w := (columns * s)%Z in
          let text_h := (CHAR_HEIGHT * s)%Z in
          if ((text_w <=? width - 2) && (text_h <=? height - 2))%Z
          then Within s
          else first_fit text width height rest scale
      end
  end.

(** The scale that [create_dot_matrix_text] draws with (lines 328-335). *)
Definition chosen_scale (text : string) (width height : Z)
    (auto_scale : bool) : modelled Z :=
  if auto_scale then first_fit text width height (py_range_down 4 0) 1%Z
  else Within 1%Z.

(** [def create_dot_matrix_text(text, width, height, color, bg_color,
    auto_scale = True)] (lines 313-338) for colours given as tuples:
    [Within None] when [Image.new] or [putpixel] fails, [Outside] with
    [get_text_width], which is not called before the image is there. *)
Definition create_dot_matrix_text (text : string) (width height : Z)
    (color bg_color : rgb) (auto_scale : bool)
  : modelled (option Image.t) :=
  match Image.new width height bg_color with
  | None => Within None
  | Some img =>
      match chosen_scale text width height auto_scale with
      | Outside => Outside
      | Within scale =>
          draw_dot_matrix_text img text (width / 2) (height / 2) color scale
            true
      end
  end.

(** [def split_for_grid(img)] (lines 229-244): the four quarters by
    position.  [resize_for_grid] stands for the function of that name,
    which resamples and is not modelled. *)
Definition split_for_grid (resize_for_grid : Image.t -> Image.t)
    (img : Image.t) : dict Image.t :=
  let img :=
    if negb ((Image.width img =? GRID_SIZE)%Z
             && (Image.height img =? GRID_SIZE)%Z)
    then resize_for_grid img else img in
  [("linksboven", Image.crop img 0 0 32 32);
   ("rechtsboven", Image.crop img 32 0 64 32);
   ("linksonder", Image.crop img 0 32 32 64);
   ("rechtsonder", Image.crop img 32 32 64 64)].

(** [GRID_POSITIONS] (lines 39-44) *)
Definition GRID_POSITIONS : dict (Z * Z) :=
  [("linksboven", (0, 0)%Z); ("rechtsboven", (32, 0)%Z);
   ("linksonder", (0, 32)%Z); ("rechtsonder", (32, 32)%Z)].

(** ** Vocabulary for the graphics *)

(** The character has a glyph once it is upper-cased. *)
Definition known_char (char : ascii) : bool :=
  match glyph (upper_ascii char) with
  | Some _ => true
  | None => false
  end.

(** The text at scale [s] fits an image of the given size with a margin:
    the test of line 333. *)
Definition fits (text : string) (width height s : Z) : Prop :=
  exists columns,
    get_text_width text = Within columns
    /\ (columns * s <= width - 2 /\ CHAR_HEIGHT * s <= height - 2)%Z.

(** Between [before] and [after] nothing happened but pixels inside the
    image and inside the box being set to [color]. *)
Definition painted (color : rgb) (x0 y0 x1 y1 : Z) (before after : Image.t)
  : Prop :=
  Image.width after = Image.width before
  /\ Image.height after = Image.height before
  /\ forall u v,
       Image.getpixel after u v = Image.getpixel before u v
       \/ (Image.getpixel after u v = color
           /\ (x0 <= u < x1)%Z /\ (y0 <= v < y1)%Z
           /\ Image.inside before u v = true).

(** The glyph has a dot in column [col] of row [row]. *)
Definition dot (pattern : list string) (col row : Z) : bool :=
  (0 <=? col)%Z && (0 <=? row)%Z
  && match nth_error pattern (Z.to_nat row) with
     | Some r =>
         match String.get (Z.to_nat col) r with
         | Some pixel => Ascii.eqb pixel "#"
         | None => false
         end
     | None => false
     end.

(** The position (u, v) lies in the square of [scale] by [scale] pixels
    that stands for a dot of the glyph drawn at (x, y). *)
Definition lit (pattern : list string) (x y scale u v : Z) : bool :=
  (0 <? scale)%Z && (x <=? u)%Z && (y <=? v)%Z
  && dot pattern ((u - x) / scale) ((v - y) / scale).

(** The positions that the loops of [draw_dot_matrix_char] visit, in
    order. *)
Definition dot_positions (pattern : list string) (x y scale : Z)
  : list (Z * Z) :=
  flat_map (fun '(row_idx, row) =>
    flat_map (fun '(col_idx, pixel) =>
      if Ascii.eqb pixel "#" then
        flat_map (fun dx =>
          map (fun dy => (x + col_idx * scale + dx,
                          y + row_idx * scale + dy)%Z)
            (py_range 0 scale))
          (py_range 0 scale)
      else [])
      (enumerate (list_ascii_of_string row)))
    (enumerate pattern).

(** What the innermost loop does at one position. *)
Definition put_inside (color : rgb) (img : Image.t) (p : Z * Z)
  : option Image.t :=
  if ((0 <=? fst p) && (fst p <? Image.width img)
      && (0 <=? snd p) && (snd p <? Image.height img))%Z
  then Image.putpixel img (fst p) (snd p) color
  else Some img.

(** The position [p] is (u, v). *)
Definition at_position (u v : Z) (p : Z * Z) : bool :=
  ((fst p =? u) && (snd p =? v))%Z.

(** Some dot of some character of the text, drawn from (x, y) on, covers
    the position (u, v). *)
Fixpoint text_lit (chars : list ascii) (x y scale u v : Z) : bool :=
  match chars with
  | [] => false
  | char :: rest =>
      match glyph (upper_ascii char) with
      | Some pattern => lit pattern x y scale u v
      | None => false
      end
      || text_lit rest (x + 6 * scale) y scale u v
  end.

(** * Tactics *)

Ltac unfold_py :=
  unfold notify in *;
  unfold bind, ret, try_except, try_finally, catch_result, call, emit,
    store_session, get_pool, set_pool, log_event, add_events in *.

(** Case analysis on every answer of the world that the goal waits for. *)
Ltac ask_world :=
  repeat (simpl in *;
          match goal with
          | |- context [match ?W ?h with Ok => _ | Raise _ => _ end] =>
              let E := fresh "Answer" in destruct (W h) eqn:E
          end).

Ltac unfold_attempt :=
  unfold attempt_once, guarded_send, send_with_session, on_exception,
    cleanup in *.

(** Runs a retry attempt through every answer the world can give. *)
Ltac run_attempt :=
  unfold_attempt; unfold_py;
  repeat (simpl in *;
          match goal with
          | Hq : observer_never_raises ?W
            |- context [?W (EvProgress ?m ?s ?f :: ?p)] =>
              rewrite (Hq m s f p)
          | |- context [match ?W ?h with Ok => _ | Raise _ => _ end] =>
              let E := fresh "Answer" in destruct (W h) eqn:E
          | |- context [match ?e with
                        | AsyncioTimeoutError => _
                        | OtherException _ => _
                        end] =>
              destruct e
          | |- context [match ?cb with Some _ => _ | None => _ end] =>
              is_var cb; destruct cb
          | |- context [if ?b then _ else _] =>
              match type of b with
              | bool => let E := fresh "Cond" in destruct b eqn:E
              end
          end);
  simpl in *.

(** The events of [l] that are not yet in [t]. *)
Ltac events_since l t :=
  lazymatch l with
  | t => constr:(@nil event)
  | ?e :: ?l' => let p := events_since l' t in constr:(e :: p)
  end.

(** Splits the trace of the goal into the new events and the old trace. *)
Ltac name_new_events :=
  match goal with
  | |- exists evs, ?l = evs ++ ?t /\ _ =>
      let p := events_since l t in exists p; split; [reflexivity|]
  end.

Ltac name_events_before_pause :=
  match goal with
  | |- exists evs, ?e :: ?l = ?e :: evs ++ ?t /\ _ =>
      let p := events_since l t in exists p; split; [reflexivity|]
  end.

Ltac refute_membership H :=
  simpl in H;
  repeat (destruct H as [H|H]; try discriminate H);
  try contradiction.

(** Runs the pooled part of a send through every entry the pool can hold
    and every answer the world can give. *)
Ltac run_pool :=
  unfold send_over_persistent, get_persistent_session, connect_if_needed,
    PersistentSession_connect, PersistentSession_send_frame in *;
  unfold_py;
  repeat (simpl in *;
          match goal with
          | |- context [match ?W ?h with Ok => _ | Raise _ => _ end] =>
              let E := fresh "Answer" in destruct (W h) eqn:E
          | |- context [match ?cb with Some _ => _ | None => _ end] =>
              is_var cb; destruct cb
          | |- context [match dict_get ?k ?d with
                        | Some _ => _
                        | None => _
                        end] =>
              let E := fresh "Entry" in destruct (dict_get k d) eqn:E
          | |- context [match PersistentSession.session ?p with
                        | Some _ => _
                        | None => _
                        end] =>
              let E := fresh "Held" in
              destruct (PersistentSession.session p) eqn:E
          | |- context [if ?b then _ else _] =>
              match type of b with
              | bool => let E := fresh "Cond" in destruct b eqn:E
              end
          end);
  simpl in *.

(** The events of [l] that came after the newest [send_png]. *)
Ltac events_after_send l :=
  lazymatch l with
  | EvSendPng _ _ _ :: _ => constr:(@nil event)
  | ?e :: ?l' => let p := events_after_send l' in constr:(e :: p)
  end.

(** The events of [l] from before the newest [send_png]. *)
Ltac events_behind_send l :=
  lazymatch l with
  | EvSendPng _ _ _ :: ?l' => l'
  | _ :: ?l' => events_behind_send l'
  end.

(** The session of the newest [send_png] in [l]. *)
Ltac session_of_send l :=
  lazymatch l with
  | EvSendPng ?s _ _ :: _ => s
  | _ :: ?l' => session_of_send l'
  end.



(** * Lemmas *)

(** ** Dictionaries, strings, ranges *)

Lemma dict_set_absent {V} (k : string) (v : V) (d : dict V) :
  dict_get k d = None -> dict_set k v d = d ++ [(k, v)].
Proof.
  induction d as [|[k' v'] d IH]; simpl; intros H; [reflexivity|].
  destruct (String.eqb k k'); [discriminate|].
  now rewrite IH.
Qed.

Lemma dict_set_present_keys {V} (k : string) (v : V) (d : dict V) :
  dict_get k d <> None -> map fst (dict_set k v d) = map fst d.
Proof.
  induction d as [|[k' v'] d IH]; simpl; intros H; [congruence|].
  destruct (String.eqb k k'); simpl; [reflexivity|].
  now rewrite IH.
Qed.

Lemma dict_get_set_same {V} (k : string) (v : V) (d : dict V) :
  dict_get k (dict_set k v d) = Some v.
Proof.
  induction d as [|[k' v'] d IH]; simpl.
  - now rewrite String.eqb_refl.
  - destruct (String.eqb k k') eqn:E; simpl; rewrite E; [reflexivity|exact IH].
Qed.

Lemma dict_set_set_same {V} (k : string) (v v' : V) (d : dict V) :
  dict_set k v' (dict_set k v d) = dict_set k v' d.
Proof.
  induction d as [|[k0 v0] d IH]; simpl.
  - now rewrite String.eqb_refl.
  - destruct (String.eqb k k0) eqn:E; simpl; rewrite E; [reflexivity|].
    now rewrite IH.
Qed.

Lemma dict_set_app_same {V} (k : string) (v v' : V) (d : dict V) :
  dict_get k d = None -> dict_set k v' (d ++ [(k, v)]) = d ++ [(k, v')].
Proof.
  intros H. rewrite <- (dict_set_absent k v d H), dict_set_set_same.
  now apply dict_set_absent.
Qed.

Lemma upper_ascii_idempotent (c : ascii) :
  upper_ascii (upper_ascii c) = upper_ascii c.
Proof.
  unfold upper_ascii.
  destruct ((97 <=? nat_of_ascii c)%nat && (nat_of_ascii c <=? 122)%nat) eqn:E.
  - apply andb_true_iff in E. destruct E as [E1 E2].
    apply Nat.leb_le in E1. apply Nat.leb_le in E2.
    rewrite nat_ascii_embedding by lia.
    replace ((97 <=? nat_of_ascii c - 32)%nat) with false; [reflexivity|].
    symmetry. apply Nat.leb_gt. lia.
  - now rewrite E.
Qed.

Lemma upper_idempotent (s : string) : upper (upper s) = upper s.
Proof.
  induction s as [|c s IH]; simpl; [reflexivity|].
  now rewrite upper_ascii_idempotent, IH.
Qed.

Lemma py_range_empty (lo hi : Z) : (hi <= lo)%Z -> py_range lo hi = [].
Proof.
  intros H. unfold py_range.
  now replace (Z.to_nat (hi - lo)) with 0%nat by lia.
Qed.

Lemma py_range_last (lo hi : Z) :
  (lo < hi)%Z -> exists front, py_range lo hi = front ++ [(hi - 1)%Z].
Proof.
  intros H. unfold py_range.
  destruct (Z.to_nat (hi - lo)) as [|n] eqn:E; [lia|].
  rewrite seq_S, map_app. simpl.
  eexists. f_equal. f_equal. lia.
Qed.

(** The attempts of [send_to_panel] end with the one numbered [retries]. *)
Lemma attempts_end_with_retries (self : PanelController.t) :
  (1 <= PanelController.retries self)%Z ->
  exists front,
    py_range 1 (PanelController.retries self + 1)
      = front ++ [PanelController.retries self].
Proof.
  intros Hretries.
  destruct (py_range_last 1 (PanelController.retries self + 1))
    as [front Hrange]; [lia|].
  exists front. rewrite Hrange. do 2 f_equal. lia.
Qed.

(** ** One session *)

Lemma add_events_nil (st : state) : add_events [] st = st.
Proof. now destruct st. Qed.

Lemma connect_when_disconnected (self : PersistentSession.t) (W : world)
    (st : state) :
  PersistentSession.connected self = false ->
  let s := held_session self in
  PersistentSession_connect self W st =
    match W (EvNewSession s :: trace st) with
    | Raise _ =>
        (Val (false, PersistentSession.set_connected self false),
         add_events [EvNewSession s] st)
    | Ok =>
        let self1 := PersistentSession.set_session self (Some s) in
        match W (EvConnect s :: EvNewSession s :: trace st) with
        | Ok => (Val (true, PersistentSession.set_connected self1 true),
                 add_events [EvConnect s; EvNewSession s] st)
        | Raise _ => (Val (false, PersistentSession.set_connected self1 false),
                      add_events [EvConnect s; EvNewSession s] st)
        end
    end.
Proof.
  intros Hd s. unfold PersistentSession_connect. rewrite Hd. simpl.
  fold s. unfold_py. ask_world; reflexivity.
Qed.

(** [connect] never raises, leaves the pool alone and returns the flag it
    has set. *)
Lemma connect_returns (self : PersistentSession.t) (W : world) (st : state) :
  exists b self' evs,
    PersistentSession_connect self W st = (Val (b, self'), add_events evs st)
    /\ PersistentSession.connected self' = b
    /\ PersistentSession.mac self' = PersistentSession.mac self
    /\ PersistentSession.name self' = PersistentSession.name self.
Proof.
  destruct (PersistentSession.connected self) eqn:Hc.
  - unfold PersistentSession_connect. rewrite Hc. simpl.
    destruct (PersistentSession.session self) eqn:Hs; simpl.
    + exists true, self, []. rewrite add_events_nil. now unfold ret.
    + unfold_py. ask_world.
      * exists true. eexists. exists [EvConnect (held_session self);
                                     EvNewSession (held_session self)].
        repeat split.
      * exists false. eexists. exists [EvConnect (held_session self);
                                      EvNewSession (held_session self)].
        repeat split.
      * exists false. eexists. exists [EvNewSession (held_session self)].
        repeat split.
  - rewrite (connect_when_disconnected self W st Hc); simpl.
    destruct (W _); [destruct (W _)|]; eexists; eexists; eexists;
      repeat split.
Qed.

(** [send_frame] never raises and leaves the pool alone. *)
Lemma send_frame_returns (self : PersistentSession.t) (png : bytes) (d : Q)
    (W : world) (st : state) :
  exists b self' evs,
    PersistentSession_send_frame self png d W st
      = (Val (b, self'), add_events evs st).
Proof.
  unfold PersistentSession_send_frame.
  destruct (PersistentSession.session self) as [s|].
  - destruct (PersistentSession.connected self); simpl.
    + unfold_py. ask_world.
      * exists true, self, [EvSendPng s png d]. reflexivity.
      * exists false. eexists. exists [EvSendPng s png d]. reflexivity.
    + exists false, self, []. now rewrite add_events_nil.
  - exists false, self, []. now rewrite add_events_nil.
Qed.

(** [disconnect] never raises: what [_safe_disconnect] raises is dropped. *)
Lemma disconnect_returns (self : PersistentSession.t) (W : world)
    (st : state) :
  PersistentSession_disconnect self W st =
    (Val (PersistentSession.set_connected
            (PersistentSession.set_session self None) false),
     add_events (match PersistentSession.session self with
                 | Some s => [EvSafeDisconnect s]
                 | None => []
                 end) st).
Proof.
  unfold PersistentSession_disconnect.
  destruct self as [m n l [s|] c]; simpl; unfold_py; ask_world;
    try reflexivity.
  simpl. now destruct st.
Qed.

Lemma disconnect_each_returns (W : world) (todo : dict PersistentSession.t) :
  forall st, exists st',
    disconnect_each todo W st = (Val tt, st')
    /\ trace st' = rev (map EvSafeDisconnect (open_sessions todo)) ++ trace st.
Proof.
  induction todo as [|[key session] rest IH]; intros st; simpl.
  - exists st. split; reflexivity.
  - unfold bind at 1. rewrite disconnect_returns.
    unfold bind at 1. unfold store_session at 1.
    match goal with |- context [disconnect_each rest W ?s] =>
      destruct (IH s) as (st' & Hrun & Htr) end.
    exists st'. split; [exact Hrun|].
    rewrite Htr. simpl.
    destruct (PersistentSession.session session); simpl.
    + rewrite <- app_assoc. reflexivity.
    + reflexivity.
Qed.

(** ** The pool *)

Lemma pool_evolves_trans (st st1 st2 : state) :
  pool_evolves st st1 -> pool_evolves st1 st2 -> pool_evolves st st2.
Proof.
  intros H1 H2. induction H1 as [|a b c Hstep _ IH]; [exact H2|].
  apply (evolves_step a b); [exact Hstep|]. now apply IH.
Qed.

Lemma pool_evolves_same_keys (st st1 st2 : state) :
  pool_evolves st st1 -> pool_keys st2 = pool_keys st1 -> pool_evolves st st2.
Proof.
  intros H1 Hkeys. apply (pool_evolves_trans st st1); [exact H1|].
  apply (evolves_step st1 st2); [now apply step_same|apply evolves_refl].
Qed.

Lemma pool_evolves_same_pool (st st1 st2 : state) :
  pool_evolves st st1 ->
  PERSISTENT_SESSIONS st2 = PERSISTENT_SESSIONS st1 ->
  pool_evolves st st2.
Proof.
  intros H1 Hpool. apply (pool_evolves_same_keys st st1); [exact H1|].
  unfold pool_keys. now rewrite Hpool.
Qed.

Lemma pool_evolves_within_capacity (st st' : state) :
  pool_evolves st st' -> within_capacity st -> within_capacity st'.
Proof.
  unfold within_capacity.
  induction 1 as [|a b c Hstep _ IH]; intros Hcap; [exact Hcap|].
  apply IH. destruct Hstep as [a b Hkeys|a b mac Hroom Hkeys|a b Hempty].
  - rewrite <- (length_map fst). fold (pool_keys b). rewrite Hkeys.
    unfold pool_keys. now rewrite length_map.
  - rewrite <- (length_map fst). fold (pool_keys b). rewrite Hkeys.
    unfold pool_keys. rewrite length_app, length_map. simpl. lia.
  - rewrite Hempty. apply Nat.le_0_l.
Qed.

Lemma pool_evolves_keys_normalised (st st' : state) :
  pool_evolves st st' -> keys_normalised st -> keys_normalised st'.
Proof.
  unfold keys_normalised.
  induction 1 as [|a b c Hstep _ IH]; intros Hkeys; [exact Hkeys|].
  apply IH. destruct Hstep as [a b Hsame|a b mac Hroom Hadd|a b Hempty].
  - now rewrite Hsame.
  - rewrite Hadd. apply Forall_app. split; [exact Hkeys|].
    constructor; [apply upper_idempotent|constructor].
  - unfold pool_keys. rewrite Hempty. constructor.
Qed.

Lemma connect_if_needed_returns (key : string) (session : PersistentSession.t)
    (W : world) (st : state) :
  dict_get key (PERSISTENT_SESSIONS st) = Some session ->
  exists r st' evs,
    connect_if_needed key session W st = (Val r, st')
    /\ trace st' = evs ++ trace st
    /\ pool_keys st' = pool_keys st
    /\ (forall p, r = Some p ->
          PersistentSession.connected p = true
          /\ dict_get key (PERSISTENT_SESSIONS st') = Some p).
Proof.
  intros Hget. unfold connect_if_needed.
  destruct (PersistentSession.connected session) eqn:Hc; simpl.
  - exists (Some session), st, []. unfold_py. rewrite Hc.
    split; [reflexivity|]. split; [reflexivity|]. split; [reflexivity|].
    intros p Hp. inversion Hp; subst. split; assumption.
  - destruct (connect_returns session W st)
      as (b & self' & evs & Hrun & Hb & _).
    unfold bind at 1. unfold bind at 1. rewrite Hrun. simpl.
    unfold_py. simpl. rewrite Hb.
    eexists. eexists. exists evs. split; [reflexivity|]. simpl.
    split; [reflexivity|]. split.
    + apply dict_set_present_keys. congruence.
    + intros p Hp. destruct b; inversion Hp; subst.
      split; [assumption|apply dict_get_set_same].
Qed.

(** [get_persistent_session] never raises; it leaves the keys of the pool
    alone or admits one; a session it returns is connected and is the pool's
    entry under the upper-cased address. *)
Lemma get_persistent_session_returns (mac name : string) (W : world)
    (st : state) :
  exists r st' evs,
    get_persistent_session mac name W st = (Val r, st')
    /\ trace st' = evs ++ trace st
    /\ pool_evolves st st'
    /\ (forall p, r = Some p ->
          PersistentSession.connected p = true
          /\ dict_get (upper mac) (PERSISTENT_SESSIONS st') = Some p).
Proof.
  unfold get_persistent_session. unfold bind at 1, get_pool at 1.
  destruct (dict_get (upper mac) (PERSISTENT_SESSIONS st))
    as [session|] eqn:Hget.
  - destruct (connect_if_needed_returns _ _ W st Hget)
      as (r & st' & evs & Hrun & Htr & Hkeys & Hp).
    exists r, st', evs.
    split; [exact Hrun|]. split; [exact Htr|]. split; [|exact Hp].
    apply (pool_evolves_same_keys st st); [apply evolves_refl|exact Hkeys].
  - destruct (capacity <=? length (PERSISTENT_SESSIONS st))%nat eqn:Hfull.
    + exists None, st, [].
      split; [reflexivity|]. split; [reflexivity|].
      split; [apply evolves_refl|].
      intros p Hp. discriminate.
    + apply Nat.leb_gt in Hfull.
      unfold bind at 1, store_session at 1.
      set (fresh := PersistentSession.init (upper mac) name).
      set (st1 := {| PERSISTENT_SESSIONS :=
                       dict_set (upper mac) fresh (PERSISTENT_SESSIONS st);
                     trace := trace st |}).
      assert (H1 : dict_get (upper mac) (PERSISTENT_SESSIONS st1) = Some fresh)
        by apply dict_get_set_same.
      destruct (connect_if_needed_returns _ _ W st1 H1)
        as (r & st' & evs & Hrun & Htr & Hkeys & Hp).
      exists r, st', evs.
      split; [exact Hrun|]. split; [exact Htr|]. split; [|exact Hp].
      apply (evolves_step st st'); [|apply evolves_refl].
      apply (step_admit st st' mac); [exact Hfull|].
      rewrite Hkeys. unfold pool_keys, st1. simpl.
      now rewrite (dict_set_absent _ _ _ Hget), map_app.
Qed.

Lemma full_pool_refuses (mac name : string) (W : world) (st : state) :
  (capacity <= length (PERSISTENT_SESSIONS st))%nat ->
  dict_get (upper mac) (PERSISTENT_SESSIONS st) = None ->
  get_persistent_session mac name W st = (Val None, st).
Proof.
  intros Hfull Hget. unfold get_persistent_session, bind, get_pool.
  rewrite Hget. apply Nat.leb_le in Hfull. now rewrite Hfull.
Qed.

Lemma close_all_sessions_returns (W : world) (st : state) :
  close_all_sessions W st =
    (Val tt,
     {| PERSISTENT_SESSIONS := [];
        trace := rev (map EvSafeDisconnect
                        (open_sessions (PERSISTENT_SESSIONS st)))
                   ++ trace st |}).
Proof.
  unfold close_all_sessions. unfold bind at 1, get_pool at 1.
  destruct (disconnect_each_returns W (PERSISTENT_SESSIONS st) st)
    as (st' & Hrun & Htr).
  unfold bind. rewrite Hrun. unfold set_pool. now rewrite Htr.
Qed.

(** ** The fresh-connection path *)

Section FreshPath.

Variable self : PanelController.t.
Variable mac : string.
Variable png : bytes.
Variable W : world.

Let retries := PanelController.retries self.
Let pause := EvSleep (PanelController.panel_delay self).

(** *** One attempt *)

Lemma attempt_once_keeps_pool (cb : option callback) (attempt : Z)
    (st : state) :
  PERSISTENT_SESSIONS (snd (attempt_once self mac png cb attempt W st))
    = PERSISTENT_SESSIONS st.
Proof. run_attempt; reflexivity. Qed.

Lemma attempt_once_returns (cb : option callback) (attempt : Z) (st : state) :
  well_behaved cb W ->
  exists r, fst (attempt_once self mac png cb attempt W st) = Val r.
Proof.
  intros [Hnone | Hq].
  - subst cb. run_attempt; eexists; reflexivity.
  - run_attempt; eexists; reflexivity.
Qed.

(** On the last attempt every way through the loop body ends in [return] or
    in an exception. *)
Lemma last_attempt_does_not_continue (cb : option callback) (st : state) :
  fst (attempt_once self mac png cb retries W st) <> Val None.
Proof.
  subst retries. unfold_attempt. rewrite Z.eqb_refl.
  run_attempt; discriminate.
Qed.

Lemma cleanup_returns (session : option BleDisplaySession) (st : state) :
  fst (cleanup self session W st) = Val tt.
Proof.
  unfold cleanup. unfold_py.
  destruct session as [s|]; simpl; [|reflexivity].
  destruct (negb (PanelController.use_persistent self)); simpl; [|reflexivity].
  destruct (W _); reflexivity.
Qed.

Lemma attempt_once_close (cb : option callback) (attempt : Z) (st : state) :
  let s := fresh_session self mac in
  exists evs,
    trace (snd (attempt_once self mac png cb attempt W st)) = evs ++ trace st
    /\ (PanelController.use_persistent self = false ->
        In (EvConnect s) evs ->
        exists before, evs = pause :: EvSafeDisconnect s :: before)
    /\ (PanelController.use_persistent self = true ->
        forall s', ~ In (EvSafeDisconnect s') evs).
Proof.
  intros s. subst s pause. unfold_attempt.
  destruct (PanelController.use_persistent self) eqn:Hup;
    run_attempt; name_new_events; (split; [intros Hp Hin | intros Hp s' Hin]);
    try discriminate Hp;
    solve [ eexists; reflexivity | refute_membership Hin ].
Qed.

Lemma attempt_once_paces (cb : option callback) (attempt : Z) (st : state)
    (r : option (bool * string)) :
  fst (attempt_once self mac png cb attempt W st) = Val r ->
  exists evs,
    trace (snd (attempt_once self mac png cb attempt W st))
      = pause :: evs ++ trace st
    /\ (forall msg, r = Some (true, msg) -> settled self mac png evs).
Proof.
  subst pause. unfold settled. run_attempt; intros Hr; try discriminate Hr;
    name_events_before_pause; intros msg Hmsg; subst r;
    try discriminate Hr;
    first [ exists (@nil event); eexists; reflexivity
          | eexists (cons _ nil); eexists; reflexivity
          | eexists (cons _ (cons _ nil)); eexists; reflexivity ].
Qed.

(** *** The loop *)

Lemma retry_loop_ends_at_last (cb : option callback) (front : list Z) :
  forall st,
    fst (retry_loop self mac png cb (front ++ [retries]) W st) <> Val None.
Proof.
  induction front as [|a front IH]; intros st; simpl; unfold bind.
  - pose proof (last_attempt_does_not_continue cb st) as Hlast.
    destruct (attempt_once self mac png cb retries W st)
      as [[[out|]|e] st1]; simpl in *; unfold ret; simpl; congruence.
  - destruct (attempt_once self mac png cb a W st) as [[[out|]|e] st1];
      simpl; unfold ret; simpl; solve [congruence | apply IH].
Qed.

Lemma retry_loop_keeps_pool (cb : option callback) (attempts : list Z) :
  forall st,
    PERSISTENT_SESSIONS (snd (retry_loop self mac png cb attempts W st))
      = PERSISTENT_SESSIONS st.
Proof.
  induction attempts as [|a rest IH]; intros st; simpl; [reflexivity|].
  unfold bind.
  pose proof (attempt_once_keeps_pool cb a st) as Hpool.
  destruct (attempt_once self mac png cb a W st) as [[[out|]|e] st1];
    simpl in *; try exact Hpool.
  now rewrite IH.
Qed.

Lemma retry_loop_returns (cb : option callback) (attempts : list Z) :
  well_behaved cb W ->
  forall st,
    exists r, fst (retry_loop self mac png cb attempts W st) = Val r.
Proof.
  intros Hwb. induction attempts as [|a rest IH]; intros st; simpl.
  - now exists None.
  - unfold bind.
    destruct (attempt_once_returns cb a st Hwb) as [r Hr].
    destruct (attempt_once self mac png cb a W st) as [[[out|]|e] st1];
      simpl in *; try discriminate.
    + now exists (Some out).
    + apply IH.
Qed.

Lemma retry_loop_paces (cb : option callback) (attempts : list Z) :
  forall st out,
    fst (retry_loop self mac png cb attempts W st) = Val (Some out) ->
    exists evs,
      trace (snd (retry_loop self mac png cb attempts W st))
        = pause :: evs ++ trace st
      /\ (fst out = true -> settled self mac png evs).
Proof.
  induction attempts as [|a rest IH]; intros st out; simpl.
  - discriminate.
  - unfold bind.
    pose proof (attempt_once_paces cb a st) as Hturn.
    destruct (attempt_once self mac png cb a W st) as [[[out1|]|e] st1];
      simpl in *; intros Hr; try discriminate Hr.
    + inversion Hr; subst out1.
      destruct (Hturn (Some out) eq_refl) as (evs & Htr & Hset).
      exists evs. split; [exact Htr|].
      intros Hok. destruct out as [ok msg]. simpl in Hok. subst ok.
      apply (Hset msg eq_refl).
    + destruct (Hturn None eq_refl) as (evs1 & Htr1 & _).
      destruct (IH st1 out Hr) as (evs & Htr & Hset).
      exists (evs ++ pause :: evs1).
      split.
      * rewrite Htr, Htr1, <- app_assoc. reflexivity.
      * intros Hok. destruct (Hset Hok) as (later & earlier & Hevs).
        exists later. eexists. rewrite Hevs, <- app_assoc. reflexivity.
Qed.

(** *** The whole path *)

Lemma send_over_fresh_spec (cb : option callback) (st : state) :
  PERSISTENT_SESSIONS (snd (send_over_fresh self mac png cb W st))
    = PERSISTENT_SESSIONS st
  /\ (well_behaved cb W ->
      exists out, fst (send_over_fresh self mac png cb W st) = Val out).
Proof.
  unfold send_over_fresh, bind.
  pose proof (retry_loop_keeps_pool cb (py_range 1 (retries + 1)) st) as Hpool.
  subst retries. split.
  - destruct (retry_loop _ _ _ _ _ W st) as [[[out|]|e] st1]; exact Hpool.
  - intros Hwb.
    destruct (retry_loop_returns cb
                (py_range 1 (PanelController.retries self + 1)) Hwb st)
      as [r Hr].
    destruct (retry_loop _ _ _ _ _ W st) as [[[out|]|e] st1];
      simpl in *; try discriminate; eexists; reflexivity.
Qed.

End FreshPath.

(** ** [send_to_panel] and the fan-out *)

Lemma send_over_persistent_spec (self : PanelController.t) (mac : string)
    (png : bytes) (display_name : string) (cb : option callback) (W : world)
    (st : state) :
  exists r st',
    send_over_persistent self mac png display_name cb W st = (r, st')
    /\ pool_evolves st st'
    /\ (well_behaved cb W -> exists out, r = Val out).
Proof.
  unfold send_over_persistent.
  destruct (PanelController.use_persistent self).
  2:{ exists (Val None), st. split; [reflexivity|].
      split; [apply evolves_refl|]. intros _. now exists None. }
  unfold bind at 1.
  destruct (get_persistent_session_returns mac display_name W st)
    as (r & st1 & evs & Hrun & _ & Hcap & Hp).
  rewrite Hrun.
  destruct r as [p|].
  2:{ exists (Val None), st1. split; [reflexivity|]. split; [exact Hcap|].
      intros _. now exists None. }
  destruct (Hp p eq_refl) as [Hc Hget]. rewrite Hc.
  assert (Hstore : forall p' tr,
             pool_evolves st
               {| PERSISTENT_SESSIONS :=
                    dict_set (upper mac) p' (PERSISTENT_SESSIONS st1);
                  trace := tr |}).
  { intros p' tr. apply (pool_evolves_same_keys st st1); [exact Hcap|].
    unfold pool_keys. simpl. apply dict_set_present_keys. congruence. }
  unfold bind at 1.
  destruct (notify cb mac "sending" false W st1) as [[[]|e] st2] eqn:Hn1.
  2:{ exists (Exc e), st2. split; [reflexivity|]. split.
      - apply (pool_evolves_same_pool st st1); [exact Hcap|].
        unfold notify in Hn1. destruct cb; unfold_py.
        + destruct (W _); inversion Hn1; reflexivity.
        + inversion Hn1.
      - intros [Hnone|Hq]; unfold notify in Hn1; destruct cb; unfold_py;
          try discriminate.
        simpl in Hn1. rewrite Hq in Hn1. discriminate. }
  assert (Hpool2 : PERSISTENT_SESSIONS st2 = PERSISTENT_SESSIONS st1).
  { unfold notify in Hn1. destruct cb; unfold_py.
    - destruct (W _); inversion Hn1; reflexivity.
    - inversion Hn1; reflexivity. }
  unfold bind at 1.
  destruct (send_frame_returns p png (PanelController.delay self) W st2)
    as (b & p' & evs2 & Hsf).
  rewrite Hsf. unfold bind at 1, store_session at 1. simpl.
  rewrite Hpool2.
  destruct b.
  - unfold bind, notify. destruct cb.
    + unfold call, log_event. simpl.
      destruct (W _) eqn:Hw.
      * eexists. eexists. split; [reflexivity|]. split; [apply Hstore|].
        intros _. eexists. reflexivity.
      * eexists. eexists. split; [reflexivity|]. split; [apply Hstore|].
        intros [Hnone|Hq]; [discriminate|].
        rewrite Hq in Hw. discriminate.
    + eexists. eexists. split; [reflexivity|]. split; [apply Hstore|].
      intros _. eexists. reflexivity.
  - eexists. eexists. split; [reflexivity|]. split; [apply Hstore|].
    intros _. eexists. reflexivity.
Qed.

Lemma send_to_panel_spec (self : PanelController.t) (mac : string)
    (png : bytes) (name : option string) (cb : option callback) (W : world)
    (st : state) :
  pool_evolves st (snd (send_to_panel self mac png name cb W st))
  /\ (well_behaved cb W ->
      exists out, fst (send_to_panel self mac png name cb W st) = Val out).
Proof.
  unfold send_to_panel, bind.
  destruct (send_over_persistent_spec self mac png (opt_str_or name mac) cb
              W st) as (r & st1 & Hrun & Hcap & Hret).
  rewrite Hrun.
  destruct (send_over_fresh_spec self mac png W cb st1) as [Hpool Hfresh].
  destruct r as [[out|]|e].
  - split; [exact Hcap|]. intros _. now exists out.
  - split.
    + apply (pool_evolves_same_pool st st1); [exact Hcap|exact Hpool].
    + exact Hfresh.
  - split; [exact Hcap|]. intros Hwb. destruct (Hret Hwb) as [out Hout].
    discriminate.
Qed.

Lemma send_each_spec (self : PanelController.t) (cb : option callback)
    (W : world) (panels : list (string * string * bytes)) :
  forall results st,
    pool_evolves st (snd (send_each self panels cb results W st))
    /\ (well_behaved cb W ->
        exists outcomes st',
          send_each self panels cb results W st
            = (Val (results ++ outcomes), st')
          /\ map outcome_address outcomes = map target_address panels).
Proof.
  induction panels as [|[[mac name] png] rest IH]; intros results st; simpl.
  - split; [apply evolves_refl|]. intros _. exists [], st.
    now rewrite app_nil_r.
  - unfold bind.
    destruct (send_to_panel_spec self mac png (Some name) cb W st)
      as [Hcap Hret].
    destruct (send_to_panel self mac png (Some name) cb W st)
      as [[out|e] st1]; simpl in *.
    + destruct (IH (results ++ [(mac, fst out, snd out)]) st1) as [IHcap IHret].
      split; [exact (pool_evolves_trans _ _ _ Hcap IHcap)|].
      intros Hwb. destruct (IHret Hwb) as (outcomes & st' & Hrun & Haddr).
      exists ((mac, fst out, snd out) :: outcomes), st'.
      rewrite Hrun, <- app_assoc. simpl. split; [reflexivity|].
      now rewrite Haddr.
    + split; [exact Hcap|]. intros Hwb.
      destruct (Hret Hwb) as [out Hout]. discriminate.
Qed.

Lemma send_each_addresses (self : PanelController.t) (cb : option callback)
    (W : world) (panels : list (string * string * bytes)) :
  forall results st outcomes st',
    send_each self panels cb results W st = (Val outcomes, st') ->
    exists new,
      outcomes = results ++ new
      /\ map outcome_address new = map target_address panels.
Proof.
  induction panels as [|[[mac name] png] rest IH];
    intros results st outcomes st'; simpl.
  - unfold ret. intros H. inversion H; subst.
    exists []. now rewrite app_nil_r.
  - unfold bind.
    destruct (send_to_panel self mac png (Some name) cb W st)
      as [[out|e] st1]; [|discriminate].
    intros Hrun. destruct (IH _ _ _ _ Hrun) as (new & Hout & Haddr).
    exists ((mac, fst out, snd out) :: new).
    rewrite Hout, <- app_assoc. simpl. split; [reflexivity|].
    now rewrite Haddr.
Qed.

(** ** What stands behind an outcome *)









Lemma serve_evolves (W : world) (rq : request) (st : state) :
  pool_evolves st (serve W st rq).
Proof.
  destruct rq as [mac name|self mac png name cb|self panels cb
                 |self macs png cb|]; simpl.
  - destruct (get_persistent_session_returns mac name W st)
      as (r & st' & evs & Hrun & _ & Hcap & _).
    rewrite Hrun. exact Hcap.
  - apply send_to_panel_spec.
  - apply send_each_spec.
  - apply send_each_spec.
  - rewrite close_all_sessions_returns.
    eapply evolves_step; [|apply evolves_refl].
    now apply step_drain.
Qed.

Lemma serve_all_evolves (W : world) (requests : list request) :
  forall st, pool_evolves st (serve_all W requests st).
Proof.
  unfold serve_all.
  induction requests as [|rq rest IH]; intros st; simpl;
    [apply evolves_refl|].
  apply (pool_evolves_trans st (serve W st rq)); [apply serve_evolves|apply IH].
Qed.

(** * The claims *)



(** What comes back in that run: the failure of the second target is an
    outcome like the others. *)
Example fan_out_with_a_dead_panel :
  fst (send_to_multiple two_tries_pooled
         [(demo_mac, "left", demo_png); (demo_mac2, "middle", demo_png);
          (demo_mac3, "right", demo_png)]
         (Some Callback) (dead_panel_world demo_mac2) initial_state)
  = Val [(demo_mac, true, "OK"); (demo_mac2, false, "Device not found");
         (demo_mac3, true, "OK")].
Proof. vm_compute. reflexivity. Qed.





(** C3, amended.  One turn of the retry loop, with the progress callback
    absent or not raising.  [attempt_body] is the [try] body, run after
    the "connecting" notification:
    - it returns: the loop returns (True, "OK") at once;
    - it runs into the deadline: on the attempt numbered [retries] the loop
      returns (False, "Connection timeout"), on any other it goes on with
      the attempts that are left;
    - it raises anything else: on the attempt numbered [retries] the loop
      returns (False, text) where text is the text of the exception, as it
      is, and on any other it goes on.
    When the loop returns, the state is the one the attempt left: nothing
    more is tried. *)
Theorem retry_loop_turn
    (self : PanelController.t) (mac : string) (png : bytes)
    (cb : option callback) (attempt : Z) (rest : list Z) (W : world)
    (st : state) :
  well_behaved cb W ->
  let entered := snd (notify cb mac "connecting" false W st) in
  let after := snd (attempt_once self mac png cb attempt W st) in
  let loop := retry_loop self mac png cb in
  match fst (attempt_body self mac png cb W entered) with
  | Val _ => loop (attempt :: rest) W st = (Val (Some (true, "OK")), after)
  | Exc AsyncioTimeoutError =>
      if (attempt =? PanelController.retries self)%Z
      then loop (attempt :: rest) W st
           = (Val (Some (false, "Connection timeout")), after)
      else loop (attempt :: rest) W st = loop rest W after
  | Exc (OtherException text) =>
      if (attempt =? PanelController.retries self)%Z
      then loop (attempt :: rest) W st = (Val (Some (false, text)), after)
      else loop (attempt :: rest) W st = loop rest W after
  end.
Proof.
  intros Hwb. cbv zeta. unfold attempt_body. simpl retry_loop.
  destruct cb as [c|].
  - destruct Hwb as [Hnone | Hq]; [discriminate|].
    unfold_attempt; unfold_py. simpl. rewrite !Hq. simpl.
    run_attempt; reflexivity.
  - run_attempt; reflexivity.
Qed.

(** The first of two attempts runs into the deadline: the loop goes on
    with the second. *)
Lemma retry_loop_turn_witness :
  retry_loop two_tries demo_mac demo_png None [1; 2]%Z flaky_world initial_state
  = retry_loop two_tries demo_mac demo_png None [2]%Z flaky_world
      (snd (attempt_once two_tries demo_mac demo_png None 1 flaky_world
              initial_state)).
Proof.
  exact (retry_loop_turn two_tries demo_mac demo_png None 1 [2]%Z flaky_world
           initial_state (or_introl eq_refl)).
Defined.

(** The whole run: the first session is closed and the pause is held
    before the second attempt starts. *)
Example retry_after_timeout :
  send_to_panel two_tries demo_mac demo_png None None flaky_world initial_state
  = (Val (true, "OK"),
     {| PERSISTENT_SESSIONS := [];
        trace := rev [EvNewSession (fresh_session two_tries demo_mac);
                      EvConnect (fresh_session two_tries demo_mac);
                      EvSafeDisconnect (fresh_session two_tries demo_mac);
                      EvSleep (15 # 10);
                      EvNewSession (fresh_session two_tries demo_mac);
                      EvConnect (fresh_session two_tries demo_mac);
                      EvSendPng (fresh_session two_tries demo_mac) demo_png
                        (15 # 100);
                      EvSleep settle_delay;
                      EvSafeDisconnect (fresh_session two_tries demo_mac);
                      EvSleep (15 # 10)] |}).
Proof. vm_compute. reflexivity. Qed.

(** C3 as stated fails in one point: the message of a failure on the last
    attempt is the text of the exception, and that text may be empty. *)
Lemma last_failure_message_may_be_empty :
  fst (send_to_panel two_tries demo_mac demo_png None None mute_failure_world
         initial_state)
  = Val (false, "").
Proof. vm_compute. reflexivity. Qed.

(** C4, amended.  In one retry attempt a close of the fresh session is
    tried, as the last thing before the pause that ends the attempt, exactly
    when the controller was built with [use_persistent = False]: then every
    attempt that got as far as [_connect] (returned, timed out or failed)
    ends with [_safe_disconnect] on that session followed by the pause.
    With [use_persistent = True] no attempt closes anything.  What the close
    raises is dropped: the [finally] clause never raises. *)
Theorem fresh_session_close
    (self : PanelController.t) (mac : string) (png : bytes)
    (cb : option callback) (attempt : Z) (W : world) (st : state) :
  let s := fresh_session self mac in
  (exists evs,
      trace (snd (attempt_once self mac png cb attempt W st)) = evs ++ trace st
      /\ (PanelController.use_persistent self = false ->
          In (EvConnect s) evs ->
          exists before,
            evs = EvSleep (PanelController.panel_delay self)
                    :: EvSafeDisconnect s :: before)
      /\ (PanelController.use_persistent self = true ->
          forall s', ~ In (EvSafeDisconnect s') evs))
  /\ (forall session st0, fst (cleanup self session W st0) = Val tt).
Proof.
  intros s. split.
  - apply attempt_once_close.
  - intros session st0. apply cleanup_returns.
Qed.

(** Without the pool, an attempt that runs into the deadline ends with the
    close of its session and the pause. *)
Lemma fresh_session_close_witness :
  exists before,
    trace (snd (attempt_once two_tries demo_mac demo_png None 1 stalled_world
                  initial_state))
    = EvSleep (15 # 10)
        :: EvSafeDisconnect (fresh_session two_tries demo_mac) :: before.
Proof.
  destruct (proj1 (fresh_session_close two_tries demo_mac demo_png None 1
                     stalled_world initial_state))
    as (evs & Htr & Hclose & _).
  assert (Hall : trace (snd (attempt_once two_tries demo_mac demo_png None 1
                               stalled_world initial_state)) = evs)
    by (rewrite Htr; apply app_nil_r).
  assert (Hin : In (EvConnect (fresh_session two_tries demo_mac)) evs)
    by (rewrite <- Hall; vm_compute; right; right; left; reflexivity).
  destruct (Hclose eq_refl Hin) as [before Hevs].
  exists before. rewrite Hall. exact Hevs.
Defined.

(** C4 as stated fails: a controller with the default [use_persistent =
    True] whose attempts all run into the deadline opens three fresh
    sessions and closes none. *)
Lemma timed_out_session_left_open :
  let run := send_to_panel PanelController.default demo_mac demo_png None None
               stalled_world initial_state in
  fst run = Val (false, "Connection timeout")
  /\ existsb (is_connect_of (fresh_session PanelController.default demo_mac))
       (trace (snd run)) = true
  /\ existsb is_close (trace (snd run)) = false.
Proof. vm_compute. repeat split. Qed.

(** C5.  However many requests are served, for however many addresses, the
    pool never holds more than [capacity] = 3 sessions.  When it holds that
    many and none under the (upper-cased) address asked for,
    [get_persistent_session] returns [None] and changes nothing, and
    [send_to_panel] goes straight to a fresh, unpooled connection. *)
Theorem link_pool_capacity (W : world) (st : state) :
  within_capacity st ->
  (forall requests, within_capacity (serve_all W requests st))
  /\ (forall mac name,
         (capacity <= length (PERSISTENT_SESSIONS st))%nat ->
         dict_get (upper mac) (PERSISTENT_SESSIONS st) = None ->
         get_persistent_session mac name W st = (Val None, st)
         /\ (forall self png name' cb,
                send_to_panel self mac png name' cb W st
                = send_over_fresh self mac png cb W st)).
Proof.
  intros Hst. split.
  - intros requests.
    exact (pool_evolves_within_capacity _ _ (serve_all_evolves W requests st)
             Hst).
  - intros mac name Hfull Hget. split.
    + now apply full_pool_refuses.
    + intros self png name' cb. unfold send_to_panel, send_over_persistent.
      destruct (PanelController.use_persistent self); unfold bind at 1.
      * unfold bind at 1. now rewrite full_pool_refuses.
      * reflexivity.
Qed.

(** Four panels on a pool of three: the fourth is not admitted. *)
Lemma link_pool_capacity_witness :
  length (PERSISTENT_SESSIONS full_house) = 3%nat
  /\ within_capacity
       (serve_all calm_world
          [Acquire demo_mac4 "fourth";
           SendOne PanelController.default demo_mac4 demo_png None None]
          full_house)
  /\ get_persistent_session demo_mac4 "fourth" calm_world full_house
     = (Val None, full_house).
Proof.
  assert (Hst : within_capacity full_house) by (vm_compute; repeat constructor).
  split; [reflexivity|]. split.
  - apply (proj1 (link_pool_capacity calm_world full_house Hst)).
  - apply (proj2 (link_pool_capacity calm_world full_house Hst)).
    + vm_compute. repeat constructor.
    + reflexivity.
Defined.

(** C6, amended.  An address with no entry, in a pool below capacity: a new
    [PersistentSession] is stored under the upper-cased address before
    anything is tried; then the session is built and, if that returned,
    [_connect] is called on it.  The entry is returned when both went
    through; otherwise [None] is returned and the entry stays in the pool,
    marked as not connected. *)
Theorem acquire_unknown_address (mac name : string) (W : world) (st : state) :
  dict_get (upper mac) (PERSISTENT_SESSIONS st) = None ->
  (length (PERSISTENT_SESSIONS st) < capacity)%nat ->
  let key := upper mac in
  let s := held_session (PersistentSession.init key name) in
  exists held st' tail,
    get_persistent_session mac name W st
      = (Val (if PersistentSession.connected held then Some held else None),
         st')
    /\ PERSISTENT_SESSIONS st' = PERSISTENT_SESSIONS st ++ [(key, held)]
    /\ PersistentSession.mac held = key
    /\ history st' = history st ++ EvNewSession s :: tail
    /\ (PersistentSession.connected held = true <->
        W (EvNewSession s :: trace st) = Ok
        /\ W (EvConnect s :: EvNewSession s :: trace st) = Ok).
Proof.
  intros Hget Hroom key s. subst key.
  unfold get_persistent_session, bind at 1, get_pool at 1.
  cbv zeta. rewrite Hget.
  apply Nat.leb_gt in Hroom. rewrite Hroom.
  unfold bind at 1, store_session at 1, connect_if_needed.
  cbn [PersistentSession.connected PersistentSession.init negb].
  unfold bind at 1. unfold bind at 1.
  rewrite connect_when_disconnected by reflexivity.
  cbn [trace PERSISTENT_SESSIONS]. fold s.
  rewrite (dict_set_absent _ _ _ Hget).
  unfold history.
  destruct (W (EvNewSession s :: trace st)) eqn:Hnew;
    [destruct (W (EvConnect s :: EvNewSession s :: trace st)) eqn:Hconn|];
    unfold_py; cbn [snd fst PERSISTENT_SESSIONS trace];
    rewrite (dict_set_app_same _ _ _ _ Hget);
    eexists; eexists.
  - exists [EvConnect s].
    split; [reflexivity|]. split; [reflexivity|]. split; [reflexivity|].
    split; [cbn [trace]; rewrite rev_app_distr; reflexivity|].
    split; [intros _; split; reflexivity | intros _; reflexivity].
  - exists [EvConnect s].
    split; [reflexivity|]. split; [reflexivity|]. split; [reflexivity|].
    split; [cbn [trace]; rewrite rev_app_distr; reflexivity|].
    split; [intros H; discriminate H | intros [_ H]; discriminate H].
  - exists [].
    split; [reflexivity|]. split; [reflexivity|]. split; [reflexivity|].
    split; [cbn [trace]; rewrite rev_app_distr; reflexivity|].
    split; [intros H; discriminate H | intros [H _]; discriminate H].
Qed.

(** The first acquisition of the process. *)
Lemma acquire_unknown_address_witness :
  exists held st' tail,
    get_persistent_session demo_mac "left" calm_world initial_state
      = (Val (if PersistentSession.connected held then Some held else None),
         st')
    /\ PERSISTENT_SESSIONS st' = [] ++ [(upper demo_mac, held)]
    /\ PersistentSession.mac held = upper demo_mac
    /\ history st'
       = [] ++ EvNewSession
                 (held_session (PersistentSession.init (upper demo_mac) "left"))
               :: tail
    /\ (PersistentSession.connected held = true <-> Ok = Ok /\ Ok = Ok).
Proof.
  apply (acquire_unknown_address demo_mac "left" calm_world initial_state).
  - reflexivity.
  - vm_compute. repeat constructor.
Defined.

(** C6 as stated fails: when the connect does not go through, [None] comes
    back and the pool has changed: the new entry is in it. *)
Lemma failed_connect_leaves_entry :
  let run := get_persistent_session demo_mac "left" stalled_world
               initial_state in
  fst run = Val None
  /\ PERSISTENT_SESSIONS initial_state = []
  /\ map fst (PERSISTENT_SESSIONS (snd run)) = [upper demo_mac]
  /\ map (fun kv => PersistentSession.connected (snd kv))
       (PERSISTENT_SESSIONS (snd run)) = [false].
Proof. vm_compute. repeat split. Qed.

(** C7, amended.  The pauses of the fresh-connection path.  Every retry
    attempt that comes to its end (to return or to go on with the next)
    ends with a pause of [panel_delay]; an attempt that succeeds has
    held [settle_delay] right after [send_png].  So, with [retries >= 1],
    whenever [send_to_panel] returns from the fresh-connection path the
    last thing that happened is the pause of [panel_delay], also when the
    last attempt succeeded. *)
Theorem fresh_path_pauses
    (self : PanelController.t) (mac : string) (png : bytes)
    (cb : option callback) (W : world) (st : state) :
  (forall attempt r,
      fst (attempt_once self mac png cb attempt W st) = Val r ->
      exists evs,
        trace (snd (attempt_once self mac png cb attempt W st))
          = EvSleep (PanelController.panel_delay self) :: evs ++ trace st
        /\ (forall msg, r = Some (true, msg) -> settled self mac png evs))
  /\ ((1 <= PanelController.retries self)%Z ->
      forall out,
        fst (send_over_fresh self mac png cb W st) = Val out ->
        exists evs,
          trace (snd (send_over_fresh self mac png cb W st))
            = EvSleep (PanelController.panel_delay self) :: evs ++ trace st
          /\ (fst out = true -> settled self mac png evs)).
Proof.
  split.
  - intros attempt r. apply attempt_once_paces.
  - intros Hretries out. unfold send_over_fresh, bind.
    destruct (attempts_end_with_retries self Hretries) as [front Hrange].
    rewrite Hrange.
    pose proof (retry_loop_ends_at_last self mac png W cb front st) as Hlast.
    pose proof (retry_loop_paces self mac png W cb
                  (front ++ [PanelController.retries self]) st) as Hpace.
    destruct (retry_loop self mac png cb
                (front ++ [PanelController.retries self]) W st)
      as [[[out1|]|e] st1]; simpl in *; intros Hr; try discriminate Hr;
      try congruence.
    inversion Hr; subst out1. apply Hpace. reflexivity.
Qed.

(** Success on the last of two attempts: the settle pause was held and the
    pause between panels comes last. *)
Lemma fresh_path_pauses_witness :
  exists evs,
    trace (snd (send_over_fresh two_tries demo_mac demo_png None flaky_world
                  initial_state))
      = EvSleep (15 # 10) :: evs ++ []
    /\ (true = true -> settled two_tries demo_mac demo_png evs).
Proof.
  apply (proj2 (fresh_path_pauses two_tries demo_mac demo_png None flaky_world
                  initial_state)
           ltac:(vm_compute; discriminate) (true, "OK") eq_refl).
Defined.

(** C7 as stated fails: a send that succeeds over the persistent session
    returns with no pause at all, neither the settle pause nor the pause
    between panels. *)
Lemma persistent_send_does_not_pause :
  let run := send_to_panel PanelController.default demo_mac demo_png None None
               calm_world initial_state in
  fst run = Val (true, "OK")
  /\ existsb is_sleep (trace (snd run)) = false.
Proof. vm_compute. split; reflexivity. Qed.

(** C8, amended.  The pool is keyed by the upper-cased address: two
    spellings of an address that agree once upper-cased are the same
    request to [get_persistent_session], and a session that is returned is
    the pool's entry under that key; upper-casing is idempotent, and a
    pool whose keys are all upper-cased keeps them so whatever is asked of
    the module.  The outcomes of [send_to_multiple] carry the address as the
    caller spelled it, not the key. *)
Theorem address_normalisation (W : world) (st : state) :
  (forall mac1 mac2 name,
      upper mac1 = upper mac2 ->
      get_persistent_session mac1 name W st
        = get_persistent_session mac2 name W st
      /\ (forall held st',
             get_persistent_session mac1 name W st = (Val (Some held), st') ->
             dict_get (upper mac2) (PERSISTENT_SESSIONS st') = Some held))
  /\ (forall mac, upper (upper mac) = upper mac)
  /\ (keys_normalised st ->
      forall requests, keys_normalised (serve_all W requests st))
  /\ (forall self panels cb outcomes st',
         send_to_multiple self panels cb W st = (Val outcomes, st') ->
         map outcome_address outcomes = map target_address panels).
Proof.
  split; [|split; [|split]].
  - intros mac1 mac2 name Hsame. split.
    + unfold get_persistent_session. now rewrite Hsame.
    + intros held st' Hrun. rewrite <- Hsame.
      destruct (get_persistent_session_returns mac1 name W st)
        as (r & st1 & evs & Hrun1 & _ & _ & Hp).
      rewrite Hrun1 in Hrun. inversion Hrun; subst.
      apply (Hp held eq_refl).
  - apply upper_idempotent.
  - intros Hkeys requests.
    exact (pool_evolves_keys_normalised _ _ (serve_all_evolves W requests st)
             Hkeys).
  - intros self panels cb outcomes st' Hrun.
    destruct (send_each_addresses self cb W panels [] st outcomes st' Hrun)
      as (new & Hout & Haddr).
    simpl in Hout. now subst.
Qed.

(** The lower-case and the upper-case spelling of one address; the keys
    after a fan-out to three lower-case addresses. *)
Lemma address_normalisation_witness :
  get_persistent_session demo_mac "left" calm_world initial_state
  = get_persistent_session demo_mac_upper "left" calm_world initial_state
  /\ keys_normalised
       (serve_all calm_world
          [SendSame PanelController.default
             [(demo_mac, "left"); (demo_mac2, "middle"); (demo_mac3, "right")]
             demo_png None]
          initial_state).
Proof.
  destruct (address_normalisation calm_world initial_state)
    as (Hsame & _ & Hkeys & _).
  split.
  - exact (proj1 (Hsame demo_mac demo_mac_upper "left" eq_refl)).
  - apply Hkeys. constructor.
Defined.

(** C8 as stated fails: the address in the outcome is the caller's spelling
    while the pool entry of the same send is under the upper-cased one. *)
Lemma outcome_address_is_not_the_pool_key :
  let run := send_to_multiple PanelController.default
               [(demo_mac, "left", demo_png)] None calm_world initial_state in
  fst run = Val [(demo_mac, true, "OK")]
  /\ map fst (PERSISTENT_SESSIONS (snd run)) = [demo_mac_upper]
  /\ demo_mac <> demo_mac_upper.
Proof. vm_compute. repeat split. discriminate. Qed.

(** C9.  [close_all_sessions] never raises; it calls [_safe_disconnect] on
    every session held in the pool, in the order of the dictionary, dropping
    what the call raises, and leaves the pool empty.  A second call right
    after the first changes nothing and does not raise either. *)
Theorem close_all_sessions_drains (W : world) (st : state) :
  exists st',
    close_all_sessions W st = (Val tt, st')
    /\ PERSISTENT_SESSIONS st' = []
    /\ history st'
       = history st
           ++ map EvSafeDisconnect (open_sessions (PERSISTENT_SESSIONS st))
    /\ (forall key held s,
           In (key, held) (PERSISTENT_SESSIONS st) ->
           PersistentSession.session held = Some s ->
           In (EvSafeDisconnect s) (history st'))
    /\ close_all_sessions W st' = (Val tt, st').
Proof.
  eexists. split; [apply close_all_sessions_returns|].
  split; [reflexivity|].
  assert (Hhist : forall evs : list event,
             rev (rev evs ++ trace st) = rev (trace st) ++ evs).
  { intros evs. now rewrite rev_app_distr, rev_involutive. }
  split; [apply Hhist|]. split.
  - intros key held s Hin Hs. unfold history. cbn [trace].
    rewrite Hhist. apply in_or_app. right. apply in_map.
    unfold open_sessions. apply in_flat_map.
    exists (key, held). split; [exact Hin|]. simpl. rewrite Hs. now left.
  - rewrite close_all_sessions_returns. reflexivity.
Qed.

(** A full pool whose sessions all refuse to disconnect is drained all the
    same, and draining again changes nothing. *)
Lemma close_all_sessions_drains_witness :
  exists st',
    close_all_sessions stubborn_world full_house = (Val tt, st')
    /\ PERSISTENT_SESSIONS st' = []
    /\ In (EvSafeDisconnect
             (held_session (PersistentSession.init (upper demo_mac) "left")))
          (history st')
    /\ close_all_sessions stubborn_world st' = (Val tt, st').
Proof.
  destruct (close_all_sessions_drains stubborn_world full_house)
    as (st' & Hrun & Hempty & _ & Hall & Hagain).
  exists st'. split; [exact Hrun|]. split; [exact Hempty|].
  split; [|exact Hagain].
  eapply Hall; [left; reflexivity | reflexivity].
Defined.

Example drain_twice :
  let once := close_all_sessions stubborn_world full_house in
  fst once = Val tt
  /\ PERSISTENT_SESSIONS (snd once) = []
  /\ length (filter is_close (trace (snd once))) = 3%nat
  /\ close_all_sessions stubborn_world (snd once) = (Val tt, snd once).
Proof. vm_compute. repeat split. Qed.

(** C10.  With [retries >= 1] the retry loop never runs out: it returns or
    raises within an attempt, so the [return] after it is not reached, and
    whatever [send_to_panel] returns was returned by the persistent part or
    by an attempt of the loop, in the state that this return left.  With
    [retries <= 0] there is no attempt: once the persistent part has fallen
    through, [send_to_panel] returns (False, "Max retries exceeded") in the
    state the persistent part left, with no event added; with
    [use_persistent = False] that is the state it was called in. *)
Theorem max_retries_exceeded_reachability
    (self : PanelController.t) (mac : string) (png : bytes)
    (name : option string) (cb : option callback) (W : world) (st : state) :
  ((1 <= PanelController.retries self)%Z ->
   fst (retry_loop self mac png cb
          (py_range 1 (PanelController.retries self + 1)) W st) <> Val None
   /\ forall out st',
        send_to_panel self mac png name cb W st = (Val out, st') ->
        send_over_persistent self mac png (opt_str_or name mac) cb W st
          = (Val (Some out), st')
        \/ exists st1,
             send_over_persistent self mac png (opt_str_or name mac) cb W st
               = (Val None, st1)
             /\ retry_loop self mac png cb
                  (py_range 1 (PanelController.retries self + 1)) W st1
                = (Val (Some out), st'))
  /\ ((PanelController.retries self <= 0)%Z ->
      (forall st1,
          send_over_persistent self mac png (opt_str_or name mac) cb W st
            = (Val None, st1) ->
          send_to_panel self mac png name cb W st
            = (Val (false, "Max retries exceeded"), st1))
      /\ (PanelController.use_persistent self = false ->
          send_to_panel self mac png name cb W st
            = (Val (false, "Max retries exceeded"), st))).
Proof.
  split.
  - intros Hretries.
    destruct (attempts_end_with_retries self Hretries) as [front Hrange].
    rewrite Hrange. split; [apply retry_loop_ends_at_last|].
    intros out st'. unfold send_to_panel, bind at 1.
    destruct (send_over_persistent self mac png (opt_str_or name mac) cb W st)
      as [[[out1|]|e] st1]; unfold ret; intros Hrun;
      [left; congruence| |discriminate Hrun].
    right. exists st1. split; [reflexivity|].
    unfold send_over_fresh, bind in Hrun. rewrite Hrange in Hrun.
    pose proof (retry_loop_ends_at_last self mac png W cb front st1) as Hlast.
    destruct (retry_loop self mac png cb (front ++ [PanelController.retries self])
                W st1) as [[[out2|]|e] st2];
      unfold ret in Hrun; simpl in Hlast;
      [congruence|congruence|discriminate Hrun].
  - intros Hretries.
    assert (Hfall : forall st1,
               send_over_persistent self mac png (opt_str_or name mac) cb W st
                 = (Val None, st1) ->
               send_to_panel self mac png name cb W st
                 = (Val (false, "Max retries exceeded"), st1)).
    { intros st1 Hmiss. unfold send_to_panel, bind. rewrite Hmiss.
      unfold send_over_fresh, bind.
      rewrite py_range_empty by lia. reflexivity. }
    split; [exact Hfall|].
    intros Hup. apply Hfall. unfold send_over_persistent. now rewrite Hup.
Qed.

(** Two attempts that both run into the deadline: the negative pair is the
    one the loop returned; and no attempt at all. *)
Lemma max_retries_exceeded_reachability_witness :
  (exists st',
      retry_loop two_tries demo_mac demo_png None (py_range 1 (2 + 1))
        stalled_world initial_state
      = (Val (Some (false, "Connection timeout")), st'))
  /\ send_to_panel no_tries demo_mac demo_png None (Some Callback) calm_world
       initial_state
     = (Val (false, "Max retries exceeded"), initial_state).
Proof.
  split.
  - set (run := send_to_panel two_tries demo_mac demo_png None None
                  stalled_world initial_state).
    assert (Hrun : run = (Val (false, "Connection timeout"), snd run))
      by reflexivity.
    destruct (proj1 (max_retries_exceeded_reachability two_tries demo_mac
                       demo_png None None stalled_world initial_state))
      as [_ Hinside].
    { vm_compute. discriminate. }
    destruct (Hinside _ _ Hrun) as [Hpool|(st1 & Hpool & Hloop)].
    + discriminate Hpool.
    + exists (snd run). inversion Hpool; subst st1. exact Hloop.
  - apply (proj2 (max_retries_exceeded_reachability no_tries demo_mac demo_png
                    None (Some Callback) calm_world initial_state)).
    + vm_compute. discriminate.
    + reflexivity.
Defined.

(** * Further properties *)

(** ** The pool in use *)

Lemma dict_set_get_same {V} (k : string) (v : V) (d : dict V) :
  dict_get k d = Some v -> dict_set k v d = d.
Proof.
  induction d as [|[k' v'] d IH]; simpl; intros H; [discriminate|].
  destruct (String.eqb k k') eqn:E.
  - now inversion H.
  - now rewrite IH.
Qed.

Lemma dict_get_set_other {V} (k k' : string) (v : V) (d : dict V) :
  k <> k' -> dict_get k' (dict_set k v d) = dict_get k' d.
Proof.
  intros Hne. induction d as [|[k0 v0] d IH]; simpl.
  - destruct (String.eqb k' k) eqn:E; [|reflexivity].
    apply String.eqb_eq in E. congruence.
  - destruct (String.eqb k k0) eqn:E; simpl.
    + apply String.eqb_eq in E. subst k0.
      destruct (String.eqb k' k) eqn:E'; [|reflexivity].
      apply String.eqb_eq in E'. congruence.
    + destruct (String.eqb k' k0); [reflexivity|exact IH].
Qed.

Lemma notify_well_behaved (cb : option callback) (mac status : string)
    (final : bool) (W : world) (st : state) :
  well_behaved cb W ->
  notify cb mac status final W st
    = (Val tt, add_events (progress_events cb mac status final) st).
Proof.
  intros Hwb. unfold notify, progress_events. destruct cb as [c|].
  - destruct Hwb as [Hnone|Hq]; [discriminate|].
    unfold call, add_events, log_event. simpl. now rewrite Hq.
  - unfold ret. now rewrite add_events_nil.
Qed.

Lemma acquire_connected (mac name : string) (W : world) (st : state)
    (p : PersistentSession.t) :
  dict_get (upper mac) (PERSISTENT_SESSIONS st) = Some p ->
  PersistentSession.connected p = true ->
  get_persistent_session mac name W st = (Val (Some p), st).
Proof.
  intros Hget Hc. unfold get_persistent_session, bind at 1, get_pool at 1.
  rewrite Hget. unfold connect_if_needed. rewrite Hc. simpl.
  unfold bind, ret. now rewrite Hc.
Qed.

Lemma add_events_app (evs1 evs2 : list event) (st : state) :
  add_events evs1 (add_events evs2 st) = add_events (evs1 ++ evs2) st.
Proof. unfold add_events. simpl. now rewrite app_assoc. Qed.

(** What [send_over_persistent] does once the pool holds a connected entry
    for the address, up to the answer to [send_png]. *)
Lemma send_over_connected (self : PanelController.t) (mac : string)
    (png : bytes) (display_name : string) (cb : option callback) (W : world)
    (st : state) (p : PersistentSession.t) (s : BleDisplaySession) :
  PanelController.use_persistent self = true ->
  dict_get (upper mac) (PERSISTENT_SESSIONS st) = Some p ->
  PersistentSession.connected p = true ->
  PersistentSession.session p = Some s ->
  well_behaved cb W ->
  let sending := progress_events cb mac "sending" false in
  let send := EvSendPng s png (PanelController.delay self) in
  send_over_persistent self mac png display_name cb W st =
    match W (send :: sending ++ trace st) with
    | Ok =>
        (Val (Some (true, "OK")),
         add_events (progress_events cb mac "success" true ++ send :: sending)
           st)
    | Raise _ =>
        (Val None,
         {| PERSISTENT_SESSIONS :=
              dict_set (upper mac) (PersistentSession.set_connected p false)
                (PERSISTENT_SESSIONS st);
            trace := send :: sending ++ trace st |})
    end.
Proof.
  intros Hup Hget Hc Hs Hwb sending send.
  unfold send_over_persistent. rewrite Hup.
  unfold bind at 1. rewrite (acquire_connected mac display_name W st p Hget Hc).
  rewrite Hc. unfold bind at 1. rewrite (notify_well_behaved _ _ _ _ _ _ Hwb).
  fold sending.
  unfold bind at 1. unfold PersistentSession_send_frame. rewrite Hs, Hc.
  cbn [negb]. unfold try_except, bind at 1, call, log_event.
  cbn [add_events trace PERSISTENT_SESSIONS]. fold send.
  destruct (W (send :: sending ++ trace st)) eqn:Hw.
  - unfold ret at 1. unfold bind at 1, store_session at 1.
    cbn [snd fst PERSISTENT_SESSIONS trace].
    rewrite (dict_set_get_same _ _ _ Hget).
    unfold bind at 1. rewrite (notify_well_behaved _ _ _ _ _ _ Hwb).
    unfold ret, add_events. cbn [trace PERSISTENT_SESSIONS].
    now rewrite <- app_assoc.
  - unfold ret at 1. unfold bind at 1, store_session at 1.
    cbn [snd fst PERSISTENT_SESSIONS trace]. reflexivity.
Qed.

(** X1.  A send to an address whose pool entry is connected goes over the
    held session: the acquisition returns the entry and changes nothing, and
    when [send_png] is answered the only call to the transport is that
    [send_png] (no constructor, no [_connect]), the outcome is (True, "OK")
    and the pool is as it was. *)
Theorem held_link_is_reused
    (self : PanelController.t) (mac : string) (png : bytes)
    (name : option string) (cb : option callback) (W : world) (st : state)
    (p : PersistentSession.t) (s : BleDisplaySession) :
  PanelController.use_persistent self = true ->
  dict_get (upper mac) (PERSISTENT_SESSIONS st) = Some p ->
  PersistentSession.connected p = true ->
  PersistentSession.session p = Some s ->
  well_behaved cb W ->
  let sending := progress_events cb mac "sending" false in
  let send := EvSendPng s png (PanelController.delay self) in
  let evs := progress_events cb mac "success" true ++ send :: sending in
  W (send :: sending ++ trace st) = Ok ->
  get_persistent_session mac (opt_str_or name mac) W st = (Val (Some p), st)
  /\ send_to_panel self mac png name cb W st
     = (Val (true, "OK"), add_events evs st)
  /\ existsb is_open_or_connect evs = false.
Proof.
  intros Hup Hget Hc Hs Hwb sending send evs Hw.
  split; [now apply acquire_connected|]. split.
  - unfold send_to_panel, bind.
    rewrite (send_over_connected self mac png _ cb W st p s Hup Hget Hc Hs Hwb).
    fold sending send. rewrite Hw. reflexivity.
  - subst evs sending send. unfold progress_events.
    destruct cb; reflexivity.
Qed.

(** The second send to a panel, with a callback listening. *)
Lemma held_link_is_reused_witness :
  send_to_panel PanelController.default demo_mac demo_png (Some "left")
    (Some Callback) calm_world full_house
  = (Val (true, "OK"),
     add_events [EvProgress demo_mac "success" true;
                 EvSendPng demo_session demo_png (15 # 100);
                 EvProgress demo_mac "sending" false] full_house).
Proof.
  apply (held_link_is_reused PanelController.default demo_mac demo_png
           (Some "left") (Some Callback) calm_world full_house demo_link
           demo_session); try reflexivity.
  right. intros m status final past. reflexivity.
Defined.

(** X2.  When [send_png] over the held session raises, the entry stays in
    the pool under its key but is marked as not connected (its session
    object is kept), and [send_to_panel] carries on with the fresh
    connections from there: its result is that of the retry loop. *)
Theorem failed_pooled_send_falls_back
    (self : PanelController.t) (mac : string) (png : bytes)
    (name : option string) (cb : option callback) (W : world) (st : state)
    (p : PersistentSession.t) (s : BleDisplaySession) (e : exn) :
  PanelController.use_persistent self = true ->
  dict_get (upper mac) (PERSISTENT_SESSIONS st) = Some p ->
  PersistentSession.connected p = true ->
  PersistentSession.session p = Some s ->
  well_behaved cb W ->
  let sending := progress_events cb mac "sending" false in
  let send := EvSendPng s png (PanelController.delay self) in
  let dropped := PersistentSession.set_connected p false in
  let st1 := {| PERSISTENT_SESSIONS :=
                  dict_set (upper mac) dropped (PERSISTENT_SESSIONS st);
                trace := send :: sending ++ trace st |} in
  W (send :: sending ++ trace st) = Raise e ->
  send_to_panel self mac png name cb W st
    = send_over_fresh self mac png cb W st1
  /\ dict_get (upper mac) (PERSISTENT_SESSIONS st1) = Some dropped
  /\ PersistentSession.session dropped = Some s
  /\ pool_keys st1 = pool_keys st.
Proof.
  intros Hup Hget Hc Hs Hwb sending send dropped st1 Hw.
  split; [|split; [|split]].
  - unfold send_to_panel, bind.
    rewrite (send_over_connected self mac png _ cb W st p s Hup Hget Hc Hs Hwb).
    fold sending send. rewrite Hw. reflexivity.
  - apply dict_get_set_same.
  - exact Hs.
  - unfold pool_keys, st1. cbn [PERSISTENT_SESSIONS].
    apply dict_set_present_keys. congruence.
Qed.

(** The held link has dropped: the frame goes out over a fresh session and
    the entry is left marked as not connected. *)
Lemma failed_pooled_send_falls_back_witness :
  let run := send_to_panel PanelController.default demo_mac demo_png
               (Some "left") None held_link_dropped_world full_house in
  fst run = Val (true, "OK")
  /\ dict_get demo_mac_upper (PERSISTENT_SESSIONS (snd run))
     = Some (PersistentSession.set_connected demo_link false).
Proof.
  destruct (failed_pooled_send_falls_back PanelController.default demo_mac
              demo_png (Some "left") None held_link_dropped_world full_house
              demo_link demo_session (OtherException "Not connected")
              eq_refl eq_refl eq_refl eq_refl (or_introl eq_refl) eq_refl)
    as (Hrun & _).
  cbv zeta. rewrite Hrun. vm_compute. split; reflexivity.
Defined.

(** X3.  An address whose pool entry is marked as not connected is
    reconnected in its own slot, whether or not the pool is full: a new
    session is built and [_connect] is called on it, the keys of the pool do
    not change, the entry is returned exactly when both calls went through,
    and the session the entry held before is never closed. *)
Theorem reconnect_in_place (mac name : string) (W : world) (st : state)
    (p : PersistentSession.t) :
  dict_get (upper mac) (PERSISTENT_SESSIONS st) = Some p ->
  PersistentSession.connected p = false ->
  let s := held_session p in
  exists held st' evs,
    get_persistent_session mac name W st
      = (Val (if PersistentSession.connected held then Some held else None),
         st')
    /\ trace st' = evs ++ trace st
    /\ pool_keys st' = pool_keys st
    /\ dict_get (upper mac) (PERSISTENT_SESSIONS st') = Some held
    /\ existsb is_close evs = false
    /\ (PersistentSession.connected held = true <->
        W (EvNewSession s :: trace st) = Ok
        /\ W (EvConnect s :: EvNewSession s :: trace st) = Ok).
Proof.
  intros Hget Hc s.
  unfold get_persistent_session, bind at 1, get_pool at 1.
  cbv zeta. rewrite Hget. unfold connect_if_needed. rewrite Hc.
  cbn [negb]. unfold bind at 1. unfold bind at 1.
  rewrite (connect_when_disconnected p W st Hc). cbv zeta. fold s.
  assert (Hkeys : forall held tr,
             pool_keys {| PERSISTENT_SESSIONS :=
                            dict_set (upper mac) held (PERSISTENT_SESSIONS st);
                          trace := tr |} = pool_keys st).
  { intros held tr. unfold pool_keys. cbn [PERSISTENT_SESSIONS].
    apply dict_set_present_keys. congruence. }
  destruct (W (EvNewSession s :: trace st)) eqn:Hnew;
    [destruct (W (EvConnect s :: EvNewSession s :: trace st)) eqn:Hconn|];
    unfold_py; cbn [snd fst PERSISTENT_SESSIONS trace];
    eexists; eexists.
  - exists [EvConnect s; EvNewSession s].
    split; [reflexivity|]. split; [reflexivity|]. split; [apply Hkeys|].
    split; [apply dict_get_set_same|]. split; [reflexivity|].
    split; [intros _; split; reflexivity | intros _; reflexivity].
  - exists [EvConnect s; EvNewSession s].
    split; [reflexivity|]. split; [reflexivity|]. split; [apply Hkeys|].
    split; [apply dict_get_set_same|]. split; [reflexivity|].
    split; [intros H; discriminate H | intros [_ H]; discriminate H].
  - exists [EvNewSession s].
    split; [reflexivity|]. split; [reflexivity|]. split; [apply Hkeys|].
    split; [apply dict_get_set_same|]. split; [reflexivity|].
    split; [intros H; discriminate H | intros [H _]; discriminate H].
Qed.

(** The dropped link of a full pool is taken up again. *)
Lemma reconnect_in_place_witness :
  exists held st',
    get_persistent_session demo_mac "left" calm_world house_with_dropped_link
      = (Val (Some held), st')
    /\ pool_keys st' = pool_keys house_with_dropped_link
    /\ length (PERSISTENT_SESSIONS house_with_dropped_link) = capacity.
Proof.
  destruct (reconnect_in_place demo_mac "left" calm_world
              house_with_dropped_link
              (PersistentSession.set_connected demo_link false)
              eq_refl eq_refl)
    as (held & st' & evs & Hrun & _ & Hkeys & _ & _ & Hiff).
  exists held, st'.
  assert (Hc : PersistentSession.connected held = true)
    by (apply Hiff; split; reflexivity).
  rewrite Hc in Hrun.
  split; [exact Hrun|]. split; [exact Hkeys|reflexivity].
Defined.

(** X4.  An entry that an acquisition has returned is connected and is the
    pool's entry under the upper-cased address, and it is kept: acquiring
    again, with any spelling of the address and any name, returns the same
    entry without a call to the transport and without a change of state. *)
Theorem acquired_link_is_kept (mac name : string) (W : world) (st st' : state)
    (p : PersistentSession.t) :
  get_persistent_session mac name W st = (Val (Some p), st') ->
  PersistentSession.connected p = true
  /\ dict_get (upper mac) (PERSISTENT_SESSIONS st') = Some p
  /\ forall (mac' name' : string) (W' : world),
       upper mac' = upper mac ->
       get_persistent_session mac' name' W' st' = (Val (Some p), st').
Proof.
  intros Hrun.
  destruct (get_persistent_session_returns mac name W st)
    as (r & st1 & evs & Hrun1 & _ & _ & Hp).
  rewrite Hrun in Hrun1. inversion Hrun1; subst r st1.
  destruct (Hp p eq_refl) as [Hc Hget].
  split; [exact Hc|]. split; [exact Hget|].
  intros mac' name' W' Hsame. apply acquire_connected; [|exact Hc].
  now rewrite Hsame.
Qed.

Lemma acquired_link_is_kept_witness :
  let st' := snd (get_persistent_session demo_mac "left" calm_world
                    initial_state) in
  get_persistent_session demo_mac_upper "" stalled_world st'
  = (Val (Some demo_link), st').
Proof.
  cbv zeta.
  apply (acquired_link_is_kept demo_mac "left" calm_world initial_state
           _ demo_link eq_refl).
  reflexivity.
Defined.

Lemma connect_if_needed_frame (key : string) (session : PersistentSession.t)
    (W : world) (st : state) (other : string) :
  key <> other ->
  dict_get other
    (PERSISTENT_SESSIONS (snd (connect_if_needed key session W st)))
  = dict_get other (PERSISTENT_SESSIONS st).
Proof.
  intros Hne. unfold connect_if_needed.
  destruct (PersistentSession.connected session) eqn:Hc; simpl.
  - unfold_py. reflexivity.
  - destruct (connect_returns session W st)
      as (b & self' & evs & Hrun & _).
    unfold bind at 1. unfold bind at 1. rewrite Hrun. unfold_py. simpl.
    now apply dict_get_set_other.
Qed.

Lemma get_persistent_session_frame (mac name : string) (W : world)
    (st : state) (other : string) :
  upper mac <> other ->
  dict_get other
    (PERSISTENT_SESSIONS (snd (get_persistent_session mac name W st)))
  = dict_get other (PERSISTENT_SESSIONS st).
Proof.
  intros Hne. unfold get_persistent_session, bind at 1, get_pool at 1.
  destruct (dict_get (upper mac) (PERSISTENT_SESSIONS st)).
  - now apply connect_if_needed_frame.
  - destruct (capacity <=? length (PERSISTENT_SESSIONS st))%nat;
      [reflexivity|].
    unfold bind at 1, store_session at 1.
    rewrite connect_if_needed_frame by exact Hne. simpl.
    now apply dict_get_set_other.
Qed.

Lemma notify_keeps_pool (cb : option callback) (mac status : string)
    (final : bool) (W : world) (st : state) :
  PERSISTENT_SESSIONS (snd (notify cb mac status final W st))
  = PERSISTENT_SESSIONS st.
Proof.
  unfold notify. destruct cb; unfold_py; simpl; [|reflexivity].
  now destruct (W _).
Qed.

Lemma send_over_persistent_frame (self : PanelController.t) (mac : string)
    (png : bytes) (display_name : string) (cb : option callback) (W : world)
    (st : state) (other : string) :
  upper mac <> other ->
  dict_get other
    (PERSISTENT_SESSIONS
       (snd (send_over_persistent self mac png display_name cb W st)))
  = dict_get other (PERSISTENT_SESSIONS st).
Proof.
  intros Hne. unfold send_over_persistent.
  destruct (PanelController.use_persistent self); [|reflexivity].
  unfold bind at 1.
  pose proof (get_persistent_session_frame mac display_name W st other Hne)
    as Hacq.
  destruct (get_persistent_session mac display_name W st)
    as [[[p|]|e] st1]; simpl in Hacq; try exact Hacq.
  destruct (PersistentSession.connected p); [|exact Hacq].
  unfold bind at 1.
  pose proof (notify_keeps_pool cb mac "sending" false W st1) as Hn1.
  destruct (notify cb mac "sending" false W st1) as [[[]|e] st2];
    simpl in Hn1; [|simpl; congruence].
  unfold bind at 1.
  destruct (send_frame_returns p png (PanelController.delay self) W st2)
    as (b & p' & evs & Hsf).
  rewrite Hsf. unfold bind at 1, store_session at 1.
  cbn [fst snd add_events PERSISTENT_SESSIONS trace].
  destruct b.
  - unfold bind at 1.
    match goal with |- context [notify cb mac "success" true W ?s] =>
      pose proof (notify_keeps_pool cb mac "success" true W s) as Hn2;
      destruct (notify cb mac "success" true W s) as [[[]|e] st3]
    end; simpl in Hn2 |- *; rewrite Hn2, dict_get_set_other by exact Hne;
      congruence.
  - unfold ret. simpl. rewrite dict_get_set_other by exact Hne. congruence.
Qed.

Lemma send_to_panel_frame (self : PanelController.t) (mac : string)
    (png : bytes) (name : option string) (cb : option callback) (W : world)
    (st : state) (other : string) :
  upper mac <> other ->
  dict_get other
    (PERSISTENT_SESSIONS (snd (send_to_panel self mac png name cb W st)))
  = dict_get other (PERSISTENT_SESSIONS st).
Proof.
  intros Hne. unfold send_to_panel, bind.
  pose proof (send_over_persistent_frame self mac png (opt_str_or name mac)
                cb W st other Hne) as Hpool.
  destruct (send_over_persistent self mac png (opt_str_or name mac) cb W st)
    as [[[out|]|e] st1]; simpl in Hpool |- *; try exact Hpool.
  now rewrite (proj1 (send_over_fresh_spec self mac png W cb st1)).
Qed.

Lemma send_each_frame (self : PanelController.t) (cb : option callback)
    (W : world) (other : string) (panels : list (string * string * bytes)) :
  Forall (fun t => upper (target_address t) <> other) panels ->
  forall results st,
    dict_get other
      (PERSISTENT_SESSIONS (snd (send_each self panels cb results W st)))
    = dict_get other (PERSISTENT_SESSIONS st).
Proof.
  induction 1 as [|[[mac name] png] rest Hne _ IH]; intros results st;
    [reflexivity|].
  simpl. unfold bind at 1.
  pose proof (send_to_panel_frame self mac png (Some name) cb W st other Hne)
    as Hone.
  destruct (send_to_panel self mac png (Some name) cb W st)
    as [[out|e] st1]; simpl in Hone |- *; [|exact Hone].
  now rewrite IH.
Qed.

(** X5.  A send touches no pool entry but the one of its own address:
    whatever the transport and the callback do, [send_to_panel] leaves the
    entry under every other key as it was, and so does a fan-out for every
    key that is not the upper-cased address of one of its targets. *)
Theorem sends_leave_other_links
    (self : PanelController.t) (cb : option callback) (W : world)
    (st : state) (other : string) :
  (forall mac png name,
     upper mac <> other ->
     dict_get other
       (PERSISTENT_SESSIONS (snd (send_to_panel self mac png name cb W st)))
     = dict_get other (PERSISTENT_SESSIONS st))
  /\ (forall panels,
        Forall (fun t => upper (target_address t) <> other) panels ->
        dict_get other
          (PERSISTENT_SESSIONS (snd (send_to_multiple self panels cb W st)))
        = dict_get other (PERSISTENT_SESSIONS st))
  /\ (forall macs png,
        Forall (fun m => upper (fst m) <> other) macs ->
        dict_get other
          (PERSISTENT_SESSIONS
             (snd (send_same_to_all self macs png cb W st)))
        = dict_get other (PERSISTENT_SESSIONS st)).
Proof.
  split; [|split].
  - intros mac png name Hne. now apply send_to_panel_frame.
  - intros panels Hne. unfold send_to_multiple. now apply send_each_frame.
  - intros macs png Hne. unfold send_same_to_all, send_to_multiple.
    apply send_each_frame. apply Forall_map.
    eapply Forall_impl; [|exact Hne]. intros m Hm. exact Hm.
Qed.

(** The link of the first panel stays as it is while the second panel,
    which is out of reach, is sent to. *)
Lemma sends_leave_other_links_witness :
  dict_get demo_mac_upper
    (PERSISTENT_SESSIONS
       (snd (send_to_panel PanelController.default demo_mac2 demo_png None
               None (dead_panel_world demo_mac2) full_house)))
  = Some demo_link.
Proof.
  rewrite (proj1 (sends_leave_other_links PanelController.default None
                    (dead_panel_world demo_mac2) full_house demo_mac_upper)
             demo_mac2 demo_png None).
  - reflexivity.
  - intros H. discriminate H.
Defined.

(** ** How often a send opens a session *)

Lemma send_over_persistent_opens (self : PanelController.t) (mac : string)
    (png : bytes) (display_name : string) (cb : option callback) (W : world)
    (st : state) :
  exists evs,
    trace (snd (send_over_persistent self mac png display_name cb W st))
      = evs ++ trace st
    /\ count_events is_fresh_open evs = 0%nat
    /\ (count_events is_held_open evs <= 1)%nat
    /\ (PanelController.use_persistent self = false -> evs = []).
Proof.
  unfold count_events.
  run_pool; name_new_events; simpl;
    (split; [reflexivity|split; [lia|intros H; try discriminate H]]);
    reflexivity.
Qed.

Lemma attempt_once_opens (self : PanelController.t) (mac : string)
    (png : bytes) (cb : option callback) (W : world) (attempt : Z)
    (st : state) :
  exists evs,
    trace (snd (attempt_once self mac png cb attempt W st)) = evs ++ trace st
    /\ (count_events is_fresh_open evs <= 1)%nat
    /\ count_events is_held_open evs = 0%nat.
Proof.
  unfold count_events.
  run_attempt; name_new_events; simpl; split; solve [lia | reflexivity].
Qed.

Lemma count_events_app (test : event -> bool) (evs1 evs2 : list event) :
  count_events test (evs1 ++ evs2)
  = (count_events test evs1 + count_events test evs2)%nat.
Proof. unfold count_events. now rewrite filter_app, length_app. Qed.

Lemma retry_loop_opens (self : PanelController.t) (mac : string)
    (png : bytes) (cb : option callback) (W : world) (attempts : list Z) :
  forall st, exists evs,
    trace (snd (retry_loop self mac png cb attempts W st)) = evs ++ trace st
    /\ (count_events is_fresh_open evs <= length attempts)%nat
    /\ count_events is_held_open evs = 0%nat.
Proof.
  induction attempts as [|a rest IH]; intros st; simpl.
  - exists []. repeat split. apply Nat.le_refl.
  - unfold bind.
    destruct (attempt_once_opens self mac png cb W a st)
      as (evs1 & Htr1 & Hfresh1 & Hheld1).
    destruct (attempt_once self mac png cb a W st) as [[[out|]|e] st1];
      simpl in Htr1 |- *.
    + exists evs1. split; [exact Htr1|]. split; [lia|exact Hheld1].
    + destruct (IH st1) as (evs2 & Htr2 & Hfresh2 & Hheld2).
      exists (evs2 ++ evs1).
      rewrite Htr2, Htr1, <- app_assoc, !count_events_app.
      split; [reflexivity|]. split; lia.
    + exists evs1. split; [exact Htr1|]. split; [lia|exact Hheld1].
Qed.

Lemma py_range_length (lo hi : Z) :
  length (py_range lo hi) = Z.to_nat (hi - lo).
Proof. unfold py_range. now rewrite length_map, length_seq. Qed.

(** X6.  One [send_to_panel] builds at most [retries] sessions of the kind
    the retry loop opens (none when [retries] is not positive) and at most
    one session for the pool, whatever the transport and the callback
    answer; with [use_persistent] off it builds none for the pool. *)
Theorem send_to_panel_opens_bounded
    (self : PanelController.t) (mac : string) (png : bytes)
    (name : option string) (cb : option callback) (W : world) (st : state) :
  exists evs,
    trace (snd (send_to_panel self mac png name cb W st)) = evs ++ trace st
    /\ (count_events is_fresh_open evs
        <= Z.to_nat (PanelController.retries self))%nat
    /\ (count_events is_held_open evs <= 1)%nat
    /\ (PanelController.use_persistent self = false ->
        count_events is_held_open evs = 0%nat).
Proof.
  unfold send_to_panel, bind at 1.
  destruct (send_over_persistent_opens self mac png (opt_str_or name mac)
              cb W st) as (evs1 & Htr1 & Hfresh1 & Hheld1 & Hoff).
  destruct (send_over_persistent self mac png (opt_str_or name mac) cb W st)
    as [[[out|]|e] st1]; simpl in Htr1 |- *.
  - exists evs1. split; [exact Htr1|]. split; [lia|]. split; [exact Hheld1|].
    intros H. now rewrite (Hoff H).
  - unfold send_over_fresh, bind.
    destruct (retry_loop_opens self mac png cb W
                (py_range 1 (PanelController.retries self + 1)) st1)
      as (evs2 & Htr2 & Hfresh2 & Hheld2).
    rewrite py_range_length in Hfresh2.
    replace (PanelController.retries self + 1 - 1)%Z
      with (PanelController.retries self) in Hfresh2 by lia.
    exists (evs2 ++ evs1). rewrite !count_events_app.
    split.
    + destruct (retry_loop self mac png cb _ W st1) as [[[out|]|e] st2];
        simpl in Htr2 |- *; rewrite Htr2, Htr1, <- app_assoc; reflexivity.
    + split; [lia|]. split; [lia|].
      intros H. rewrite (Hoff H), Hheld2. reflexivity.
  - exists evs1. split; [exact Htr1|]. split; [lia|]. split; [exact Hheld1|].
    intros H. now rewrite (Hoff H).
Qed.

(** Two attempts that run into the deadline: two sessions opened, none for
    the pool. *)
Lemma send_to_panel_opens_bounded_witness :
  exists evs,
    trace (snd (send_to_panel two_tries demo_mac demo_png None None
                  stalled_world initial_state)) = evs ++ []
    /\ (count_events is_fresh_open evs <= 2)%nat
    /\ count_events is_held_open evs = 0%nat.
Proof.
  destruct (send_to_panel_opens_bounded two_tries demo_mac demo_png None None
              stalled_world initial_state) as (evs & Htr & Hfresh & _ & Hoff).
  exists evs. split; [exact Htr|]. split; [exact Hfresh|exact (Hoff eq_refl)].
Defined.

(** ** What a positive outcome stands for *)

Lemma attempt_once_success (self : PanelController.t) (mac : string)
    (png : bytes) (cb : option callback) (W : world) (attempt : Z)
    (st : state) (msg : string) :
  fst (attempt_once self mac png cb attempt W st) = Val (Some (true, msg)) ->
  msg = "OK"
  /\ exists later earlier,
       trace (snd (attempt_once self mac png cb attempt W st))
         = later ++ EvSendPng (fresh_session self mac) png
                      (PanelController.delay self) :: earlier ++ trace st
       /\ W (EvSendPng (fresh_session self mac) png
               (PanelController.delay self) :: earlier ++ trace st) = Ok.
Proof.
  run_attempt; intros H; try discriminate H; inversion H;
    (split; [reflexivity|]);
    match goal with
    | |- exists later earlier, ?l = _ /\ _ =>
        let p := events_after_send l in
        let l' := events_behind_send l in
        let q := events_since l' (trace st) in
        exists p, q
    end;
    (split; [reflexivity|assumption]).
Qed.

Lemma retry_loop_success (self : PanelController.t) (mac : string)
    (png : bytes) (cb : option callback) (W : world) (attempts : list Z)
    (msg : string) :
  forall st,
    fst (retry_loop self mac png cb attempts W st) = Val (Some (true, msg)) ->
    msg = "OK"
    /\ exists later earlier,
         trace (snd (retry_loop self mac png cb attempts W st))
           = later ++ EvSendPng (fresh_session self mac) png
                        (PanelController.delay self) :: earlier ++ trace st
         /\ W (EvSendPng (fresh_session self mac) png
                 (PanelController.delay self) :: earlier ++ trace st) = Ok.
Proof.
  induction attempts as [|a rest IH]; intros st; simpl;
    [intros H; discriminate H|].
  unfold bind.
  pose proof (attempt_once_success self mac png cb W a st msg) as Hone.
  destruct (attempt_once_opens self mac png cb W a st) as (evs1 & Htr1 & _).
  destruct (attempt_once self mac png cb a W st) as [[[out|]|e] st1];
    simpl in Htr1, Hone |- *; intros H; try discriminate H.
  - inversion H; subst out. now apply Hone.
  - destruct (IH st1 H) as (Hmsg & later & earlier & Htr & Hw).
    split; [exact Hmsg|]. exists later, (earlier ++ evs1).
    rewrite Htr1 in Htr, Hw. rewrite <- !app_assoc.
    split; assumption.
Qed.

Lemma send_over_persistent_success (self : PanelController.t) (mac : string)
    (png : bytes) (display_name : string) (cb : option callback) (W : world)
    (st : state) (out : bool * string) :
  fst (send_over_persistent self mac png display_name cb W st)
    = Val (Some out) ->
  out = (true, "OK")
  /\ PanelController.use_persistent self = true
  /\ exists p s later earlier,
       trace (snd (send_over_persistent self mac png display_name cb W st))
         = later ++ EvSendPng s png (PanelController.delay self)
                      :: earlier ++ trace st
       /\ W (EvSendPng s png (PanelController.delay self)
               :: earlier ++ trace st) = Ok
       /\ dict_get (upper mac)
            (PERSISTENT_SESSIONS
               (snd (send_over_persistent self mac png display_name cb W st)))
          = Some p
       /\ PersistentSession.session p = Some s.
Proof.
  run_pool; intros H; try discriminate H; inversion H;
    (split; [reflexivity|split; [reflexivity|]]);
    eexists;
    match goal with
    | |- exists s later earlier, ?l = _ /\ _ =>
        let s := session_of_send l in
        let p := events_after_send l in
        let l' := events_behind_send l in
        let q := events_since l' (trace st) in
        exists s, p, q
    end;
    (split; [reflexivity|split; [assumption|]]);
    (split; [apply dict_get_set_same|]); simpl; solve [assumption|reflexivity].
Qed.

(** X7.  A positive outcome is never made up: when [send_to_panel] returns
    (True, msg), then msg is "OK" and during this very call [send_png] was
    called with the caller's bytes and the controller's write delay and was
    answered, on a fresh session to the caller's address or, with
    [use_persistent] on, on the session that the pool entry of the
    upper-cased address holds. *)
Theorem positive_outcome_means_frame_sent
    (self : PanelController.t) (mac : string) (png : bytes)
    (name : option string) (cb : option callback) (W : world)
    (st st' : state) (msg : string) :
  send_to_panel self mac png name cb W st = (Val (true, msg), st') ->
  msg = "OK"
  /\ exists s later earlier,
       trace st' = later ++ EvSendPng s png (PanelController.delay self)
                     :: earlier ++ trace st
       /\ W (EvSendPng s png (PanelController.delay self)
               :: earlier ++ trace st) = Ok
       /\ (s = fresh_session self mac
           \/ PanelController.use_persistent self = true
              /\ exists p,
                   dict_get (upper mac) (PERSISTENT_SESSIONS st') = Some p
                   /\ PersistentSession.session p = Some s).
Proof.
  unfold send_to_panel, bind at 1.
  pose proof (send_over_persistent_success self mac png (opt_str_or name mac)
                cb W st) as Hpool.
  destruct (send_over_persistent_opens self mac png (opt_str_or name mac)
              cb W st) as (evs1 & Htr1 & _).
  destruct (send_over_persistent self mac png (opt_str_or name mac) cb W st)
    as [[[out|]|e] st1]; simpl in Hpool, Htr1 |- *; intros H;
    try discriminate H.
  - unfold ret in H. inversion H; subst out st1.
    destruct (Hpool _ eq_refl)
      as (Hout & Hup & p & s & later & earlier & Htr & Hw & Hget & Hs).
    inversion Hout; subst msg. split; [reflexivity|].
    exists s, later, earlier. split; [exact Htr|]. split; [exact Hw|].
    right. split; [exact Hup|]. now exists p.
  - unfold send_over_fresh, bind in H.
    pose proof (retry_loop_success self mac png cb W
                  (py_range 1 (PanelController.retries self + 1)) msg st1)
      as Hloop.
    destruct (retry_loop self mac png cb _ W st1) as [[[out|]|e] st2];
      simpl in Hloop; unfold ret in H; try discriminate H.
    inversion H; subst out st2.
    destruct (Hloop eq_refl) as (Hmsg & later & earlier & Htr & Hw).
    split; [exact Hmsg|].
    exists (fresh_session self mac), later, (earlier ++ evs1).
    rewrite Htr1 in Htr, Hw. rewrite <- !app_assoc.
    split; [exact Htr|]. split; [exact Hw|]. now left.
Qed.

(** The first attempt runs into the deadline, the second one delivers. *)
Lemma positive_outcome_means_frame_sent_witness :
  exists later earlier,
    trace (snd (send_to_panel two_tries demo_mac demo_png None None
                  flaky_world initial_state))
    = later ++ EvSendPng (fresh_session two_tries demo_mac) demo_png
                 (15 # 100) :: earlier.
Proof.
  set (run := send_to_panel two_tries demo_mac demo_png None None
                flaky_world initial_state).
  assert (Hrun : run = (Val (true, "OK"), snd run)) by reflexivity.
  destruct (positive_outcome_means_frame_sent two_tries demo_mac demo_png
              None None flaky_world initial_state (snd run) "OK" Hrun)
    as (_ & s & later & earlier & Htr & _ & [Hs|[Hup _]]).
  - exists later, earlier. rewrite Htr, Hs, app_nil_r. reflexivity.
  - discriminate Hup.
Defined.

(** ** Who gets a place in the pool *)

Lemma dict_get_none_keys {V} (k : string) (d : dict V) :
  existsb (String.eqb k) (map fst d)
  = match dict_get k d with Some _ => true | None => false end.
Proof.
  induction d as [|[k' v'] d IH]; simpl; [reflexivity|].
  destruct (String.eqb k k'); [reflexivity|exact IH].
Qed.

Lemma get_persistent_session_keys (mac name : string) (W : world)
    (st : state) :
  pool_keys (snd (get_persistent_session mac name W st))
  = offer (pool_keys st) mac.
Proof.
  unfold offer, pool_keys at 2 3 4. rewrite dict_get_none_keys, length_map.
  unfold get_persistent_session, bind at 1, get_pool at 1.
  destruct (dict_get (upper mac) (PERSISTENT_SESSIONS st))
    as [session|] eqn:Hget.
  - destruct (connect_if_needed_returns _ _ W st Hget)
      as (r & st' & evs & Hrun & _ & Hkeys & _).
    now rewrite Hrun.
  - destruct (capacity <=? length (PERSISTENT_SESSIONS st))%nat;
      [reflexivity|].
    unfold bind at 1, store_session at 1.
    match goal with |- context [connect_if_needed _ ?fresh W ?st1] =>
      destruct (connect_if_needed_returns (upper mac) fresh W st1
                  (dict_get_set_same _ _ _))
        as (r & st' & evs & Hrun & _ & Hkeys & _)
    end.
    rewrite Hrun. simpl. rewrite Hkeys. unfold pool_keys. simpl.
    now rewrite (dict_set_absent _ _ _ Hget), map_app.
Qed.

Lemma send_over_persistent_keys (self : PanelController.t) (mac : string)
    (png : bytes) (display_name : string) (cb : option callback) (W : world)
    (st : state) :
  PanelController.use_persistent self = true ->
  pool_keys (snd (send_over_persistent self mac png display_name cb W st))
  = offer (pool_keys st) mac.
Proof.
  intros Hup. rewrite <- (get_persistent_session_keys mac display_name W st).
  unfold send_over_persistent. rewrite Hup. unfold bind at 1.
  destruct (get_persistent_session_returns mac display_name W st)
    as (r & st1 & evs & Hrun & _ & _ & Hp).
  rewrite Hrun. cbn [snd]. destruct r as [p|]; [|reflexivity].
  destruct (Hp p eq_refl) as [Hc Hget]. rewrite Hc.
  unfold bind at 1.
  pose proof (notify_keeps_pool cb mac "sending" false W st1) as Hn1.
  destruct (notify cb mac "sending" false W st1) as [[[]|e] st2];
    simpl in Hn1; [|unfold pool_keys; simpl; congruence].
  unfold bind at 1.
  destruct (send_frame_returns p png (PanelController.delay self) W st2)
    as (b & p' & evs2 & Hsf).
  rewrite Hsf. unfold bind at 1, store_session at 1.
  cbn [fst snd add_events PERSISTENT_SESSIONS trace].
  assert (Hkeys : forall tr,
             pool_keys {| PERSISTENT_SESSIONS :=
                            dict_set (upper mac) p' (PERSISTENT_SESSIONS st2);
                          trace := tr |} = pool_keys st1).
  { intros tr. unfold pool_keys. cbn [PERSISTENT_SESSIONS].
    rewrite dict_set_present_keys by congruence. now rewrite Hn1. }
  destruct b.
  - unfold bind at 1.
    match goal with |- context [notify cb mac "success" true W ?s] =>
      pose proof (notify_keeps_pool cb mac "success" true W s) as Hn2;
      destruct (notify cb mac "success" true W s) as [[[]|e] st3]
    end; simpl in Hn2 |- *; rewrite <- (Hkeys []); unfold pool_keys;
      simpl; now rewrite Hn2.
  - unfold ret. simpl. apply Hkeys.
Qed.

Lemma send_to_panel_keys (self : PanelController.t) (mac : string)
    (png : bytes) (name : option string) (cb : option callback) (W : world)
    (st : state) :
  pool_keys (snd (send_to_panel self mac png name cb W st))
  = if PanelController.use_persistent self then offer (pool_keys st) mac
    else pool_keys st.
Proof.
  assert (Hfirst :
            pool_keys (snd (send_over_persistent self mac png
                              (opt_str_or name mac) cb W st))
            = if PanelController.use_persistent self
              then offer (pool_keys st) mac else pool_keys st).
  { destruct (PanelController.use_persistent self) eqn:Hup.
    - now apply send_over_persistent_keys.
    - unfold send_over_persistent. now rewrite Hup. }
  unfold send_to_panel, bind.
  destruct (send_over_persistent self mac png (opt_str_or name mac) cb W st)
    as [[[out|]|e] st1]; simpl in Hfirst |- *; try exact Hfirst.
  unfold pool_keys at 1.
  now rewrite (proj1 (send_over_fresh_spec self mac png W cb st1)).
Qed.

Lemma send_each_keys (self : PanelController.t) (cb : option callback)
    (W : world) (panels : list (string * string * bytes)) :
  PanelController.use_persistent self = true ->
  well_behaved cb W ->
  forall results st,
    pool_keys (snd (send_each self panels cb results W st))
    = fold_left offer (map target_address panels) (pool_keys st).
Proof.
  intros Hup Hwb.
  induction panels as [|[[mac name] png] rest IH]; intros results st;
    [reflexivity|].
  simpl. unfold bind at 1.
  pose proof (send_to_panel_keys self mac png (Some name) cb W st) as Hone.
  rewrite Hup in Hone.
  destruct (proj2 (send_to_panel_spec self mac png (Some name) cb W st) Hwb)
    as [out Hout].
  destruct (send_to_panel self mac png (Some name) cb W st)
    as [[out'|e] st1]; simpl in Hone, Hout |- *; [|discriminate Hout].
  now rewrite IH, Hone.
Qed.

Lemma offer_known (keys : list string) (mac : string) :
  In (upper mac) keys -> offer keys mac = keys.
Proof.
  intros Hin. unfold offer.
  replace (existsb (String.eqb (upper mac)) keys) with true; [reflexivity|].
  symmetry. apply existsb_exists. exists (upper mac).
  split; [exact Hin|apply String.eqb_refl].
Qed.

Lemma offer_unknown (keys : list string) (mac : string) :
  ~ In (upper mac) keys ->
  offer keys mac
  = if (capacity <=? length keys)%nat then keys else keys ++ [upper mac].
Proof.
  intros Hnotin. unfold offer.
  destruct (existsb (String.eqb (upper mac)) keys) eqn:E; [|reflexivity].
  apply existsb_exists in E. destruct E as (k & Hin & Heq).
  apply String.eqb_eq in Heq. subst k. contradiction.
Qed.

Lemma offer_all_new (macs : list string) :
  forall keys,
    NoDup (keys ++ map upper macs) ->
    fold_left offer macs keys
    = keys ++ firstn (capacity - length keys) (map upper macs).
Proof.
  induction macs as [|mac rest IH]; intros keys Hnd;
    cbn [fold_left map] in *.
  - now rewrite firstn_nil, app_nil_r.
  - assert (Hnotin : ~ In (upper mac) keys).
    { intros Hin. apply NoDup_remove_2 in Hnd. apply Hnd.
      apply in_or_app. now left. }
    rewrite (offer_unknown keys mac Hnotin).
    destruct (capacity <=? length keys)%nat eqn:Hfull.
    + apply Nat.leb_le in Hfull.
      assert (Hnd' : NoDup (keys ++ map upper rest)).
      { apply NoDup_remove_1 in Hnd. exact Hnd. }
      rewrite (IH keys Hnd').
      replace (capacity - length keys)%nat with 0%nat by lia.
      reflexivity.
    + apply Nat.leb_gt in Hfull.
      assert (Hnd' : NoDup ((keys ++ [upper mac]) ++ map upper rest)).
      { rewrite <- app_assoc. exact Hnd. }
      rewrite (IH _ Hnd'), length_app. cbn [length].
      replace (capacity - length keys)%nat
        with (S (capacity - (length keys + 1)))%nat by lia.
      cbn [firstn]. now rewrite <- app_assoc.
Qed.

(** X8.  The pool is given out first come, first served.  A fan-out of a
    controller with [use_persistent] on (callback absent or not raising)
    offers each target's address to the pool in input order, whether or not
    the panel answers; so when the targets' upper-cased addresses are
    pairwise distinct and none is in the pool yet, the pool ends with the
    old keys followed by the first of the new addresses, as many as there
    was room for. *)
Theorem pool_is_first_come_first_served
    (self : PanelController.t) (cb : option callback) (W : world)
    (st : state) (panels : list (string * string * bytes)) :
  PanelController.use_persistent self = true ->
  well_behaved cb W ->
  let offered := map target_address panels in
  pool_keys (snd (send_to_multiple self panels cb W st))
    = fold_left offer offered (pool_keys st)
  /\ (NoDup (pool_keys st ++ map upper offered) ->
      pool_keys (snd (send_to_multiple self panels cb W st))
      = pool_keys st
          ++ firstn (capacity - length (pool_keys st)) (map upper offered)).
Proof.
  intros Hup Hwb offered.
  assert (Hfold : pool_keys (snd (send_to_multiple self panels cb W st))
                  = fold_left offer offered (pool_keys st))
    by (unfold send_to_multiple; now apply send_each_keys).
  split; [exact Hfold|].
  intros Hnd. rewrite Hfold. now apply offer_all_new.
Qed.

(** Four panels, the second one out of reach: the first three get the
    places. *)
Lemma pool_is_first_come_first_served_witness :
  pool_keys
    (snd (send_to_multiple PanelController.default
            [(demo_mac, "left", demo_png); (demo_mac2, "middle", demo_png);
             (demo_mac3, "right", demo_png); (demo_mac4, "fourth", demo_png)]
            None (dead_panel_world demo_mac2) initial_state))
  = [upper demo_mac; upper demo_mac2; upper demo_mac3].
Proof.
  refine (proj2 (pool_is_first_come_first_served PanelController.default None
                   (dead_panel_world demo_mac2) initial_state
                   [(demo_mac, "left", demo_png);
                    (demo_mac2, "middle", demo_png);
                    (demo_mac3, "right", demo_png);
                    (demo_mac4, "fourth", demo_png)]
                   eq_refl (or_introl eq_refl)) _).
  simpl. repeat constructor; simpl; intuition discriminate.
Defined.

(** ** Scanning *)

Lemma scan_devices_returns (name_prefix : string) (cb : option callback)
    (radio : scanner) (devices : list BLEDevice.t) :
  cb = None \/ (forall calls, found_callback radio calls = Ok) ->
  forall discovered calls,
    scan_devices name_prefix cb radio devices discovered calls
    = (Val (discovered ++ matching_devices name_prefix devices),
       match cb with
       | Some _ => rev (matching_devices name_prefix devices) ++ calls
       | None => calls
       end).
Proof.
  intros Hcb. unfold matching_devices.
  induction devices as [|d rest IH]; intros discovered calls;
    cbn [scan_devices filter map].
  - cbn [rev app]. rewrite app_nil_r. now destruct cb.
  - cbv zeta.
    destruct (String.prefix name_prefix (opt_str_or (BLEDevice.name d) ""))
      eqn:Hmatch.
    + cbn [map rev]. destruct cb as [c|].
      * destruct Hcb as [Hnone|Hok]; [discriminate|].
        rewrite Hok, IH. now rewrite <- !app_assoc.
      * rewrite IH. now rewrite <- !app_assoc.
    + apply IH.
Qed.

(** X9.  When [discover] returns and the callback is absent or does not
    raise, [scan_for_panels] returns exactly the devices whose name starts
    with the prefix, in the order of discovery, each with its address as
    reported (not upper-cased) and its name, a device without a name
    counting as named by the empty string; and the callback, when there is
    one, has been called once for each of them, in that order, with the
    same pair. *)
Theorem scan_returns_matching_devices (timeout : Q) (name_prefix : string)
    (cb : option callback) (radio : scanner) (devices : list BLEDevice.t) :
  discover radio timeout = Val devices ->
  cb = None \/ (forall calls, found_callback radio calls = Ok) ->
  scan_for_panels timeout name_prefix cb radio
  = (Val (matching_devices name_prefix devices),
     match cb with
     | Some _ => rev (matching_devices name_prefix devices)
     | None => []
     end).
Proof.
  intros Hdev Hcb. unfold scan_for_panels. rewrite Hdev.
  rewrite (scan_devices_returns name_prefix cb radio devices Hcb [] []).
  now rewrite app_nil_r.
Qed.

Lemma scan_returns_matching_devices_witness :
  scan_for_panels 10 PANEL_NAME_PREFIX (Some Callback) demo_scanner
  = (Val [("aa:bb:cc:dd:ee:01", "LED_BLE_1A2B");
          ("AA:BB:CC:DD:EE:02", "LED_BLE_3C4D")],
     [("AA:BB:CC:DD:EE:02", "LED_BLE_3C4D");
      ("aa:bb:cc:dd:ee:01", "LED_BLE_1A2B")]).
Proof.
  apply (scan_returns_matching_devices 10 PANEL_NAME_PREFIX (Some Callback)
           demo_scanner demo_devices eq_refl).
  right. intros calls. reflexivity.
Defined.

Lemma scan_devices_raises (name_prefix : string) (cb : option callback)
    (radio : scanner) (e : exn) (calls' : list (string * string))
    (devices : list BLEDevice.t) :
  forall discovered calls,
    scan_devices name_prefix cb radio devices discovered calls
      = (Exc e, calls') ->
    cb <> None
    /\ found_callback radio calls' = Raise e
    /\ exists n,
         (n < length (matching_devices name_prefix devices))%nat
         /\ calls' = rev (firstn (S n) (matching_devices name_prefix devices))
                       ++ calls.
Proof.
  unfold matching_devices.
  induction devices as [|d rest IH]; intros discovered calls;
    cbn [scan_devices filter map]; [intros H; discriminate H|].
  cbv zeta.
  destruct (String.prefix name_prefix (opt_str_or (BLEDevice.name d) ""))
    eqn:Hmatch; [|apply IH].
  cbn [map length]. destruct cb as [c|].
  - match goal with
    | |- context [found_callback radio (?found :: calls)] =>
        destruct (found_callback radio (found :: calls)) as [|e'] eqn:Hcall
    end.
    + intros H. destruct (IH _ _ H) as (Hcb & Hraise & n & Hn & Hcalls).
      split; [exact Hcb|]. split; [exact Hraise|].
      exists (S n). split; [lia|].
      rewrite Hcalls. cbn [firstn rev]. now rewrite <- app_assoc.
    + intros H. inversion H; subst e' calls'.
      split; [discriminate|]. split; [exact Hcall|].
      exists 0%nat. split; [lia|reflexivity].
  - intros H. destruct (IH _ _ H) as (Hcb & _). contradiction.
Qed.

(** X10.  A scan does not hide a failure and raises nothing of its own: an
    exception of [discover] is raised again as it is, before any callback
    call; and whenever [scan_for_panels] raises, the exception is that of
    [discover], or it is the one the callback raised on its last call, which
    was for one of the matching devices after a call for each matching
    device before it.  No list is returned then. *)
Theorem scan_raises_what_was_raised (timeout : Q) (name_prefix : string)
    (cb : option callback) (radio : scanner) :
  (forall e, discover radio timeout = Exc e ->
     scan_for_panels timeout name_prefix cb radio = (Exc e, []))
  /\ (forall e calls,
        scan_for_panels timeout name_prefix cb radio = (Exc e, calls) ->
        (discover radio timeout = Exc e /\ calls = [])
        \/ (exists devices n,
              discover radio timeout = Val devices
              /\ cb <> None
              /\ (n < length (matching_devices name_prefix devices))%nat
              /\ calls
                 = rev (firstn (S n) (matching_devices name_prefix devices))
              /\ found_callback radio calls = Raise e)).
Proof.
  unfold scan_for_panels. split.
  - intros e He. now rewrite He.
  - intros e calls. destruct (discover radio timeout) as [devices|e'].
    + intros H. right.
      destruct (scan_devices_raises _ _ _ _ _ _ _ _ H)
        as (Hcb & Hraise & n & Hn & Hcalls).
      exists devices, n. rewrite app_nil_r in Hcalls.
      split; [reflexivity|]. repeat (split; [assumption|]). exact Hraise.
    + intros H. inversion H. now left.
Qed.

(** The adapter is off; and a callback that raises on its second call. *)
Lemma scan_raises_what_was_raised_witness :
  scan_for_panels 10 PANEL_NAME_PREFIX None blind_scanner
    = (Exc (OtherException "Bluetooth is off"), [])
  /\ exists devices n,
       discover fussy_scanner 10 = Val devices
       /\ (n < length (matching_devices PANEL_NAME_PREFIX devices))%nat.
Proof.
  split.
  - apply (proj1 (scan_raises_what_was_raised 10 PANEL_NAME_PREFIX None
                    blind_scanner)).
    reflexivity.
  - destruct (proj2 (scan_raises_what_was_raised 10 PANEL_NAME_PREFIX
                       (Some Callback) fussy_scanner)
                (OtherException "enough")
                [("AA:BB:CC:DD:EE:02", "LED_BLE_3C4D");
                 ("aa:bb:cc:dd:ee:01", "LED_BLE_1A2B")] eq_refl)
      as [[Hdisc _]|(devices & n & Hdev & _ & Hn & _)].
    + discriminate Hdisc.
    + now exists devices, n.
Defined.

(** ** The configuration *)

Lemma dict_get_del_same {V} (k : string) (d : dict V) :
  dict_get k (dict_del k d) = None.
Proof.
  induction d as [|[k' v'] d IH]; simpl; [reflexivity|].
  destruct (String.eqb k k') eqn:E; [exact IH|].
  simpl. now rewrite E.
Qed.

Lemma dict_get_del_other {V} (k k' : string) (d : dict V) :
  k <> k' -> dict_get k' (dict_del k d) = dict_get k' d.
Proof.
  intros Hne. induction d as [|[k0 v0] d IH]; simpl; [reflexivity|].
  destruct (String.eqb k k0) eqn:E; simpl.
  - apply String.eqb_eq in E. subst k0.
    destruct (String.eqb k' k) eqn:E'; [|exact IH].
    apply String.eqb_eq in E'. congruence.
  - now rewrite IH.
Qed.

Lemma add_panel_keys (config : PanelConfig.t) (mac name : string)
    (enabled : bool) :
  map fst (PanelConfig.panels (fst (add_panel config mac name enabled)))
  = match get_panel_by_mac config mac with
    | Some _ => map fst (PanelConfig.panels config)
    | None => map fst (PanelConfig.panels config) ++ [upper mac]
    end.
Proof.
  unfold add_panel, get_panel_by_mac.
  cbn [fst PanelConfig.panels PanelConfig.set_panels].
  destruct (dict_get (upper mac) (PanelConfig.panels config)) eqn:Hget.
  - apply dict_set_present_keys. congruence.
  - now rewrite (dict_set_absent _ _ _ Hget), map_app.
Qed.

(** X11.  [add_panel] files the panel under the upper-cased address: the
    panel it returns has that address, the given name and flag, order 99,
    no grid position and no notes, and afterwards [get_panel_by_mac] finds
    it under every spelling of the address; an entry that was there for the
    address is replaced in its place, a new one is added at the end; the
    other entries and the grid are left alone. *)
Theorem added_panel_is_found (config : PanelConfig.t) (mac name : string)
    (enabled : bool) :
  let config' := fst (add_panel config mac name enabled) in
  let panel := snd (add_panel config mac name enabled) in
  panel = {| Panel.mac := upper mac; Panel.name := name;
             Panel.enabled := enabled; Panel.order := 99;
             Panel.grid_position := None; Panel.notes := "" |}
  /\ (forall mac', upper mac' = upper mac ->
        get_panel_by_mac config' mac' = Some panel)
  /\ (forall mac', upper mac' <> upper mac ->
        get_panel_by_mac config' mac' = get_panel_by_mac config mac')
  /\ PanelConfig.grid config' = PanelConfig.grid config
  /\ map fst (PanelConfig.panels config')
     = match get_panel_by_mac config mac with
       | Some _ => map fst (PanelConfig.panels config)
       | None => map fst (PanelConfig.panels config) ++ [upper mac]
       end.
Proof.
  cbv zeta. split; [|split; [|split; [|split]]].
  - unfold add_panel, Panel.init. cbn [snd]. now rewrite upper_idempotent.
  - intros mac' Hsame. unfold add_panel, get_panel_by_mac.
    cbn [fst snd PanelConfig.panels PanelConfig.set_panels].
    rewrite Hsame. apply dict_get_set_same.
  - intros mac' Hne. unfold add_panel, get_panel_by_mac.
    cbn [fst PanelConfig.panels PanelConfig.set_panels].
    apply dict_get_set_other. congruence.
  - reflexivity.
  - apply add_panel_keys.
Qed.

(** A panel that is configured is added again under another spelling: its
    order and its place are the default ones afterwards. *)
Lemma added_panel_is_found_witness :
  get_panel_by_mac
    (fst (add_panel demo_config "aa:bb:cc:dd:ee:01" "LED_BLE_1A2B" true))
    "AA:BB:CC:DD:EE:01"
  = Some (snd (add_panel demo_config "aa:bb:cc:dd:ee:01" "LED_BLE_1A2B" true)).
Proof.
  apply (added_panel_is_found demo_config "aa:bb:cc:dd:ee:01" "LED_BLE_1A2B"
           true).
  reflexivity.
Defined.

Lemma clear_slot_cleared (mac : string) (slot : option string) :
  clear_slot mac slot <> Some mac.
Proof.
  unfold clear_slot. destruct slot as [m|]; [|discriminate].
  destruct (String.eqb m mac) eqn:E; [discriminate|].
  apply String.eqb_neq in E. congruence.
Qed.

Lemma clear_slot_other (mac other : string) :
  other <> mac -> clear_slot mac (Some other) = Some other.
Proof.
  intros Hne. unfold clear_slot.
  destruct (String.eqb other mac) eqn:E; [|reflexivity].
  apply String.eqb_eq in E. contradiction.
Qed.

(** X12.  [remove_panel] returns True exactly when the upper-cased address
    is configured.  Then the entry is gone for every spelling of the
    address, every other entry is as it was, no corner of the grid names
    the upper-cased address any more, and a corner that names another
    address keeps it.  When it returns False the configuration is
    unchanged, a corner that names the address included. *)
Theorem removed_panel_is_gone (config : PanelConfig.t) (mac : string) :
  let config' := fst (remove_panel config mac) in
  let removed := snd (remove_panel config mac) in
  removed = match get_panel_by_mac config mac with
            | Some _ => true
            | None => false
            end
  /\ (forall mac', upper mac' = upper mac ->
        get_panel_by_mac config' mac' = None)
  /\ (forall mac', upper mac' <> upper mac ->
        get_panel_by_mac config' mac' = get_panel_by_mac config mac')
  /\ (removed = true ->
      Forall (fun corner => snd corner <> Some (upper mac))
        (grid_macs config')
      /\ forall position other,
           other <> upper mac ->
           In (position, Some other) (grid_macs config) ->
           In (position, Some other) (grid_macs config'))
  /\ (removed = false -> config' = config).
Proof.
  unfold remove_panel, get_panel_by_mac.
  destruct (dict_get (upper mac) (PanelConfig.panels config)) eqn:Hget;
    cbn [fst snd].
  - split; [reflexivity|]. split; [|split; [|split]].
    + intros mac' Hsame. rewrite Hsame. apply dict_get_del_same.
    + intros mac' Hne. apply dict_get_del_other. congruence.
    + intros _. split.
      * unfold grid_macs. cbn.
        repeat (constructor; [apply clear_slot_cleared|]). constructor.
      * intros position other Hne Hin. unfold grid_macs in *. cbn in *.
        repeat (destruct Hin as [Hin|Hin];
                [inversion Hin as [[Hp Hs]]; rewrite Hs;
                 rewrite (clear_slot_other _ _ Hne); tauto|]).
        contradiction.
    + intros H. discriminate H.
  - split; [reflexivity|]. split; [|split; [|split]].
    + intros mac' Hsame. now rewrite Hsame.
    + reflexivity.
    + intros H. discriminate H.
    + reflexivity.
Qed.

Lemma removed_panel_is_gone_witness :
  let config' := fst (remove_panel demo_config "aa:bb:cc:dd:ee:02") in
  get_panel_by_mac config' "AA:BB:CC:DD:EE:02" = None
  /\ Forall (fun corner => snd corner <> Some "AA:BB:CC:DD:EE:02")
       (grid_macs config')
  /\ fst (remove_panel demo_config "aa:bb:cc:dd:ee:04") = demo_config.
Proof.
  destruct (removed_panel_is_gone demo_config "aa:bb:cc:dd:ee:02")
    as (_ & Hgone & _ & Hgrid & _).
  destruct (removed_panel_is_gone demo_config "aa:bb:cc:dd:ee:04")
    as (_ & _ & _ & _ & Hsame).
  split; [exact (Hgone "AA:BB:CC:DD:EE:02" eq_refl)|].
  split; [exact (proj1 (Hgrid eq_refl))|exact (Hsame eq_refl)].
Defined.

Lemma insert_by_order_permutation (p : Panel.t) (l : list Panel.t) :
  Permutation (insert_by_order p l) (p :: l).
Proof.
  induction l as [|q l IH]; simpl; [apply Permutation_refl|].
  destruct (Panel.order p <=? Panel.order q)%Z; [apply Permutation_refl|].
  apply (perm_trans (perm_skip q IH)). apply perm_swap.
Qed.

Lemma insert_by_order_ascending (p : Panel.t) (l : list Panel.t) :
  ascending l -> ascending (insert_by_order p l).
Proof.
  unfold ascending. induction 1 as [|q l Hsorted IH Hq]; simpl.
  - constructor; constructor.
  - destruct (Panel.order p <=? Panel.order q)%Z eqn:Hle.
    + apply Z.leb_le in Hle. constructor.
      * now constructor.
      * constructor; [exact Hle|].
        eapply Forall_impl; [|exact Hq]. intros r Hr. simpl in Hr. lia.
    + apply Z.leb_gt in Hle. constructor; [exact IH|].
      apply (Permutation_Forall
               (Permutation_sym (insert_by_order_permutation p l))).
      constructor; [lia|exact Hq].
Qed.

Lemma insert_by_order_stable (k : Z) (p : Panel.t) (l : list Panel.t) :
  with_order k (insert_by_order p l) = with_order k (p :: l).
Proof.
  unfold with_order. induction l as [|q l IH]; [reflexivity|].
  cbn [insert_by_order].
  destruct (Panel.order p <=? Panel.order q)%Z eqn:Hle; [reflexivity|].
  apply Z.leb_gt in Hle. cbn [filter] in *. rewrite IH.
  destruct (Panel.order p =? k)%Z eqn:Hp; [|reflexivity].
  apply Z.eqb_eq in Hp.
  replace (Panel.order q =? k)%Z with false; [reflexivity|].
  symmetry. apply Z.eqb_neq. lia.
Qed.

(** X13.  [get_enabled_panels] returns every enabled panel of the
    configuration exactly once and no other, in ascending [order]; panels
    with the same [order] keep the order in which the configuration holds
    them. *)
Theorem enabled_panels_in_order (config : PanelConfig.t) :
  let enabled := filter Panel.enabled (map snd (PanelConfig.panels config)) in
  Permutation (get_enabled_panels config) enabled
  /\ ascending (get_enabled_panels config)
  /\ (forall k, with_order k (get_enabled_panels config)
                = with_order k enabled)
  /\ (ascending enabled -> get_enabled_panels config = enabled).
Proof.
  unfold get_enabled_panels. cbv zeta.
  generalize (filter Panel.enabled (map snd (PanelConfig.panels config))).
  intros l.
  assert (Hperm : Permutation (sorted_by_order l) l).
  { induction l as [|p l IH]; simpl; [constructor|].
    apply (perm_trans (insert_by_order_permutation p _)).
    now constructor. }
  split; [exact Hperm|]. split; [|split].
  - induction l as [|p l IH]; simpl; [constructor|].
    apply insert_by_order_ascending. apply IH.
    assert (Hl : Permutation (sorted_by_order l) l).
    { clear IH Hperm. induction l as [|q l IH]; simpl; [constructor|].
      apply (perm_trans (insert_by_order_permutation q _)).
      now constructor. }
    exact Hl.
  - intros k. clear Hperm. induction l as [|p l IH]; [reflexivity|].
    cbn [sorted_by_order fold_right]. rewrite insert_by_order_stable.
    unfold with_order in *. cbn [filter]. fold (sorted_by_order l).
    now rewrite IH.
  - clear Hperm. unfold ascending.
    induction 1 as [|p l Hsorted IH Hp]; [reflexivity|].
    cbn [sorted_by_order fold_right]. fold (sorted_by_order l). rewrite IH.
    destruct l as [|q l]; [reflexivity|]. cbn [insert_by_order].
    inversion Hp as [|? ? Hpq _]; subst.
    apply Z.leb_le in Hpq. now rewrite Hpq.
Qed.

(** The two enabled panels of [demo_config]: "right" (order 1) comes before
    "left" (order 2), "middle" is left out. *)
Lemma enabled_panels_in_order_witness :
  get_enabled_panels
    (PanelConfig.set_panels PanelConfig.default
       [("AA:BB:CC:DD:EE:03", demo_panel "AA:BB:CC:DD:EE:03" "right" 1 true);
        ("AA:BB:CC:DD:EE:01", demo_panel "AA:BB:CC:DD:EE:01" "left" 2 true)])
  = [demo_panel "AA:BB:CC:DD:EE:03" "right" 1 true;
     demo_panel "AA:BB:CC:DD:EE:01" "left" 2 true].
Proof.
  apply (enabled_panels_in_order
           (PanelConfig.set_panels PanelConfig.default
              [("AA:BB:CC:DD:EE:03",
                demo_panel "AA:BB:CC:DD:EE:03" "right" 1 true);
               ("AA:BB:CC:DD:EE:01",
                demo_panel "AA:BB:CC:DD:EE:01" "left" 2 true)])).
  unfold ascending. cbn.
  repeat constructor. cbn. lia.
Defined.

Lemma get_grid_panels_resolved (config : PanelConfig.t) :
  get_grid_panels config
  = flat_map (fun corner =>
                match slot_panel (PanelConfig.panels config) (snd corner) with
                | Some panel => [(fst corner, panel)]
                | None => []
                end) (grid_macs config).
Proof.
  unfold get_grid_panels, grid_macs, slot_panel.
  cbn [collect_grid flat_map fst snd].
  destruct (GridConfig.linksboven (PanelConfig.grid config)) as [m1|];
    [destruct (String.eqb m1 "");
     [|destruct (dict_get m1 (PanelConfig.panels config))]|];
    (destruct (GridConfig.rechtsboven (PanelConfig.grid config)) as [m2|];
     [destruct (String.eqb m2 "");
      [|destruct (dict_get m2 (PanelConfig.panels config))]|]);
    (destruct (GridConfig.linksonder (PanelConfig.grid config)) as [m3|];
     [destruct (String.eqb m3 "");
      [|destruct (dict_get m3 (PanelConfig.panels config))]|]);
    (destruct (GridConfig.rechtsonder (PanelConfig.grid config)) as [m4|];
     [destruct (String.eqb m4 "");
      [|destruct (dict_get m4 (PanelConfig.panels config))]|]);
    reflexivity.
Qed.

Lemma get_grid_panels_length (config : PanelConfig.t) :
  (length (get_grid_panels config) <= 4)%nat
  /\ (length (get_grid_panels config) = 4%nat <->
      Forall (fun corner =>
                slot_panel (PanelConfig.panels config) (snd corner) <> None)
        (grid_macs config)).
Proof.
  rewrite get_grid_panels_resolved. unfold grid_macs.
  cbn [flat_map fst snd].
  destruct (slot_panel _ (GridConfig.linksboven _)) as [p1|] eqn:E1;
    destruct (slot_panel _ (GridConfig.rechtsboven _)) as [p2|] eqn:E2;
    destruct (slot_panel _ (GridConfig.linksonder _)) as [p3|] eqn:E3;
    destruct (slot_panel _ (GridConfig.rechtsonder _)) as [p4|] eqn:E4;
    cbn [app length]; (split; [lia|]);
    (split;
     [intros Hlen; try discriminate Hlen;
      repeat (constructor; [cbn [snd]; congruence|]); constructor
     |intros Hall; try reflexivity;
      repeat match goal with
             | H : Forall _ (_ :: _) |- _ => inversion H; clear H; subst
             end;
      cbn [snd] in *; congruence]).
Qed.

(** X14.  [get_grid_panels] holds, in the fixed order linksboven,
    rechtsboven, linksonder, rechtsonder, exactly the corners whose slot
    names an address that is a key of the configuration as it is spelled in
    the slot (an empty slot, the empty string and an address that is not a
    key are left out), each with the panel filed under that address; so it
    has four entries exactly when all four corners resolve. *)
Theorem grid_panels_resolve (config : PanelConfig.t) :
  let panels := PanelConfig.panels config in
  let resolved corner :=
    match slot_panel panels (snd corner) with
    | Some panel => [(fst corner, panel)]
    | None => []
    end in
  get_grid_panels config = flat_map resolved (grid_macs config)
  /\ (length (get_grid_panels config) <= 4)%nat
  /\ (length (get_grid_panels config) = 4%nat <->
      Forall (fun corner => slot_panel panels (snd corner) <> None)
        (grid_macs config)).
Proof.
  cbv zeta. split; [apply get_grid_panels_resolved|].
  apply get_grid_panels_length.
Qed.

(** Of the three corners that [demo_config] fills, the one spelled in
    lower case does not resolve. *)
Lemma grid_panels_resolve_witness :
  map fst (get_grid_panels demo_config) = ["linksboven"; "rechtsonder"]
  /\ length (get_grid_panels demo_config) <> 4%nat.
Proof.
  destruct (grid_panels_resolve demo_config) as (Hlist & _ & Hfour).
  split; [now rewrite Hlist|].
  intros Hlen. apply Hfour in Hlen.
  inversion Hlen as [|? ? _ Hrest]; subst.
  inversion Hrest as [|? ? Hrb _]; subst.
  apply Hrb. reflexivity.
Defined.

Lemma dict_get_absent {V} (k : string) (d : dict V) :
  ~ In k (map fst d) -> dict_get k d = None.
Proof.
  induction d as [|[k' v'] d IH]; simpl; intros Hnotin; [reflexivity|].
  destruct (String.eqb k k') eqn:E.
  - apply String.eqb_eq in E. subst k'. exfalso. apply Hnotin. now left.
  - apply IH. intros Hin. apply Hnotin. now right.
Qed.

Lemma dict_get_present {V} (k : string) (v : V) (d : dict V) :
  dict_get k d = Some v -> In k (map fst d).
Proof.
  induction d as [|[k' v'] d IH]; simpl; intros H; [discriminate|].
  destruct (String.eqb k k') eqn:E.
  - apply String.eqb_eq in E. now left.
  - right. now apply IH.
Qed.

Lemma panel_of_data_of_panel (key : string) (panel : Panel.t) :
  upper (Panel.mac panel) = Panel.mac panel ->
  panel_of_data key (data_of_panel panel) = Some panel.
Proof.
  intros Hmac. destruct panel as [m n e i [g|] t]; cbn in Hmac |- *;
    unfold Panel.init; now rewrite Hmac.
Qed.

Lemma load_panels_of_data (panels : dict Panel.t) :
  forall loaded,
    NoDup (map fst (loaded ++ panels)) ->
    Forall (fun kv => upper (fst kv) = fst kv
                      /\ upper (Panel.mac (snd kv)) = Panel.mac (snd kv))
      panels ->
    load_panels (map (fun kv => (fst kv, data_of_panel (snd kv))) panels)
      loaded
    = Some (loaded ++ panels).
Proof.
  induction panels as [|[key panel] rest IH]; intros loaded Hnd Hnorm.
  - cbn. now rewrite app_nil_r.
  - inversion Hnorm as [|? ? [Hkey Hmac] Hrest]; subst.
    cbn [map fst snd load_panels] in *.
    rewrite (panel_of_data_of_panel key panel Hmac). cbn [and_then].
    rewrite Hkey.
    assert (Habsent : dict_get key loaded = None).
    { apply dict_get_absent. rewrite map_app in Hnd. cbn in Hnd.
      apply NoDup_remove_2 in Hnd. intros Hin. apply Hnd.
      apply in_or_app. now left. }
    rewrite (dict_set_absent _ _ _ Habsent).
    rewrite IH; [now rewrite <- app_assoc| |exact Hrest].
    now rewrite <- app_assoc.
Qed.

(** X15.  What [save_config] writes, [load_config] reads back: for a
    configuration whose keys and whose panels' addresses are upper-cased
    (as [add_panel] and [load_config] leave them), the data that
    [save_config] builds is loaded as that very configuration, panels in
    the same order, grid and settings included. *)
Theorem saved_config_loads_back (config : PanelConfig.t) :
  NoDup (map fst (PanelConfig.panels config)) ->
  Forall (fun kv => upper (fst kv) = fst kv
                    /\ upper (Panel.mac (snd kv)) = Panel.mac (snd kv))
    (PanelConfig.panels config) ->
  config_of_data (data_of_config config) = Some config.
Proof.
  intros Hnd Hnorm. unfold config_of_data, data_of_config.
  unfold get_object at 1. cbn [dict_get String.eqb Ascii.eqb Bool.eqb].
  cbn [and_then PanelConfig.panels PanelConfig.default].
  rewrite (load_panels_of_data (PanelConfig.panels config) [] Hnd Hnorm).
  cbn [and_then app].
  destruct config as [ps [lb rb lo ro] t1 t2 d1 rc d2 host port].
  destruct lb, rb, lo, ro; reflexivity.
Qed.

Lemma saved_config_loads_back_witness :
  config_of_data (data_of_config demo_config) = Some demo_config.
Proof.
  apply (saved_config_loads_back demo_config).
  - cbn. repeat constructor; cbn; intuition discriminate.
  - cbn. repeat constructor.
Defined.

(** ** Merging a scan into the configuration *)

Lemma add_panel_keys_upper (config : PanelConfig.t) (mac name : string)
    (enabled : bool) :
  config_keys_upper config ->
  config_keys_upper (fst (add_panel config mac name enabled)).
Proof.
  unfold config_keys_upper. intros Hkeys. rewrite add_panel_keys.
  destruct (get_panel_by_mac config mac); [exact Hkeys|].
  apply Forall_app. split; [exact Hkeys|].
  constructor; [apply upper_idempotent|constructor].
Qed.

Lemma add_panel_keeps_configured (config : PanelConfig.t)
    (mac name : string) (enabled : bool) (key : string) :
  dict_get key (PanelConfig.panels config) <> None ->
  dict_get key (PanelConfig.panels (fst (add_panel config mac name enabled)))
  <> None.
Proof.
  unfold add_panel. cbn [fst PanelConfig.panels PanelConfig.set_panels].
  intros Hthere. destruct (String.eqb (upper mac) key) eqn:E.
  - apply String.eqb_eq in E. subst key. now rewrite dict_get_set_same.
  - apply String.eqb_neq in E. now rewrite dict_get_set_other.
Qed.

Lemma merge_discovered_keeps_configured (discovered : list (string * string)) :
  forall config added key,
    dict_get key (PanelConfig.panels config) <> None ->
    dict_get key
      (PanelConfig.panels (fst (merge_discovered config discovered added)))
    <> None.
Proof.
  induction discovered as [|[mac name] rest IH]; intros config added key Hkey;
    cbn [merge_discovered]; [exact Hkey|].
  destruct (dict_get mac (PanelConfig.panels config)).
  - now apply IH.
  - apply IH. now apply add_panel_keeps_configured.
Qed.

Lemma merge_discovered_counts (discovered : list (string * string)) :
  forall config added,
    (added <= snd (merge_discovered config discovered added)
     <= added + Z.of_nat (length discovered))%Z.
Proof.
  induction discovered as [|[mac name] rest IH]; intros config added;
    cbn [merge_discovered length]; [simpl; lia|].
  destruct (dict_get mac (PanelConfig.panels config)).
  - specialize (IH config added). lia.
  - specialize (IH (fst (add_panel config mac name true)) (added + 1)%Z).
    lia.
Qed.

(** X16.  Merging a scan into a configuration whose keys are upper-cased
    (cli/scan.py, web/server.py): afterwards every discovered address is
    configured, whatever its spelling; the count of added panels grows by
    at most one per discovered entry; and when the scan reports its
    addresses in upper case, every panel that was configured is left as it
    was. *)
Theorem merge_configures_discovered (config : PanelConfig.t)
    (discovered : list (string * string)) (added : Z) :
  config_keys_upper config ->
  let merged := fst (merge_discovered config discovered added) in
  let count := snd (merge_discovered config discovered added) in
  (forall mac name,
     In (mac, name) discovered -> get_panel_by_mac merged mac <> None)
  /\ (added <= count <= added + Z.of_nat (length discovered))%Z
  /\ (Forall (fun found => upper (fst found) = fst found) discovered ->
      forall key panel,
        dict_get key (PanelConfig.panels config) = Some panel ->
        dict_get key (PanelConfig.panels merged) = Some panel).
Proof.
  intros Hkeys. cbv zeta. split; [|split].
  - revert config added Hkeys.
    induction discovered as [|[mac name] rest IH];
      intros config added Hkeys mac' name' Hin; [contradiction|].
    cbn [merge_discovered]. unfold get_panel_by_mac.
    destruct Hin as [Hhere|Hlater].
    + inversion Hhere; subst mac' name'.
      destruct (dict_get mac (PanelConfig.panels config)) eqn:Hget.
      * apply merge_discovered_keeps_configured.
        pose proof (dict_get_present _ _ _ Hget) as Hin.
        unfold config_keys_upper in Hkeys.
        rewrite Forall_forall in Hkeys. rewrite (Hkeys mac Hin).
        congruence.
      * apply merge_discovered_keeps_configured.
        unfold add_panel.
        cbn [fst PanelConfig.panels PanelConfig.set_panels].
        rewrite dict_get_set_same. discriminate.
    + destruct (dict_get mac (PanelConfig.panels config)).
      * now apply (IH config added Hkeys mac' name').
      * apply (IH _ _ (add_panel_keys_upper config mac name true Hkeys)
                 mac' name' Hlater).
  - apply merge_discovered_counts.
  - intros Hupper. revert config added Hkeys.
    induction Hupper as [|[mac name] rest Hmac _ IH];
      intros config added Hkeys key panel Hget;
      cbn [merge_discovered]; [exact Hget|].
    cbn [fst] in Hmac.
    destruct (dict_get mac (PanelConfig.panels config)) eqn:Hknown.
    + now apply IH.
    + apply IH; [now apply add_panel_keys_upper|].
      unfold add_panel. cbn [fst PanelConfig.panels PanelConfig.set_panels].
      rewrite Hmac. rewrite dict_get_set_other; [exact Hget|].
      intros Hsame. subst key. congruence.
Qed.

(** A scan that finds a configured panel and a new one. *)
Lemma merge_configures_discovered_witness :
  let merged :=
    fst (merge_discovered demo_config
           [("AA:BB:CC:DD:EE:01", "LED_BLE_1A2B");
            ("AA:BB:CC:DD:EE:04", "LED_BLE_7E8F")] 0) in
  get_panel_by_mac merged "aa:bb:cc:dd:ee:04" <> None
  /\ dict_get "AA:BB:CC:DD:EE:01" (PanelConfig.panels merged)
     = Some (demo_panel "AA:BB:CC:DD:EE:01" "left" 2 true).
Proof.
  assert (Hkeys : config_keys_upper demo_config)
    by (unfold config_keys_upper; cbn; repeat constructor).
  destruct (merge_configures_discovered demo_config
              [("AA:BB:CC:DD:EE:01", "LED_BLE_1A2B");
               ("AA:BB:CC:DD:EE:04", "LED_BLE_7E8F")] 0 Hkeys)
    as (Hfound & _ & Hkept).
  split.
  - apply (Hfound "AA:BB:CC:DD:EE:04" "LED_BLE_7E8F"). right. now left.
  - apply Hkept; [|reflexivity].
    repeat constructor.
Defined.

(** X17.  The merge looks the discovered address up as it is spelled, but
    the configuration files panels under upper-cased addresses: a panel
    that is configured and is discovered under a spelling that is not all
    upper case counts as new and is filed again, so its entry is replaced
    by a default one (the discovered name, enabled, order 99, no grid
    position, no notes) in its old place. *)
Theorem rediscovery_in_lower_case_resets_panel (config : PanelConfig.t)
    (mac name : string) (old : Panel.t) (rest : list (string * string))
    (added : Z) :
  config_keys_upper config ->
  upper mac <> mac ->
  get_panel_by_mac config mac = Some old ->
  let reset := {| Panel.mac := upper mac; Panel.name := name;
                  Panel.enabled := true; Panel.order := 99;
                  Panel.grid_position := None; Panel.notes := "" |} in
  let config1 :=
    PanelConfig.set_panels config
      (dict_set (upper mac) reset (PanelConfig.panels config)) in
  merge_discovered config ((mac, name) :: rest) added
    = merge_discovered config1 rest (added + 1)
  /\ get_panel_by_mac config1 mac = Some reset
  /\ map fst (PanelConfig.panels config1)
     = map fst (PanelConfig.panels config).
Proof.
  intros Hkeys Hlower Hold reset config1.
  assert (Hraw : dict_get mac (PanelConfig.panels config) = None).
  { apply dict_get_absent. intros Hin.
    unfold config_keys_upper in Hkeys. rewrite Forall_forall in Hkeys.
    apply Hlower. now apply Hkeys. }
  split; [|split].
  - cbn [merge_discovered]. rewrite Hraw. unfold add_panel, Panel.init.
    cbn [fst]. now rewrite upper_idempotent.
  - unfold get_panel_by_mac, config1.
    cbn [PanelConfig.panels PanelConfig.set_panels].
    apply dict_get_set_same.
  - unfold config1. cbn [PanelConfig.panels PanelConfig.set_panels].
    apply dict_set_present_keys. unfold get_panel_by_mac in Hold. congruence.
Qed.

Lemma rediscovery_in_lower_case_resets_panel_witness :
  merge_discovered demo_config [("aa:bb:cc:dd:ee:01", "LED_BLE_1A2B")] 0
  = (PanelConfig.set_panels demo_config
       (dict_set "AA:BB:CC:DD:EE:01"
          (demo_panel "AA:BB:CC:DD:EE:01" "LED_BLE_1A2B" 99 true)
          (PanelConfig.panels demo_config)), 1%Z).
Proof.
  assert (Hkeys : config_keys_upper demo_config)
    by (unfold config_keys_upper; cbn; repeat constructor).
  assert (Hlower : upper "aa:bb:cc:dd:ee:01" <> "aa:bb:cc:dd:ee:01")
    by (intros H; discriminate H).
  rewrite (proj1 (rediscovery_in_lower_case_resets_panel demo_config
                    "aa:bb:cc:dd:ee:01" "LED_BLE_1A2B"
                    (demo_panel "AA:BB:CC:DD:EE:01" "left" 2 true) [] 0
                    Hkeys Hlower eq_refl)).
  reflexivity.
Defined.

(** X18.  The "save panel" step of the interactive setup (cli/setup.py):
    it fails with the [KeyError] of [config.panels[mac]] exactly when the
    address as the scan spelled it is not a key of the configuration and is
    not all upper case, because [add_panel] has filed the new panel under
    the upper-cased address; in every other case the panel under the
    address as spelled has the entered name and the order [i] afterwards. *)
Theorem setup_save_needs_upper_case (config : PanelConfig.t)
    (mac name : string) (i : Z) :
  (setup_save_panel config mac name i = None <->
   dict_get mac (PanelConfig.panels config) = None /\ upper mac <> mac)
  /\ (forall config',
        setup_save_panel config mac name i = Some config' ->
        exists panel,
          dict_get mac (PanelConfig.panels config') = Some panel
          /\ Panel.name panel = name
          /\ Panel.order panel = i).
Proof.
  unfold setup_save_panel.
  destruct (dict_get mac (PanelConfig.panels config)) as [p|] eqn:Hraw.
  - cbn [PanelConfig.panels PanelConfig.set_panels].
    rewrite dict_get_set_same. cbv beta iota. split.
    + split; [intros H; discriminate H|intros [H _]; discriminate H].
    + intros config' H. inversion H; clear H.
      eexists. split; [apply dict_get_set_same|]. split; reflexivity.
  - unfold add_panel. cbn [fst PanelConfig.panels PanelConfig.set_panels].
    destruct (String.eqb (upper mac) mac) eqn:E.
    + apply String.eqb_eq in E. rewrite !E. rewrite dict_get_set_same.
      cbv beta iota. split.
      * split; [intros H; discriminate H|intros [_ H]; contradiction].
      * intros config' H. inversion H; clear H.
        eexists. split; [apply dict_get_set_same|]. split; reflexivity.
    + apply String.eqb_neq in E.
      rewrite (dict_get_set_other _ _ _ _ E), Hraw. split.
      * split; [intros _; now split|reflexivity].
      * intros config' H. discriminate H.
Qed.

(** A new panel that the scan spelled in lower case, and the same panel
    spelled in upper case. *)
Lemma setup_save_needs_upper_case_witness :
  setup_save_panel demo_config "aa:bb:cc:dd:ee:04" "fourth" 4 = None
  /\ setup_save_panel demo_config "AA:BB:CC:DD:EE:04" "fourth" 4 <> None.
Proof.
  split.
  - apply (proj1 (setup_save_needs_upper_case demo_config
                    "aa:bb:cc:dd:ee:04" "fourth" 4)).
    split; [reflexivity|intros H; discriminate H].
  - intros H.
    apply (proj1 (setup_save_needs_upper_case demo_config
                    "AA:BB:CC:DD:EE:04" "fourth" 4)) in H.
    destruct H as [_ H]. apply H. reflexivity.
Defined.

(** ** The callers that send *)

Lemma count_successes_bounds (outcomes : list (string * bool * string)) :
  (0 <= count_successes outcomes <= Z.of_nat (length outcomes))%Z
  /\ (count_successes outcomes = Z.of_nat (length outcomes) <->
      Forall (fun o => snd (fst o) = true) outcomes).
Proof.
  induction outcomes as [|[[mac ok] msg] rest [IHb IHall]].
  - cbn. split; [lia|]. split; [constructor|reflexivity].
  - cbn [count_successes fold_right length fst snd].
    fold (count_successes rest). rewrite Nat2Z.inj_succ.
    destruct ok.
    + split; [lia|]. split.
      * intros H. constructor; [reflexivity|]. apply IHall. lia.
      * intros H. inversion H; subst. apply IHall in H3. lia.
    + split; [lia|]. split.
      * intros H. lia.
      * intros H. inversion H; subst. discriminate.
Qed.

Lemma count_successes_left (outcomes : list (string * bool * string)) :
  forall n,
    fold_left (fun n (r : string * bool * string) =>
                     if snd (fst r) then n + 1 else n)%Z outcomes n
    = (n + count_successes outcomes)%Z.
Proof.
  induction outcomes as [|[[mac ok] msg] rest IH]; intros n.
  - cbn. lia.
  - cbn [fold_left count_successes fold_right fst snd].
    fold (count_successes rest). rewrite IH. destruct ok; lia.
Qed.

(** The loop over the positions is the fan-out over the panels of those
    positions, told by position. *)
Lemma send_positions_fan_out (controller : PanelController.t)
    (grid_panels : dict Panel.t) (parts : string -> bytes) (W : world)
    (todo : list string) :
  Forall (fun position => dict_get position grid_panels <> None) todo ->
  forall results count sent st,
  exists outcomes st',
    send_each controller (grid_targets grid_panels parts todo) None sent W st
      = (Val (sent ++ outcomes), st')
    /\ send_positions controller grid_panels parts todo results count W st
       = (Val (results ++ by_position todo outcomes,
               (count + count_successes outcomes)%Z), st')
    /\ length outcomes = length todo.
Proof.
  induction 1 as [|position rest Hthere _ IH]; intros results count sent st.
  - exists [], st. cbn. unfold ret. rewrite !app_nil_r, Z.add_0_r.
    repeat split.
  - cbn [send_positions grid_targets flat_map].
    destruct (dict_get position grid_panels) as [panel|]; [|congruence].
    cbn [app send_each]. unfold bind.
    destruct (proj2 (send_to_panel_spec controller (Panel.mac panel)
                       (parts position) (Some position) None W st)
                (or_introl eq_refl)) as [out Hout].
    destruct (send_to_panel controller (Panel.mac panel) (parts position)
                (Some position) None W st) as [[out'|e] st1];
      cbn [fst] in Hout; [|discriminate Hout].
    inversion Hout; subst out'.
    destruct (IH (results ++ [(position, fst out, snd out)])
                (if fst out then count + 1 else count)%Z
                (sent ++ [(Panel.mac panel, fst out, snd out)]) st1)
      as (outcomes & st' & Hfan & Hloop & Hlen).
    exists ((Panel.mac panel, fst out, snd out) :: outcomes), st'.
    fold (grid_targets grid_panels parts rest).
    rewrite Hfan, Hloop, <- !app_assoc.
    split; [reflexivity|]. split; [|cbn; now rewrite Hlen].
    unfold by_position. cbn [combine map fst snd app count_successes
                              fold_right].
    fold (count_successes outcomes).
    assert (Hcount :
              ((if fst out then count + 1 else count)
               + count_successes outcomes
               = count + (if fst out then count_successes outcomes + 1
                          else count_successes outcomes))%Z)
      by (destruct (fst out); lia).
    now rewrite Hcount.
Qed.

Lemma full_grid_resolves (config : PanelConfig.t) :
  length (get_grid_panels config) = 4%nat ->
  Forall (fun position =>
            dict_get position (get_grid_panels config) <> None) send_order.
Proof.
  intros Hlen. apply (proj2 (get_grid_panels_length config)) in Hlen.
  rewrite get_grid_panels_resolved. unfold grid_macs in *.
  repeat match goal with
         | H : Forall _ (_ :: _) |- _ => inversion H; clear H; subst
         end.
  cbn [snd flat_map fst] in *.
  destruct (slot_panel _ (GridConfig.linksboven _)); [|congruence].
  destruct (slot_panel _ (GridConfig.rechtsboven _)); [|congruence].
  destruct (slot_panel _ (GridConfig.linksonder _)); [|congruence].
  destruct (slot_panel _ (GridConfig.rechtsonder _)); [|congruence].
  unfold send_order. repeat constructor; cbn; discriminate.
Qed.

(** X19.  A grid request of the web server: it is refused, before anything
    is sent, exactly when fewer than four corners of the grid resolve;
    otherwise it is the fan-out of the default controller over the four
    panels in the order rechtsonder, linksonder, rechtsboven, linksboven,
    each with its own quarter: it does not raise, answers one result per
    position in that order with the outcome of that panel's send, counts
    the positive ones, never answers "not configured", and offers the four
    addresses to the pool in that order. *)
Theorem grid_send_is_a_fan_out (config : PanelConfig.t)
    (parts : string -> bytes) (W : world) (st : state) :
  let grid_panels := get_grid_panels config in
  let targets := grid_targets grid_panels parts send_order in
  ((length grid_panels < 4)%nat ->
   send_to_grid config parts W st = (Val None, st))
  /\ (length grid_panels = 4%nat ->
      exists outcomes st',
        send_to_multiple PanelController.default targets None W st
          = (Val outcomes, st')
        /\ send_to_grid config parts W st
           = (Val (Some (count_successes outcomes,
                         by_position send_order outcomes)), st')
        /\ length outcomes = 4%nat
        /\ map outcome_address outcomes = map target_address targets
        /\ pool_keys st'
           = fold_left offer (map target_address targets) (pool_keys st)).
Proof.
  cbv zeta. split.
  - intros Hshort. unfold send_to_grid. apply Nat.ltb_lt in Hshort.
    now rewrite Hshort.
  - intros Hfull. unfold send_to_grid, send_to_multiple.
    rewrite Hfull. cbn [Nat.ltb Nat.leb].
    destruct (send_positions_fan_out PanelController.default
                (get_grid_panels config) parts W send_order
                (full_grid_resolves config Hfull) [] 0%Z [] st)
      as (outcomes & st' & Hfan & Hloop & Hlen).
    exists outcomes, st'. cbn [app] in Hfan, Hloop.
    split; [exact Hfan|]. split; [|split; [exact Hlen|split]].
    + unfold bind. rewrite Hloop. unfold ret. cbn [fst snd].
      now rewrite Z.add_0_l.
    + destruct (send_each_addresses _ _ _ _ _ _ _ _ Hfan)
        as (new & Hnew & Haddr).
      cbn [app] in Hnew. now subst new.
    + pose proof (send_each_keys PanelController.default None W
                    (grid_targets (get_grid_panels config) parts send_order)
                    eq_refl (or_introl eq_refl) [] st) as Hkeys.
      now rewrite Hfan in Hkeys.
Qed.

(** A full grid with the panel of rechtsboven out of reach; and the grid
    of [demo_config], which names three corners. *)
Lemma grid_send_is_a_fan_out_witness :
  fst (send_to_grid demo_grid_config demo_parts
         (dead_panel_world "AA:BB:CC:DD:EE:02") initial_state)
  = Val (Some (3%Z, [("rechtsonder", true, "OK");
                     ("linksonder", true, "OK");
                     ("rechtsboven", false, "Device not found");
                     ("linksboven", true, "OK")]))
  /\ send_to_grid demo_config demo_parts calm_world initial_state
     = (Val None, initial_state).
Proof.
  destruct (grid_send_is_a_fan_out demo_grid_config demo_parts
              (dead_panel_world "AA:BB:CC:DD:EE:02") initial_state)
    as [_ Hfull].
  destruct (Hfull eq_refl) as (outcomes & st' & Hfan & Hgrid & _).
  destruct (grid_send_is_a_fan_out demo_config demo_parts calm_world
              initial_state) as [Hshort _].
  split; [|apply Hshort; cbn; lia].
  rewrite Hgrid. cbn [fst].
  assert (Hout : outcomes
                 = [("AA:BB:CC:DD:EE:04", true, "OK");
                    ("AA:BB:CC:DD:EE:03", true, "OK");
                    ("AA:BB:CC:DD:EE:02", false, "Device not found");
                    ("AA:BB:CC:DD:EE:01", true, "OK")]).
  { apply (f_equal fst) in Hfan. cbn [fst] in Hfan.
    assert (Hrun : fst (send_to_multiple PanelController.default
                          (grid_targets (get_grid_panels demo_grid_config)
                             demo_parts send_order) None
                          (dead_panel_world "AA:BB:CC:DD:EE:02")
                          initial_state)
                   = Val [("AA:BB:CC:DD:EE:04", true, "OK");
                          ("AA:BB:CC:DD:EE:03", true, "OK");
                          ("AA:BB:CC:DD:EE:02", false, "Device not found");
                          ("AA:BB:CC:DD:EE:01", true, "OK")])
      by (vm_compute; reflexivity).
    rewrite Hrun in Hfan. now inversion Hfan. }
  rewrite Hout. reflexivity.
Defined.

(** X20.  A send-to-all request of the web server: it is refused, before
    anything is sent, exactly when no panel is enabled; otherwise it does
    not raise and answers one result per enabled panel, in ascending
    [order], under the panel's configured address; [total] is the number of
    results and [success_count] the number of positive ones. *)
Theorem send_to_all_reports_every_enabled_panel (config : PanelConfig.t)
    (png : bytes) (W : world) (st : state) :
  (get_enabled_panels config = [] ->
   send_to_all config png W st = (Val None, st))
  /\ (get_enabled_panels config <> [] ->
      exists results st',
        send_to_all config png W st
          = (Val (Some (count_successes results,
                        Z.of_nat (length results), results)), st')
        /\ map outcome_address results
           = map Panel.mac (get_enabled_panels config)
        /\ (0 <= count_successes results <= Z.of_nat (length results))%Z
        /\ (count_successes results = Z.of_nat (length results) <->
            Forall (fun r => snd (fst r) = true) results)).
Proof.
  unfold send_to_all. split.
  - intros Hnone. now rewrite Hnone.
  - intros Hsome.
    destruct (get_enabled_panels config) as [|p enabled] eqn:Hen;
      [congruence|].
    cbv zeta. unfold send_same_to_all, send_to_multiple.
    destruct (proj2 (send_each_spec PanelController.default None W
                       (map (fun m => (fst m, snd m, png))
                          (map (fun q => (Panel.mac q, Panel.name q))
                             (p :: enabled))) [] st)
                (or_introl eq_refl))
      as (results & st' & Hrun & Haddr).
    cbn [app] in Hrun. unfold bind. rewrite Hrun. unfold ret.
    rewrite !map_map in Haddr. cbn [target_address fst] in Haddr.
    assert (Hlen : length results = length (p :: enabled)).
    { apply (f_equal (@length string)) in Haddr.
      now rewrite !length_map in Haddr. }
    exists results, st'. rewrite count_successes_left, Z.add_0_l, <- Hlen.
    split; [reflexivity|]. split; [exact Haddr|].
    apply count_successes_bounds.
Qed.

(** The enabled panels of [demo_config], "right" before "left"; and a
    configuration without panels. *)
Lemma send_to_all_reports_every_enabled_panel_witness :
  (exists results st',
     send_to_all demo_config demo_png calm_world initial_state
       = (Val (Some (count_successes results, Z.of_nat (length results),
                     results)), st')
     /\ map outcome_address results
        = ["AA:BB:CC:DD:EE:03"; "AA:BB:CC:DD:EE:01"])
  /\ send_to_all PanelConfig.default demo_png calm_world initial_state
     = (Val None, initial_state).
Proof.
  destruct (send_to_all_reports_every_enabled_panel demo_config demo_png
              calm_world initial_state) as [_ Hsome].
  destruct (send_to_all_reports_every_enabled_panel PanelConfig.default
              demo_png calm_world initial_state) as [Hnone _].
  split; [|apply Hnone; reflexivity].
  destruct Hsome as (results & st' & Hrun & Haddr & _); [discriminate|].
  exists results, st'. split; [exact Hrun|]. rewrite Haddr. reflexivity.
Defined.

(** ** Dot-matrix text *)

Lemma list_ascii_of_upper (text : string) :
  list_ascii_of_string (upper text)
  = map upper_ascii (list_ascii_of_string text).
Proof.
  induction text as [|c text IH]; cbn; [reflexivity|]. now rewrite IH.
Qed.

Lemma text_width_loop (chars : list ascii) :
  forall width,
    fold_left (fun width char =>
                 match glyph char with
                 | Some _ => width + (CHAR_WIDTH + CHAR_SPACING)
                 | None => width
                 end)%Z (map upper_ascii chars) width
    = (width + 6 * Z.of_nat (length (filter known_char chars)))%Z.
Proof.
  induction chars as [|c chars IH]; intros width; cbn [map fold_left filter].
  - cbn. lia.
  - rewrite IH. unfold known_char at 2.
    destruct (glyph (upper_ascii c)); cbn [length].
    + unfold CHAR_WIDTH, CHAR_SPACING. lia.
    + lia.
Qed.

Lemma list_ascii_length (s : string) :
  length (list_ascii_of_string s) = String.length s.
Proof. induction s as [|c s IH]; cbn; [reflexivity|]. now rewrite IH. Qed.


Lemma filter_all_known (chars : list ascii) :
  forallb known_char chars = true -> filter known_char chars = chars.
Proof.
  induction chars as [|c l IH]; intros Hknown; [reflexivity|].
  cbn [forallb] in Hknown. apply andb_true_iff in Hknown.
  destruct Hknown as [Hc Hl]. cbn [filter]. rewrite Hc. now rewrite IH.
Qed.

Lemma isascii_upper (text : string) : isascii (upper text) = isascii text.
Proof.
  unfold isascii. induction text as [|c text IH]; [reflexivity|].
  cbn [upper list_ascii_of_string forallb]. rewrite IH. f_equal.
  unfold upper_ascii.
  destruct ((97 <=? nat_of_ascii c)%nat && (nat_of_ascii c <=? 122)%nat)
    eqn:E; [|reflexivity].
  apply andb_true_iff in E. destruct E as [E1 E2].
  apply Nat.leb_le in E1. apply Nat.leb_le in E2.
  rewrite nat_ascii_embedding by lia.
  transitivity true; [|symmetry]; apply Nat.ltb_lt; lia.
Qed.

Lemma get_text_width_count (text : string) :
  isascii text = true ->
  get_text_width text
  = Within (Z.max 0 (6 * Z.of_nat (length (filter known_char
                                             (list_ascii_of_string text)))
                     - 1)).
Proof.
  intros Hascii. unfold get_text_width. rewrite Hascii.
  rewrite list_ascii_of_upper, text_width_loop.
  unfold CHAR_SPACING. do 2 f_equal.
Qed.

(** An ASCII text has a width. *)
Lemma get_text_width_within (text : string) :
  isascii text = true ->
  exists columns,
    get_text_width text = Within columns
    /\ (forallb known_char (list_ascii_of_string text) = true ->
        columns = Z.max 0 (6 * Z.of_nat (String.length text) - 1)).
Proof.
  intros Hascii. eexists. split; [now apply get_text_width_count|].
  intros Hknown. now rewrite (filter_all_known _ Hknown), list_ascii_length.
Qed.

(** X21.  For an ASCII text, [get_text_width] counts six columns for
    every character that has a glyph once upper-cased (so lower-case
    letters count like capitals) and nothing for any other, and takes one
    column off at the end: a text of [n] such characters is 6n - 1 wide, a
    text without any is 0 wide. *)
Theorem text_width_counts_glyphs (text : string) :
  let chars := list_ascii_of_string text in
  let n := Z.of_nat (length (filter known_char chars)) in
  isascii text = true ->
  get_text_width text = Within (Z.max 0 (6 * n - 1))
  /\ (forallb known_char chars = true ->
      text <> "" ->
      get_text_width text
      = Within (6 * Z.of_nat (String.length text) - 1)%Z)
  /\ get_text_width (upper text) = get_text_width text.
Proof.
  cbv zeta. intros Hascii.
  split; [now apply get_text_width_count|]. split.
  - intros Hknown Hne.
    rewrite (get_text_width_count _ Hascii), (filter_all_known _ Hknown).
    rewrite list_ascii_length. destruct text as [|c t]; [congruence|].
    cbn [String.length]. f_equal; lia.
  - unfold get_text_width. now rewrite isascii_upper, upper_idempotent.
Qed.

Lemma text_width_counts_glyphs_witness :
  get_text_width "Stop!" = Within 29%Z
  /\ get_text_width "STOP!" = get_text_width "Stop!".
Proof.
  destruct (text_width_counts_glyphs "Stop!" eq_refl)
    as (_ & Hall & Hupper).
  split; [|exact Hupper].
  apply Hall; [reflexivity|discriminate].
Defined.

(** X22.  With [auto_scale] on, [create_dot_matrix_text] draws an ASCII
    text at a scale from 1 to 4: the largest one at which the text passes
    the fit test (text width and height times the scale within the image
    less two pixels), and 1 when it passes at none; with [auto_scale] off
    it draws at 1. *)
Theorem chosen_scale_is_largest_fit (text : string) (width height : Z) :
  isascii text = true ->
  exists s,
    chosen_scale text width height true = Within s
    /\ (1 <= s <= 4)%Z
    /\ (forall k, (s < k <= 4)%Z -> ~ fits text width height k)
    /\ (fits text width height s
        \/ (s = 1%Z
            /\ forall k, (1 <= k <= 4)%Z -> ~ fits text width height k))
    /\ chosen_scale text width height false = Within 1%Z.
Proof.
  intros Hascii. unfold chosen_scale, fits.
  change (py_range_down 4 0) with [4; 3; 2; 1]%Z.
  cbn [first_fit]. unfold CHAR_HEIGHT.
  rewrite (get_text_width_count _ Hascii).
  generalize (Z.max 0 (6 * Z.of_nat (length (filter known_char
                                               (list_ascii_of_string text)))
                       - 1)).
  intros w.
  destruct ((w * 4 <=? width - 2) && (7 * 4 <=? height - 2))%Z eqn:E4;
    [|destruct ((w * 3 <=? width - 2) && (7 * 3 <=? height - 2))%Z eqn:E3;
      [|destruct ((w * 2 <=? width - 2) && (7 * 2 <=? height - 2))%Z eqn:E2;
        [|destruct ((w * 1 <=? width - 2) && (7 * 1 <=? height - 2))%Z
            eqn:E1]]];
    eexists; (split; [reflexivity|]);
    repeat match goal with
           | H : (_ && _) = true |- _ =>
               apply andb_true_iff in H; destruct H as [? ?]
           | H : (_ && _) = false |- _ =>
               apply andb_false_iff in H
           | H : (_ <=? _)%Z = true |- _ => apply Z.leb_le in H
           end;
    (split; [lia|]);
    (split;
     [intros k Hk (w' & Hw' & Hw & Hh); inversion Hw'; subst w';
      assert (Hcases : (k = 1 \/ k = 2 \/ k = 3 \/ k = 4)%Z) by lia;
      repeat match goal with
             | H : _ \/ _ |- _ => destruct H
             | H : (_ <=? _)%Z = false |- _ => apply Z.leb_gt in H
             end; subst; lia
     |]);
    (split; [|reflexivity]);
    first [ left; exists w; split; [reflexivity|lia]
          | right; split; [reflexivity|];
            intros k Hk (w' & Hw' & Hw & Hh); inversion Hw'; subst w';
            assert (Hcases : (k = 1 \/ k = 2 \/ k = 3 \/ k = 4)%Z) by lia;
            repeat match goal with
                   | H : _ \/ _ |- _ => destruct H
                   | H : (_ <=? _)%Z = false |- _ => apply Z.leb_gt in H
                   end; subst; lia ].
Qed.

(** "STOP" on a grid of 64 by 64: scale 2 (46 columns), since scale 3
    would need 69. *)
Lemma chosen_scale_is_largest_fit_witness :
  chosen_scale "STOP" GRID_SIZE GRID_SIZE true = Within 2%Z
  /\ ~ fits "STOP" GRID_SIZE GRID_SIZE 3.
Proof.
  destruct (chosen_scale_is_largest_fit "STOP" GRID_SIZE GRID_SIZE eq_refl)
    as (s & Hs & _ & Hlargest & _).
  assert (Hs2 : s = 2%Z).
  { change (chosen_scale "STOP" GRID_SIZE GRID_SIZE true) with (Within 2%Z)
      in Hs.
    now inversion Hs. }
  subst s. split; [exact Hs|]. apply Hlargest. lia.
Defined.

(** ** Drawing *)

Lemma for_each_invariant {A S} (P : S -> Prop) (l : list A)
    (body : S -> A -> option S) :
  (forall s a, In a l -> P s -> exists s', body s a = Some s' /\ P s') ->
  forall s, P s -> exists s', for_each l body s = Some s' /\ P s'.
Proof.
  unfold for_each. induction l as [|a l IH]; intros Hbody s Hs.
  - exists s. now split.
  - cbn [fold_left and_then].
    destruct (Hbody s a (or_introl eq_refl) Hs) as (s1 & Hrun & Hs1).
    rewrite Hrun. apply IH; [|exact Hs1].
    intros s' a' Hin. apply Hbody. now right.
Qed.

Lemma enumerate_in {A} (l : list A) (i : Z) (a : A) :
  In (i, a) (enumerate l) -> (0 <= i < Z.of_nat (length l))%Z /\ In a l.
Proof.
  unfold enumerate. intros Hin. split.
  - apply in_combine_l in Hin. apply in_map_iff in Hin.
    destruct Hin as (k & Hk & Hseq). apply in_seq in Hseq. lia.
  - now apply in_combine_r in Hin.
Qed.

Lemma py_range_in (lo hi i : Z) :
  In i (py_range lo hi) -> (lo <= i < hi)%Z.
Proof.
  unfold py_range. intros Hin. apply in_map_iff in Hin.
  destruct Hin as (k & Hk & Hseq). apply in_seq in Hseq. lia.
Qed.

Lemma dict_get_in {V} (k : string) (v : V) (d : dict V) :
  dict_get k d = Some v -> In v (map snd d).
Proof.
  induction d as [|[k' v'] d IH]; cbn; intros H; [discriminate|].
  destruct (String.eqb k k'); [left; congruence|right; now apply IH].
Qed.

(** Every glyph of the font is seven rows of five characters. *)
Lemma glyph_shape (char : ascii) (pattern : list string) :
  glyph char = Some pattern ->
  length pattern = 7%nat
  /\ Forall (fun row => String.length row = 5%nat) pattern.
Proof.
  intros Hglyph. apply dict_get_in in Hglyph.
  assert (Hall : forallb (fun pattern =>
                            (length pattern =? 7)%nat
                            && forallb (fun row =>
                                          (String.length row =? 5)%nat)
                                 pattern)
                   (map snd DOT_MATRIX_FONT) = true)
    by (vm_compute; reflexivity).
  rewrite forallb_forall in Hall. specialize (Hall pattern Hglyph).
  apply andb_true_iff in Hall. destruct Hall as [Hrows Hcols].
  apply Nat.eqb_eq in Hrows. split; [exact Hrows|].
  apply Forall_forall. intros row Hrow.
  rewrite forallb_forall in Hcols. apply Nat.eqb_eq. now apply Hcols.
Qed.

Lemma painted_refl (color : rgb) (x0 y0 x1 y1 : Z) (img : Image.t) :
  painted color x0 y0 x1 y1 img img.
Proof. repeat split. intros u v. now left. Qed.

Lemma painted_putpixel (color : rgb) (x0 y0 x1 y1 : Z)
    (before img : Image.t) (x y : Z) :
  painted color x0 y0 x1 y1 before img ->
  Image.inside img x y = true ->
  (x0 <= x < x1)%Z -> (y0 <= y < y1)%Z ->
  exists img',
    Image.putpixel img x y color = Some img'
    /\ painted color x0 y0 x1 y1 before img'.
Proof.
  intros (Hw & Hh & Hpix) Hin Hx Hy. unfold Image.putpixel. rewrite Hin.
  eexists. split; [reflexivity|].
  split; [exact Hw|]. split; [exact Hh|].
  intros u v. cbn [Image.getpixel].
  destruct ((u =? x)%Z && (v =? y)%Z) eqn:E; [|apply Hpix].
  apply andb_true_iff in E. destruct E as [Eu Ev].
  apply Z.eqb_eq in Eu. apply Z.eqb_eq in Ev. subst u v.
  right. split; [reflexivity|]. split; [exact Hx|]. split; [exact Hy|].
  unfold Image.inside in *. now rewrite <- Hw, <- Hh.
Qed.

Lemma draw_dot_matrix_char_painted (img : Image.t) (char : ascii) (x y : Z)
    (color : rgb) (scale : Z) :
  forall before x0 y0 x1 y1,
    painted color x0 y0 x1 y1 before img ->
    ((0 < scale)%Z ->
     (x0 <= x /\ x + 5 * scale <= x1 /\ y0 <= y /\ y + 7 * scale <= y1)%Z) ->
    exists img',
      draw_dot_matrix_char img char x y color scale
        = Some (img', (6 * scale)%Z)
      /\ painted color x0 y0 x1 y1 before img'.
Proof.
  intros before x0 y0 x1 y1 Hpainted Hbox.
  unfold draw_dot_matrix_char. cbv zeta.
  assert (Hused : (CHAR_WIDTH * scale + CHAR_SPACING * scale
                   = 6 * scale)%Z)
    by (unfold CHAR_WIDTH, CHAR_SPACING; lia).
  rewrite Hused.
  destruct (glyph (upper_ascii char)) as [pattern|] eqn:Hglyph.
  2:{ exists img. now split. }
  destruct (glyph_shape _ _ Hglyph) as [Hrows Hcols].
  rewrite Forall_forall in Hcols.
  match goal with
  | |- exists img', and_then (for_each ?l ?body ?s) _ = _ /\ _ =>
      assert (Hloop : exists img',
                 for_each l body s = Some img'
                 /\ painted color x0 y0 x1 y1 before img')
  end.
  { apply for_each_invariant; [|exact Hpainted].
    intros img1 [row_idx row] Hin Himg1.
    apply enumerate_in in Hin. destruct Hin as [Hrow_idx Hrow].
    rewrite Hrows in Hrow_idx. specialize (Hcols row Hrow).
    apply for_each_invariant; [|exact Himg1].
    intros img2 [col_idx pixel] Hin Himg2.
    apply enumerate_in in Hin. destruct Hin as [Hcol_idx _].
    rewrite list_ascii_length, Hcols in Hcol_idx.
    destruct (Ascii.eqb pixel "#"); [|now exists img2].
    cbv zeta. apply for_each_invariant; [|exact Himg2].
    intros img3 dx Hdx Himg3. apply py_range_in in Hdx.
    apply for_each_invariant; [|exact Himg3].
    intros img4 dy Hdy Himg4. apply py_range_in in Hdy.
    match goal with
    | |- context [if ?g then _ else _] => destruct g eqn:Hguard
    end; [|now exists img4].
    destruct Hbox as (Hx0 & Hx1 & Hy0 & Hy1); [lia|].
    apply painted_putpixel; [exact Himg4|exact Hguard| |]; nia. }
  destruct Hloop as (img' & Hrun & Hdone).
  exists img'. rewrite Hrun. now split.
Qed.

Lemma for_each_cons {A S} (a : A) (l : list A) (body : S -> A -> option S)
    (s : S) :
  for_each (a :: l) body s = and_then (body s a) (for_each l body).
Proof.
  unfold for_each. cbn [fold_left and_then].
  destruct (body s a) as [s'|]; [reflexivity|].
  cbn [and_then]. induction l as [|a' l IH]; [reflexivity|exact IH].
Qed.

Lemma draw_chars_painted (color : rgb) (scale y : Z) (before : Image.t)
    (x0 y0 x1 y1 : Z) (chars : list ascii) :
  forall img cursor_x,
    painted color x0 y0 x1 y1 before img ->
    ((0 < scale)%Z ->
     (x0 <= cursor_x
      /\ cursor_x + (6 * Z.of_nat (length chars) - 1) * scale <= x1
      /\ y0 <= y /\ y + 7 * scale <= y1)%Z) ->
    exists img',
      for_each chars
        (fun '(img, cursor_x) char =>
           and_then (draw_dot_matrix_char img char cursor_x y color scale)
             (fun '(img', used) => Some (img', cursor_x + used)%Z))
        (img, cursor_x)
      = Some (img', (cursor_x + 6 * Z.of_nat (length chars) * scale)%Z)
      /\ painted color x0 y0 x1 y1 before img'.
Proof.
  induction chars as [|char rest IH]; intros img cursor_x Hpainted Hbox.
  - exists img. cbn. split; [|exact Hpainted]. do 2 f_equal. lia.
  - rewrite for_each_cons.
    destruct (draw_dot_matrix_char_painted img char cursor_x y color scale
                before x0 y0 x1 y1 Hpainted) as (img1 & Hchar & Himg1).
    { intros Hscale. specialize (Hbox Hscale). cbn [length] in Hbox.
      rewrite Nat2Z.inj_succ in Hbox. nia. }
    rewrite Hchar. cbn [and_then].
    destruct (IH img1 (cursor_x + 6 * scale)%Z Himg1) as (img' & Hrest & Hdone).
    { intros Hscale. specialize (Hbox Hscale). cbn [length] in Hbox.
      rewrite Nat2Z.inj_succ in Hbox. nia. }
    exists img'. rewrite Hrest. split; [|exact Hdone].
    do 2 f_equal. cbn [length]. rewrite Nat2Z.inj_succ. nia.
Qed.

(** X23.  [draw_dot_matrix_text] never fails, whatever the ASCII text,
    the position and the scale: [putpixel] is only reached for positions
    inside the image.  It keeps the size of the image and changes pixels
    only to the text colour, only inside the image and only inside the box
    that starts at the (centred, when asked) position and is seven rows of
    [scale] pixels high and six columns per character, less one, of [scale]
    pixels wide; a character without a glyph leaves its cell blank. *)
Theorem dot_matrix_text_stays_in_its_box (img : Image.t) (text : string)
    (x y : Z) (color : rgb) (scale : Z) (center : bool) :
  isascii text = true ->
  exists columns img',
    get_text_width text = Within columns
    /\ draw_dot_matrix_text img text x y color scale center
       = Within (Some img')
    /\ let n := Z.of_nat (String.length text) in
       let x' := if center then (x - columns * scale / 2)%Z else x in
       let y' := if center then (y - CHAR_HEIGHT * scale / 2)%Z else y in
       painted color x' y' (x' + (6 * n - 1) * scale) (y' + 7 * scale)
         img img'.
Proof.
  intros Hascii.
  destruct (get_text_width_within text Hascii) as (columns & Hcolumns & _).
  exists columns. unfold draw_dot_matrix_text. rewrite Hcolumns. cbv zeta.
  match goal with
  | |- exists img', _ /\ Within (and_then (for_each _ _ (_, ?cx)) _) = _
                    /\ painted _ _ ?cy _ _ _ _ =>
      destruct (draw_chars_painted color scale cy img
                  cx cy
                  (cx + (6 * Z.of_nat (String.length text) - 1) * scale)
                  (cy + 7 * scale) (list_ascii_of_string text) img cx
                  (painted_refl _ _ _ _ _ _))
        as (img' & Hrun & Hdone)
  end.
  { intros _. rewrite list_ascii_length. lia. }
  exists img'. rewrite Hrun. now split.
Qed.

(** "Hi" centred on a black panel at scale 2: 11 columns, so the box
    starts at (5, 9) and is 22 by 14 pixels. *)
Lemma dot_matrix_text_stays_in_its_box_witness :
  let black := (x00, x00, x00) in
  let amber := (xff, xbf, x00) in
  exists img',
    draw_dot_matrix_text (Image.blank 32 32 black) "Hi" 16 16 amber 2 true
      = Within (Some img')
    /\ painted amber 5 9 27 23 (Image.blank 32 32 black) img'.
Proof.
  intros black amber.
  destruct (dot_matrix_text_stays_in_its_box (Image.blank 32 32 black) "Hi"
              16 16 amber 2 true eq_refl)
    as (columns & img' & Hcolumns & Hrun & Hbox).
  assert (Hc : columns = 11%Z).
  { change (get_text_width "Hi") with (Within 11%Z) in Hcolumns.
    now inversion Hcolumns. }
  subst columns. exists img'. split; [exact Hrun|exact Hbox].
Defined.

Lemma new_image_returns (width height : Z) (color : rgb) :
  (0 <= width)%Z -> (0 <= height)%Z ->
  Image.new width height color = Some (Image.blank width height color).
Proof.
  intros Hw Hh. unfold Image.new.
  apply Z.leb_le in Hw. apply Z.leb_le in Hh. now rewrite Hw, Hh.
Qed.

Lemma chosen_scale_positive (text : string) (width height : Z)
    (auto_scale : bool) :
  isascii text = true ->
  exists s,
    chosen_scale text width height auto_scale = Within s /\ (1 <= s <= 4)%Z.
Proof.
  intros Hascii. unfold chosen_scale.
  destruct auto_scale; [|exists 1%Z; split; [reflexivity|lia]].
  change (py_range_down 4 0) with [4; 3; 2; 1]%Z. cbn [first_fit].
  rewrite (get_text_width_count _ Hascii).
  repeat match goal with
         | |- context [if ?b then _ else _] => destruct b
         end; eexists; (split; [reflexivity|lia]).
Qed.

(** X24.  For an ASCII text and a size that is not negative,
    [create_dot_matrix_text] always returns an image of the size asked for,
    in which every pixel is of the background colour or, inside the centred
    text box, of the text colour.  When every character has a glyph and the
    text passes the fit test at the chosen scale, the outermost ring of
    pixels of the image is background: the text keeps a margin of one pixel
    on every side. *)
Theorem dot_matrix_image_keeps_its_margin (text : string) (width height : Z)
    (color bg_color : rgb) (auto_scale : bool) :
  isascii text = true ->
  (0 <= width)%Z ->
  (0 <= height)%Z ->
  exists s columns img,
    chosen_scale text width height auto_scale = Within s
    /\ get_text_width text = Within columns
    /\ create_dot_matrix_text text width height color bg_color auto_scale
       = Within (Some img)
    /\ Image.width img = width
    /\ Image.height img = height
    /\ (let n := Z.of_nat (String.length text) in
        let x0 := (width / 2 - columns * s / 2)%Z in
        let y0 := (height / 2 - CHAR_HEIGHT * s / 2)%Z in
        forall u v,
          Image.getpixel img u v = bg_color
          \/ (Image.getpixel img u v = color
              /\ (x0 <= u < x0 + (6 * n - 1) * s)%Z
              /\ (y0 <= v < y0 + 7 * s)%Z
              /\ (0 <= u < width)%Z /\ (0 <= v < height)%Z))
    /\ (forallb known_char (list_ascii_of_string text) = true ->
        fits text width height s ->
        forall u v,
          (u < 1 \/ width - 1 <= u \/ v < 1 \/ height - 1 <= v)%Z ->
          Image.getpixel img u v = bg_color).
Proof.
  intros Hascii Hwidth0 Hheight0. unfold create_dot_matrix_text.
  rewrite (new_image_returns width height bg_color Hwidth0 Hheight0).
  destruct (chosen_scale_positive text width height auto_scale Hascii)
    as (s & Hscale & Hs).
  destruct (get_text_width_within text Hascii)
    as (columns & Hcolumns & Hknown_width).
  exists s, columns. rewrite Hscale.
  unfold draw_dot_matrix_text. rewrite Hcolumns. cbv zeta.
  set (x0 := (width / 2 - columns * s / 2)%Z).
  set (y0 := (height / 2 - CHAR_HEIGHT * s / 2)%Z).
  destruct (draw_chars_painted color s y0
              (Image.blank width height bg_color) x0 y0
              (x0 + (6 * Z.of_nat (String.length text) - 1) * s)%Z
              (y0 + 7 * s)%Z (list_ascii_of_string text)
              (Image.blank width height bg_color) x0
              (painted_refl _ _ _ _ _ _))
    as (img & Hrun & Hw & Hh & Hpix).
  { intros _. rewrite list_ascii_length. lia. }
  exists img. rewrite Hrun. cbn [and_then].
  split; [reflexivity|]. split; [reflexivity|]. split; [reflexivity|].
  split; [exact Hw|]. split; [exact Hh|].
  subst x0 y0.
  assert (Hall : forall u v,
             Image.getpixel img u v = bg_color
             \/ (Image.getpixel img u v = color
                 /\ (width / 2 - columns * s / 2 <= u
                     < width / 2 - columns * s / 2
                       + (6 * Z.of_nat (String.length text) - 1) * s)%Z
                 /\ (height / 2 - CHAR_HEIGHT * s / 2 <= v
                     < height / 2 - CHAR_HEIGHT * s / 2 + 7 * s)%Z
                 /\ (0 <= u < width)%Z /\ (0 <= v < height)%Z)).
  { intros u v. destruct (Hpix u v) as [Hsame|(Hc & Hu & Hv & Hin)].
    - left. exact Hsame.
    - right. split; [exact Hc|]. split; [exact Hu|]. split; [exact Hv|].
      unfold Image.inside in Hin. cbn in Hin.
      repeat (apply andb_true_iff in Hin; destruct Hin as [Hin ?]).
      lia. }
  split; [exact Hall|].
  intros Hknown (columns' & Hcolumns' & Hfw & Hfh) u v Hborder.
  rewrite Hcolumns in Hcolumns'. inversion Hcolumns'; subst columns'.
  destruct (Hall u v) as [Hbg|(_ & Hu & Hv & _)]; [exact Hbg|].
  exfalso.
  specialize (Hknown_width Hknown).
  unfold CHAR_HEIGHT in *.
  assert (Hx : (columns * s / 2 * 2 <= columns * s
                < columns * s / 2 * 2 + 2)%Z).
  { pose proof (Z.div_mod (columns * s) 2) as Hd.
    pose proof (Z.mod_pos_bound (columns * s) 2). lia. }
  assert (Hy : (7 * s / 2 * 2 <= 7 * s < 7 * s / 2 * 2 + 2)%Z).
  { pose proof (Z.div_mod (7 * s) 2) as Hd.
    pose proof (Z.mod_pos_bound (7 * s) 2). lia. }
  assert (Hw2 : (width / 2 * 2 <= width < width / 2 * 2 + 2)%Z).
  { pose proof (Z.div_mod width 2) as Hd.
    pose proof (Z.mod_pos_bound width 2). lia. }
  assert (Hh2 : (height / 2 * 2 <= height < height / 2 * 2 + 2)%Z).
  { pose proof (Z.div_mod height 2) as Hd.
    pose proof (Z.mod_pos_bound height 2). lia. }
  assert (Hbox : ((6 * Z.of_nat (String.length text) - 1) * s
                  <= columns * s)%Z) by nia.
  lia.
Qed.

(** "AB" on a panel: drawn at scale 2, the corner pixel stays black. *)
Lemma dot_matrix_image_keeps_its_margin_witness :
  let black := (x00, x00, x00) in
  let amber := (xff, xbf, x00) in
  exists img,
    create_dot_matrix_text "AB" PANEL_SIZE PANEL_SIZE amber black true
      = Within (Some img)
    /\ Image.getpixel img 0 31 = black.
Proof.
  intros black amber.
  destruct (dot_matrix_image_keeps_its_margin "AB" PANEL_SIZE PANEL_SIZE
              amber black true eq_refl)
    as (s & columns & img & Hscale & Hcolumns & Hrun & _ & _ & _ & Hmargin);
    [unfold PANEL_SIZE; lia|unfold PANEL_SIZE; lia|].
  exists img. split; [exact Hrun|].
  change (chosen_scale "AB" PANEL_SIZE PANEL_SIZE true) with (Within 2%Z)
    in Hscale.
  inversion Hscale; subst s.
  apply Hmargin.
  - reflexivity.
  - exists 11%Z. split; [reflexivity|].
    unfold CHAR_HEIGHT, PANEL_SIZE. lia.
  - unfold PANEL_SIZE. lia.
Defined.

(** ** Splitting for the grid *)

(** X25.  [split_for_grid] of an image that is 64 by 64 does not resize; it
    returns the four quarters under the names linksboven, rechtsboven,
    linksonder, rechtsonder, in that order, each 32 by 32, and together
    they are the image: the pixel at (u, v) is the pixel at (u mod 32,
    v mod 32) of the quarter named onder when v is 32 or more and boven
    otherwise, rechts when u is 32 or more and links otherwise.  The
    quarter of a position starts at the offset that [GRID_POSITIONS] gives
    for it. *)
Theorem split_for_grid_tiles (resize_for_grid : Image.t -> Image.t)
    (img : Image.t) :
  Image.width img = GRID_SIZE ->
  Image.height img = GRID_SIZE ->
  let parts := split_for_grid resize_for_grid img in
  map fst parts = ["linksboven"; "rechtsboven"; "linksonder"; "rechtsonder"]
  /\ Forall (fun part => Image.width (snd part) = PANEL_SIZE
                         /\ Image.height (snd part) = PANEL_SIZE) parts
  /\ (forall u v,
        (0 <= u < GRID_SIZE)%Z -> (0 <= v < GRID_SIZE)%Z ->
        let position :=
          ((if (u <? 32)%Z then "links" else "rechts")
           ++ (if (v <? 32)%Z then "boven" else "onder"))%string in
        exists part,
          dict_get position parts = Some part
          /\ Image.getpixel part (u mod 32) (v mod 32)
             = Image.getpixel img u v)
  /\ (forall position part,
        dict_get position parts = Some part ->
        exists x y,
          dict_get position GRID_POSITIONS = Some (x, y)
          /\ forall u v,
               Image.getpixel part u v = Image.getpixel img (u + x) (v + y)).
Proof.
  intros Hw Hh. cbv zeta. unfold split_for_grid.
  rewrite Hw, Hh. cbn [Z.eqb GRID_SIZE Pos.eqb andb negb].
  split; [reflexivity|]. split; [|split].
  - repeat constructor.
  - intros u v Hu Hv. unfold GRID_SIZE in *.
    assert (Hmod : forall w, (0 <= w < 64)%Z ->
                             (w mod 32 = if w <? 32 then w else w - 32)%Z).
    { intros w Hw'. destruct (w <? 32)%Z eqn:E.
      - apply Z.ltb_lt in E. apply Z.mod_small. lia.
      - apply Z.ltb_ge in E. symmetry. apply Z.mod_unique with 1%Z; lia. }
    rewrite (Hmod u Hu), (Hmod v Hv).
    destruct (v <? 32)%Z; destruct (u <? 32)%Z;
      cbn [append dict_get String.eqb Ascii.eqb Bool.eqb];
      eexists; (split; [reflexivity|]); cbn [Image.crop Image.getpixel];
      f_equal; lia.
  - intros position part.
    cbn [dict_get GRID_POSITIONS].
    repeat match goal with
           | |- context [String.eqb position ?k] =>
               destruct (String.eqb position k)
           end;
      intros H; try discriminate H; inversion H; subst part;
      do 2 eexists; (split; [reflexivity|]); reflexivity.
Qed.

(** A picture that is red in its right half: the pixel at (40, 10) is the
    pixel at (8, 10) of rechtsboven. *)
Lemma split_for_grid_tiles_witness :
  let img := {| Image.width := 64; Image.height := 64;
                Image.getpixel := fun u _ =>
                  if (u <? 32)%Z then (x00, x00, x00)
                  else (xff, x00, x00) |} in
  exists part,
    dict_get "rechtsboven" (split_for_grid (fun i => i) img) = Some part
    /\ Image.getpixel part 8 10 = (xff, x00, x00).
Proof.
  intros img.
  destruct (split_for_grid_tiles (fun i => i) img eq_refl eq_refl)
    as (_ & _ & Hpixel & _).
  destruct (Hpixel 40%Z 10%Z) as (part & Hpart & Hpix);
    [unfold GRID_SIZE; lia|unfold GRID_SIZE; lia|].
  exists part. split; [exact Hpart|exact Hpix].
Defined.

(** ** The shape of a configuration *)

Lemma dict_get_present_key {V} (k : string) (d : dict V) :
  In k (map fst d) -> dict_get k d <> None.
Proof.
  induction d as [|[k' v'] d IH]; cbn; [contradiction|].
  intros [Hhere|Hlater]; destruct (String.eqb k k') eqn:E;
    try discriminate.
  - subst k'. now rewrite String.eqb_refl in E.
  - now apply IH.
Qed.

Lemma nodup_snoc {A} (l : list A) (a : A) :
  NoDup l -> ~ In a l -> NoDup (l ++ [a]).
Proof.
  induction 1 as [|b l Hb _ IH]; intros Hnotin; cbn.
  - repeat constructor. intros [].
  - constructor.
    + intros Hin. apply in_app_or in Hin. destruct Hin as [Hin|[Hin|[]]].
      * contradiction.
      * subst. apply Hnotin. now left.
    + apply IH. intros Hin. apply Hnotin. now right.
Qed.

Lemma dict_set_keys_nodup {V} (k : string) (v : V) (d : dict V) :
  NoDup (map fst d) -> NoDup (map fst (dict_set k v d)).
Proof.
  intros Hnd. destruct (dict_get k d) eqn:Hget.
  - rewrite dict_set_present_keys; [exact Hnd|congruence].
  - rewrite (dict_set_absent _ _ _ Hget), map_app. cbn.
    apply nodup_snoc; [exact Hnd|].
    intros Hin. now apply dict_get_present_key in Hin.
Qed.

Lemma dict_del_keys {V} (k : string) (d : dict V) :
  map fst (dict_del k d)
  = filter (fun key => negb (String.eqb k key)) (map fst d).
Proof.
  induction d as [|[k' v'] d IH]; cbn; [reflexivity|].
  destruct (String.eqb k k'); cbn; [exact IH|now rewrite IH].
Qed.

Lemma dict_set_forall {V} (P : string * V -> Prop) (k : string) (v : V)
    (d : dict V) :
  Forall P d -> P (k, v) -> Forall P (dict_set k v d).
Proof.
  intros Hall Hnew. induction Hall as [|[k' v'] d Hhead Htail IH]; cbn.
  - now constructor.
  - destruct (String.eqb k k') eqn:E.
    + apply String.eqb_eq in E. subst k'. now constructor.
    + now constructor.
Qed.

Lemma dict_del_forall {V} (P : string * V -> Prop) (k : string) (d : dict V) :
  Forall P d -> Forall P (dict_del k d).
Proof.
  induction 1 as [|[k' v'] d Hhead _ IH]; cbn; [constructor|].
  destruct (String.eqb k k'); [exact IH|now constructor].
Qed.

Lemma dict_set_keys_forall {V} (P : string -> Prop) (k : string) (v : V)
    (d : dict V) :
  Forall P (map fst d) -> P k -> Forall P (map fst (dict_set k v d)).
Proof.
  intros Hall Hk. destruct (dict_get k d) eqn:Hget.
  - rewrite dict_set_present_keys; [exact Hall|congruence].
  - rewrite (dict_set_absent _ _ _ Hget), map_app.
    apply Forall_app. split; [exact Hall|]. now repeat constructor.
Qed.

Lemma panel_of_data_upper (key : string) (info : json) (panel : Panel.t) :
  panel_of_data key info = Some panel ->
  upper (Panel.mac panel) = Panel.mac panel.
Proof.
  unfold panel_of_data. destruct info as [| | | | |o]; try discriminate.
  intros H.
  repeat match type of H with
         | and_then ?o _ = Some _ =>
             destruct o eqn:?; cbn [and_then] in H; [|discriminate H]
         end.
  inversion H. cbn. apply upper_idempotent.
Qed.

Lemma load_panels_normalised (members : dict json) :
  forall panels loaded,
    load_panels members panels = Some loaded ->
    Forall (fun key => upper key = key) (map fst panels) ->
    NoDup (map fst panels) ->
    Forall (fun kv => upper (Panel.mac (snd kv)) = Panel.mac (snd kv))
      panels ->
    Forall (fun key => upper key = key) (map fst loaded)
    /\ NoDup (map fst loaded)
    /\ Forall (fun kv => upper (Panel.mac (snd kv)) = Panel.mac (snd kv))
         loaded.
Proof.
  induction members as [|[mac info] rest IH];
    intros panels loaded Hload Hkeys Hnd Hmacs; cbn [load_panels] in Hload.
  - inversion Hload; subst. repeat split; assumption.
  - destruct (panel_of_data mac info) as [panel|] eqn:Hpanel;
      cbn [and_then] in Hload; [|discriminate Hload].
    apply (IH _ _ Hload).
    + apply dict_set_keys_forall; [exact Hkeys|apply upper_idempotent].
    + now apply dict_set_keys_nodup.
    + apply dict_set_forall; [exact Hmacs|].
      cbn. now apply (panel_of_data_upper mac info).
Qed.

(** X26.  The shape that the other operations rely on is an invariant of
    the configuration: upper-cased, pairwise distinct keys and upper-cased
    panel addresses hold for [PanelConfig()], for every configuration that
    [load_config] reads from a file, whatever the spelling in the file, and
    are kept by [add_panel], by [remove_panel] and by the merge of a
    scan. *)
Theorem configuration_stays_normalised :
  config_normalised PanelConfig.default
  /\ (forall data config,
        config_of_data data = Some config -> config_normalised config)
  /\ (forall config mac name enabled,
        config_normalised config ->
        config_normalised (fst (add_panel config mac name enabled)))
  /\ (forall config mac,
        config_normalised config ->
        config_normalised (fst (remove_panel config mac)))
  /\ (forall discovered config added,
        config_normalised config ->
        config_normalised (fst (merge_discovered config discovered added))).
Proof.
  assert (Hadd : forall config mac name enabled,
             config_normalised config ->
             config_normalised (fst (add_panel config mac name enabled))).
  { intros config mac name enabled (Hkeys & Hnd & Hmacs).
    unfold config_normalised, config_keys_upper, add_panel.
    cbn [fst PanelConfig.panels PanelConfig.set_panels].
    split; [|split].
    - apply dict_set_keys_forall; [exact Hkeys|apply upper_idempotent].
    - now apply dict_set_keys_nodup.
    - apply dict_set_forall; [exact Hmacs|]. cbn.
      now rewrite !upper_idempotent. }
  split; [|split; [|split; [exact Hadd|split]]].
  - unfold config_normalised, config_keys_upper. cbn.
    repeat split; constructor.
  - intros data config H. unfold config_of_data in H.
    destruct data as [| | | | |o]; try discriminate.
    repeat match type of H with
           | and_then ?o _ = Some _ =>
               destruct o eqn:?; cbn [and_then] in H; [|discriminate H]
           end.
    inversion H; subst config. unfold config_normalised, config_keys_upper.
    cbn [PanelConfig.panels].
    match goal with
    | Hload : load_panels _ _ = Some _ |- _ =>
        apply (load_panels_normalised _ _ _ Hload); constructor
    end.
  - intros config mac (Hkeys & Hnd & Hmacs).
    unfold config_keys_upper in Hkeys. unfold remove_panel.
    destruct (dict_get (upper mac) (PanelConfig.panels config));
      [|repeat split; assumption].
    unfold config_normalised, config_keys_upper.
    cbn [fst PanelConfig.panels PanelConfig.set_panels_grid].
    split; [|split].
    + rewrite dict_del_keys. apply Forall_forall. intros key Hin.
      apply filter_In in Hin. rewrite Forall_forall in Hkeys.
      now apply Hkeys.
    + rewrite dict_del_keys. now apply NoDup_filter.
    + now apply dict_del_forall.
  - induction discovered as [|[mac name] rest IH]; intros config added Hn;
      cbn [merge_discovered]; [exact Hn|].
    destruct (dict_get mac (PanelConfig.panels config)).
    + now apply IH.
    + apply IH. now apply Hadd.
Qed.

Lemma configuration_stays_normalised_witness :
  config_normalised
    (fst (merge_discovered
            (fst (remove_panel demo_config "aa:bb:cc:dd:ee:02"))
            [("aa:bb:cc:dd:ee:04", "LED_BLE_7E8F")] 0)).
Proof.
  destruct configuration_stays_normalised
    as (_ & _ & _ & Hremove & Hmerge).
  apply Hmerge. apply Hremove.
  unfold config_normalised, config_keys_upper. cbn.
  split; [repeat constructor|]. split.
  - repeat constructor; cbn; intuition discriminate.
  - repeat constructor.
Defined.

Lemma find_by_name_first (name : string) (values : list Panel.t) :
  isascii name = true ->
  Forall (fun p => isascii (Panel.name p) = true) values ->
  exists found,
    find_by_name name values = Within found
    /\ match found with
       | Some panel =>
           exists before after,
             values = before ++ panel :: after
             /\ lower (Panel.name panel) = lower name
             /\ Forall (fun p => lower (Panel.name p) <> lower name) before
       | None => Forall (fun p => lower (Panel.name p) <> lower name) values
       end.
Proof.
  intros Hname.
  induction values as [|p rest IH]; intros Hvalues; cbn.
  - exists None. split; [reflexivity|constructor].
  - inversion Hvalues as [|p' rest' Hp Hrest]; subst.
    rewrite Hp, Hname. cbn [andb].
    destruct (String.eqb (lower (Panel.name p)) (lower name)) eqn:E.
    + apply String.eqb_eq in E. exists (Some p). split; [reflexivity|].
      exists [], rest. repeat split; [exact E|]. constructor.
    + apply String.eqb_neq in E.
      destruct (IH Hrest) as (found & Hrun & Hfound).
      exists found. split; [exact Hrun|].
      destruct found as [panel|].
      * destruct Hfound as (before & after & Hsplit & Hsame & Hbefore).
        exists (p :: before), after. rewrite Hsplit.
        repeat split; [exact Hsame|]. now constructor.
      * now constructor.
Qed.

Lemma find_by_name_same (name name' : string) (values : list Panel.t) :
  isascii name = true ->
  isascii name' = true ->
  lower name' = lower name ->
  find_by_name name' values = find_by_name name values.
Proof.
  intros Hname Hname' Hsame.
  induction values as [|p rest IH]; cbn; [reflexivity|].
  now rewrite Hname, Hname', Hsame, IH.
Qed.

(** X27.  Where all the names are ASCII, [get_panel_by_name] compares them
    without regard to case and returns the first panel, in the order of
    the configuration, whose name matches; it returns None exactly when no
    panel matches. *)
Theorem panel_by_name_is_first_match (config : PanelConfig.t)
    (name : string) :
  let values := map snd (PanelConfig.panels config) in
  isascii name = true ->
  Forall (fun p => isascii (Panel.name p) = true) values ->
  exists found,
    get_panel_by_name config name = Within found
    /\ match found with
       | Some panel =>
           exists before after,
             values = before ++ panel :: after
             /\ lower (Panel.name panel) = lower name
             /\ Forall (fun p => lower (Panel.name p) <> lower name) before
       | None => Forall (fun p => lower (Panel.name p) <> lower name) values
       end
    /\ (forall name',
          isascii name' = true ->
          lower name' = lower name ->
          get_panel_by_name config name' = Within found).
Proof.
  cbv zeta. intros Hname Hvalues. unfold get_panel_by_name.
  destruct (find_by_name_first name _ Hname Hvalues)
    as (found & Hrun & Hfound).
  exists found. split; [exact Hrun|]. split; [exact Hfound|].
  intros name' Hname' Hsame.
  now rewrite (find_by_name_same name name' _ Hname Hname' Hsame).
Qed.

(** Asked for "RIGHT", the demo configuration answers with a panel whose
    name is "right" in lower case; asked for "Right" it answers the
    same. *)
Lemma panel_by_name_is_first_match_witness :
  exists panel,
    get_panel_by_name demo_config "RIGHT" = Within (Some panel)
    /\ lower (Panel.name panel) = "right"
    /\ get_panel_by_name demo_config "Right" = Within (Some panel).
Proof.
  destruct (panel_by_name_is_first_match demo_config "RIGHT" eq_refl)
    as (found & Hrun & Hfound & Hsame).
  { repeat constructor. }
  destruct found as [panel|].
  - exists panel. split; [exact Hrun|]. split.
    + destruct Hfound as (_ & _ & _ & Hname & _). exact Hname.
    + apply Hsame; reflexivity.
  - vm_compute in Hrun. discriminate Hrun.
Defined.

(** ** The picture of a text *)

Lemma for_each_nil {A S} (body : S -> A -> option S) (s : S) :
  for_each [] body s = Some s.
Proof. reflexivity. Qed.

Lemma for_each_ext {A S} (l : list A) (body1 body2 : S -> A -> option S) :
  (forall s a, In a l -> body1 s a = body2 s a) ->
  forall s, for_each l body1 s = for_each l body2 s.
Proof.
  induction l as [|a l IH]; intros Hext s; [reflexivity|].
  rewrite !for_each_cons, (Hext s a (or_introl eq_refl)).
  destruct (body2 s a) as [s'|]; [|reflexivity].
  cbn [and_then]. apply IH. intros s0 a0 Hin. apply Hext. now right.
Qed.

Lemma for_each_app {A S} (l1 l2 : list A) (body : S -> A -> option S)
    (s : S) :
  for_each (l1 ++ l2) body s
  = and_then (for_each l1 body s) (for_each l2 body).
Proof.
  revert s. induction l1 as [|a l1 IH]; intros s; [reflexivity|].
  cbn [app]. rewrite !for_each_cons.
  destruct (body s a) as [s'|]; [|reflexivity].
  cbn [and_then]. apply IH.
Qed.

Lemma for_each_flat_map {A B S} (f : A -> list B) (l : list A)
    (body : S -> B -> option S) (s : S) :
  for_each (flat_map f l) body s
  = for_each l (fun s a => for_each (f a) body s) s.
Proof.
  revert s. induction l as [|a l IH]; intros s; [reflexivity|].
  cbn [flat_map]. rewrite for_each_app, for_each_cons.
  destruct (for_each (f a) body s) as [s'|]; [|reflexivity].
  cbn [and_then]. apply IH.
Qed.

Lemma for_each_map {A B S} (g : A -> B) (l : list A)
    (body : S -> B -> option S) (s : S) :
  for_each (map g l) body s = for_each l (fun s a => body s (g a)) s.
Proof.
  revert s. induction l as [|a l IH]; intros s; [reflexivity|].
  cbn [map]. rewrite !for_each_cons.
  destruct (body s (g a)) as [s'|]; [|reflexivity].
  cbn [and_then]. apply IH.
Qed.

(** The four loops are one loop over the positions. *)
Lemma draw_loops_flat (img : Image.t) (pattern : list string) (x y : Z)
    (color : rgb) (scale : Z) :
  for_each (enumerate pattern)
    (fun img '(row_idx, row) =>
       for_each (enumerate (list_ascii_of_string row))
         (fun img '(col_idx, pixel) =>
            if Ascii.eqb pixel "#" then
              let px := (x + col_idx * scale)%Z in
              let py := (y + row_idx * scale)%Z in
              for_each (py_range 0 scale)
                (fun img dx =>
                   for_each (py_range 0 scale)
                     (fun img dy =>
                        if ((0 <=? px + dx) && (px + dx <? Image.width img)
                            && (0 <=? py + dy)
                            && (py + dy <? Image.height img))%Z
                        then Image.putpixel img (px + dx) (py + dy) color
                        else Some img)
                     img)
                img
            else Some img)
         img)
    img
  = for_each (dot_positions pattern x y scale) (put_inside color) img.
Proof.
  unfold dot_positions. rewrite for_each_flat_map.
  apply for_each_ext. intros img1 [row_idx row] _.
  rewrite for_each_flat_map.
  apply for_each_ext. intros img2 [col_idx pixel] _.
  destruct (Ascii.eqb pixel "#"); [|reflexivity].
  cbv zeta. rewrite for_each_flat_map.
  apply for_each_ext. intros img3 dx _.
  rewrite for_each_map. reflexivity.
Qed.

Lemma paint_positions (color : rgb) (positions : list (Z * Z)) :
  forall img,
  exists img',
    for_each positions (put_inside color) img = Some img'
    /\ Image.width img' = Image.width img
    /\ Image.height img' = Image.height img
    /\ forall u v,
         Image.getpixel img' u v
         = if Image.inside img u v && existsb (at_position u v) positions
           then color else Image.getpixel img u v.
Proof.
  induction positions as [|[a b] rest IH]; intros img.
  - exists img. repeat split. intros u v. now rewrite andb_false_r.
  - rewrite for_each_cons. unfold put_inside at 1. cbn [fst snd].
    fold (Image.inside img a b).
    destruct (Image.inside img a b) eqn:Hin.
    + unfold Image.putpixel. rewrite Hin. cbn [and_then].
      match goal with |- context [for_each rest _ ?i] =>
        destruct (IH i) as (img' & Hrun & Hw & Hh & Hpix) end.
      exists img'. split; [exact Hrun|]. split; [exact Hw|].
      split; [exact Hh|].
      intros u v. rewrite Hpix. unfold Image.inside. cbn [Image.width
        Image.height Image.getpixel existsb]. unfold at_position at 2.
      cbn [fst snd]. fold (Image.inside img u v).
      rewrite (Z.eqb_sym a u), (Z.eqb_sym b v).
      destruct ((u =? a)%Z && (v =? b)%Z) eqn:E.
      * apply andb_true_iff in E. destruct E as [Eu Ev].
        apply Z.eqb_eq in Eu. apply Z.eqb_eq in Ev. subst u v.
        rewrite Hin. cbn. now destruct (existsb _ rest).
      * cbn [orb]. reflexivity.
    + cbn [and_then]. destruct (IH img) as (img' & Hrun & Hw & Hh & Hpix).
      exists img'. split; [exact Hrun|]. split; [exact Hw|].
      split; [exact Hh|].
      intros u v. rewrite Hpix. cbn [existsb]. unfold at_position at 2.
      cbn [fst snd].
      destruct ((a =? u)%Z && (b =? v)%Z) eqn:E; [|reflexivity].
      apply andb_true_iff in E. destruct E as [Eu Ev].
      apply Z.eqb_eq in Eu. apply Z.eqb_eq in Ev. subst u v.
      rewrite Hin. reflexivity.
Qed.

Lemma enumerate_in_iff {A} (l : list A) (i : Z) (a : A) :
  In (i, a) (enumerate l)
  <-> (0 <= i)%Z /\ nth_error l (Z.to_nat i) = Some a.
Proof.
  unfold enumerate.
  assert (Hgen : forall start,
             In (i, a) (combine (map Z.of_nat (seq start (length l))) l)
             <-> (Z.of_nat start <= i)%Z
                 /\ nth_error l (Z.to_nat i - start) = Some a).
  { induction l as [|b l IH]; intros start;
      cbn [length seq map combine In].
    - split; [intros []|]. intros [_ H].
      now destruct (Z.to_nat i - start)%nat.
    - rewrite IH. split.
      + intros [Hhere|[Hle Hnth]].
        * inversion Hhere; subst. split; [lia|].
          replace (Z.to_nat (Z.of_nat start) - start)%nat with 0%nat by lia.
          reflexivity.
        * split; [lia|].
          replace (Z.to_nat i - start)%nat
            with (S (Z.to_nat i - S start))%nat by lia.
          exact Hnth.
      + intros [Hle Hnth].
        destruct (Z.to_nat i - start)%nat as [|k] eqn:Ek.
        * left. cbn in Hnth. inversion Hnth; subst. f_equal. lia.
        * right. split; [lia|].
          replace (Z.to_nat i - S start)%nat with k by lia. exact Hnth. }
  rewrite (Hgen 0%nat). now rewrite Nat.sub_0_r.
Qed.

Lemma get_list_ascii (n : nat) (s : string) :
  String.get n s = nth_error (list_ascii_of_string s) n.
Proof.
  revert n. induction s as [|c s IH]; intros [|n]; cbn; try reflexivity.
  apply IH.
Qed.

Lemma py_range_in_iff (lo hi i : Z) :
  In i (py_range lo hi) <-> (lo <= i < hi)%Z.
Proof.
  split; [apply py_range_in|]. intros Hi. unfold py_range.
  apply in_map_iff. exists (Z.to_nat (i - lo)). split; [lia|].
  apply in_seq. lia.
Qed.

Lemma dot_positions_lit (pattern : list string) (x y scale u v : Z) :
  existsb (at_position u v) (dot_positions pattern x y scale)
  = lit pattern x y scale u v.
Proof.
  apply eq_iff_eq_true. rewrite existsb_exists. unfold lit, dot.
  rewrite !andb_true_iff, Z.ltb_lt, !Z.leb_le.
  unfold dot_positions, at_position. split.
  - intros ([a b] & Hin & Hat). cbn [fst snd] in Hat.
    apply andb_true_iff in Hat. destruct Hat as [Ha Hb].
    apply Z.eqb_eq in Ha. apply Z.eqb_eq in Hb. subst a b.
    apply in_flat_map in Hin. destruct Hin as ([row_idx row] & Hrow & Hin).
    apply in_flat_map in Hin. destruct Hin as ([col_idx pixel] & Hcol & Hin).
    destruct (Ascii.eqb pixel "#") eqn:Hpixel; [|contradiction].
    apply in_flat_map in Hin. destruct Hin as (dx & Hdx & Hin).
    apply in_map_iff in Hin. destruct Hin as (dy & Heq & Hdy).
    inversion Heq; subst u v. clear Heq.
    apply py_range_in in Hdx. apply py_range_in in Hdy.
    apply enumerate_in_iff in Hrow. destruct Hrow as [Hrow0 Hrow].
    apply enumerate_in_iff in Hcol. destruct Hcol as [Hcol0 Hcol].
    assert (Hc : ((x + col_idx * scale + dx - x) / scale = col_idx)%Z).
    { symmetry. apply Z.div_unique with dx; lia. }
    assert (Hr : ((y + row_idx * scale + dy - y) / scale = row_idx)%Z).
    { symmetry. apply Z.div_unique with dy; lia. }
    rewrite Hc, Hr, Hrow, get_list_ascii, Hcol, Hpixel.
    repeat split; try lia; nia.
  - intros (((Hscale & Hx) & Hy) & ((Hc0 & Hr0) & Hdot)).
    destruct (nth_error pattern (Z.to_nat ((v - y) / scale)))
      as [row|] eqn:Hrow; [|discriminate].
    destruct (String.get (Z.to_nat ((u - x) / scale)) row)
      as [pixel|] eqn:Hcol; [|discriminate].
    exists (u, v). split.
    + apply in_flat_map. exists ((v - y) / scale, row)%Z. split.
      { apply enumerate_in_iff. now split. }
      apply in_flat_map. exists ((u - x) / scale, pixel)%Z. split.
      { apply enumerate_in_iff. split; [exact Hc0|].
        now rewrite <- get_list_ascii. }
      rewrite Hdot. apply in_flat_map. exists ((u - x) mod scale)%Z.
      pose proof (Z.mod_pos_bound (u - x) scale Hscale).
      pose proof (Z.mod_pos_bound (v - y) scale Hscale).
      pose proof (Z.div_mod (u - x) scale).
      pose proof (Z.div_mod (v - y) scale).
      split; [apply py_range_in_iff; lia|].
      apply in_map_iff. exists ((v - y) mod scale)%Z.
      split; [|apply py_range_in_iff; lia].
      f_equal; lia.
    + cbn [fst snd]. now rewrite !Z.eqb_refl.
Qed.

Lemma draw_dot_matrix_char_pixels (img : Image.t) (char : ascii) (x y : Z)
    (color : rgb) (scale : Z) :
  exists img',
    draw_dot_matrix_char img char x y color scale
      = Some (img', (6 * scale)%Z)
    /\ Image.width img' = Image.width img
    /\ Image.height img' = Image.height img
    /\ forall u v,
         Image.getpixel img' u v
         = match glyph (upper_ascii char) with
           | Some pattern =>
               if Image.inside img u v && lit pattern x y scale u v
               then color else Image.getpixel img u v
           | None => Image.getpixel img u v
           end.
Proof.
  unfold draw_dot_matrix_char. cbv zeta.
  assert (Hused : (CHAR_WIDTH * scale + CHAR_SPACING * scale
                   = 6 * scale)%Z)
    by (unfold CHAR_WIDTH, CHAR_SPACING; lia).
  rewrite Hused.
  destruct (glyph (upper_ascii char)) as [pattern|].
  - rewrite draw_loops_flat.
    destruct (paint_positions color (dot_positions pattern x y scale) img)
      as (img' & Hrun & Hw & Hh & Hpix).
    exists img'. rewrite Hrun. cbn [and_then].
    split; [reflexivity|]. split; [exact Hw|]. split; [exact Hh|].
    intros u v. now rewrite Hpix, dot_positions_lit.
  - exists img. repeat split.
Qed.

Lemma draw_chars_pixels (color : rgb) (scale y : Z) (chars : list ascii) :
  forall img cursor_x,
  exists img',
    for_each chars
      (fun '(img, cursor_x) char =>
         and_then (draw_dot_matrix_char img char cursor_x y color scale)
           (fun '(img', used) => Some (img', cursor_x + used)%Z))
      (img, cursor_x)
    = Some (img', (cursor_x + 6 * Z.of_nat (length chars) * scale)%Z)
    /\ Image.width img' = Image.width img
    /\ Image.height img' = Image.height img
    /\ forall u v,
         Image.getpixel img' u v
         = if Image.inside img u v && text_lit chars cursor_x y scale u v
           then color else Image.getpixel img u v.
Proof.
  induction chars as [|char rest IH]; intros img cursor_x.
  - exists img. cbn. split; [do 2 f_equal; lia|]. repeat split.
    intros u v. now rewrite andb_false_r.
  - rewrite for_each_cons.
    destruct (draw_dot_matrix_char_pixels img char cursor_x y color scale)
      as (img1 & Hchar & Hw1 & Hh1 & Hpix1).
    rewrite Hchar. cbn [and_then].
    destruct (IH img1 (cursor_x + 6 * scale)%Z)
      as (img' & Hrest & Hw & Hh & Hpix).
    exists img'. rewrite Hrest.
    split; [do 2 f_equal; cbn [length]; rewrite Nat2Z.inj_succ; nia|].
    split; [congruence|]. split; [congruence|].
    intros u v. rewrite Hpix, Hpix1. cbn [text_lit].
    assert (Hin : Image.inside img1 u v = Image.inside img u v)
      by (unfold Image.inside; now rewrite Hw1, Hh1).
    rewrite Hin.
    destruct (Image.inside img u v); cbn [andb];
      [|destruct (glyph (upper_ascii char)); reflexivity].
    destruct (text_lit rest (cursor_x + 6 * scale) y scale u v);
      [now rewrite orb_true_r|].
    rewrite orb_false_r.
    destruct (glyph (upper_ascii char)) as [pattern|]; reflexivity.
Qed.

(** X28.  [draw_dot_matrix_char] draws the glyph dot by dot: it never
    fails, keeps the size of the image, always reports six columns times
    the scale as used, and afterwards a pixel has the colour exactly when
    it is inside the image and in the square of [scale] by [scale] pixels
    of a dot of the glyph of the upper-cased character; every other pixel,
    and every pixel when the character has no glyph or the scale is not
    positive, is as it was. *)
Theorem glyph_is_drawn_dot_by_dot (img : Image.t) (char : ascii) (x y : Z)
    (color : rgb) (scale : Z) :
  exists img',
    draw_dot_matrix_char img char x y color scale
      = Some (img', (6 * scale)%Z)
    /\ Image.width img' = Image.width img
    /\ Image.height img' = Image.height img
    /\ forall u v,
         Image.getpixel img' u v
         = if Image.inside img u v
              && text_lit [char] x y scale u v
           then color else Image.getpixel img u v.
Proof.
  destruct (draw_dot_matrix_char_pixels img char x y color scale)
    as (img' & Hrun & Hw & Hh & Hpix).
  exists img'. split; [exact Hrun|]. split; [exact Hw|]. split; [exact Hh|].
  intros u v. rewrite Hpix. cbn [text_lit]. rewrite orb_false_r.
  destruct (glyph (upper_ascii char)); [reflexivity|].
  now rewrite andb_false_r.
Qed.

(** X29.  The image that [create_dot_matrix_text] returns for an ASCII
    text and a size that is not negative is the text: it has the size asked
    for, and a pixel has the text colour exactly when some dot of the glyph
    of some character covers it, the characters being laid out six columns
    apart at the chosen scale from the centred start, a character without a
    glyph leaving its cell blank; every other pixel has the background
    colour. *)
Theorem dot_matrix_image_is_the_text (text : string) (width height : Z)
    (color bg_color : rgb) (auto_scale : bool) :
  isascii text = true ->
  (0 <= width)%Z ->
  (0 <= height)%Z ->
  exists s columns img,
    chosen_scale text width height auto_scale = Within s
    /\ get_text_width text = Within columns
    /\ create_dot_matrix_text text width height color bg_color auto_scale
       = Within (Some img)
    /\ Image.width img = width
    /\ Image.height img = height
    /\ let x0 := (width / 2 - columns * s / 2)%Z in
       let y0 := (height / 2 - CHAR_HEIGHT * s / 2)%Z in
       forall u v,
         Image.getpixel img u v
         = if (0 <=? u)%Z && (u <? width)%Z && (0 <=? v)%Z
              && (v <? height)%Z
              && text_lit (list_ascii_of_string text) x0 y0 s u v
           then color else bg_color.
Proof.
  intros Hascii Hwidth0 Hheight0. unfold create_dot_matrix_text.
  rewrite (new_image_returns width height bg_color Hwidth0 Hheight0).
  destruct (chosen_scale_positive text width height auto_scale Hascii)
    as (s & Hscale & _).
  destruct (get_text_width_within text Hascii) as (columns & Hcolumns & _).
  exists s, columns. rewrite Hscale.
  unfold draw_dot_matrix_text. rewrite Hcolumns. cbv zeta.
  destruct (draw_chars_pixels color s
              (height / 2 - CHAR_HEIGHT * s / 2)
              (list_ascii_of_string text)
              (Image.blank width height bg_color)
              (width / 2 - columns * s / 2))
    as (img & Hrun & Hw & Hh & Hpix).
  exists img. rewrite Hrun. cbn [and_then].
  split; [reflexivity|]. split; [reflexivity|]. split; [reflexivity|].
  split; [exact Hw|]. split; [exact Hh|].
  intros u v. rewrite Hpix. reflexivity.
Qed.

(** "HI" on a panel, at scale 2 from (5, 9): the top left dot of the H is
    lit, the gap to its right is not. *)
Lemma dot_matrix_image_is_the_text_witness :
  let black := (x00, x00, x00) in
  let amber := (xff, xbf, x00) in
  exists img,
    create_dot_matrix_text "HI" PANEL_SIZE PANEL_SIZE amber black true
      = Within (Some img)
    /\ Image.getpixel img 5 9 = amber
    /\ Image.getpixel img 7 9 = black.
Proof.
  intros black amber.
  destruct (dot_matrix_image_is_the_text "HI" PANEL_SIZE PANEL_SIZE
              amber black true eq_refl)
    as (s & columns & img & Hscale & Hcolumns & Hrun & _ & _ & Hpix);
    [unfold PANEL_SIZE; lia|unfold PANEL_SIZE; lia|].
  change (chosen_scale "HI" PANEL_SIZE PANEL_SIZE true) with (Within 2%Z)
    in Hscale.
  change (get_text_width "HI") with (Within 11%Z) in Hcolumns.
  inversion Hscale; subst s. inversion Hcolumns; subst columns.
  exists img. split; [exact Hrun|]. cbv zeta in Hpix. rewrite !Hpix.
  split; reflexivity.
Defined.
